(** * The NDS ROM container and filename-table codec of [nds.py]

    A shallow embedding of the Python module: the [Folder] class with its
    path lookups, the filename-table functions [load] and [save], and the
    ROM container [NintendoDSRom] with its decoder [_initFromData] and the
    path-based file accessors.  Python exceptions are values of [exn]
    carried by the [result] type; byte strings are lists of [byte];
    Python integers are [Z]. *)

From Stdlib Require Import ZArith Lia List Bool Ascii String.
From Stdlib Require Import Strings.Byte.
From stdpp Require Import base tactics option list gmap strings sorting.

Local Open Scope Z_scope.
Local Set Warnings "-register-all".

(** ** Python runtime pieces *)

Module Py.

(** The exception classes the modelled code can raise. *)
Inductive exn : Set :=
| IndexError
| StructError
| AssertionError
| ValueError
| UnboundLocalError
| RecursionError
| KeyError.

(** The outcome of running a piece of Python: a value or a raised exception. *)
Inductive result (A : Type) : Type :=
| Ok (a : A)
| Raise (e : exn)
| OutOfFuel.
Arguments Ok {A} a.
Arguments Raise {A} e.
Arguments OutOfFuel {A}.

Definition bind {A B} (m : result A) (k : A -> result B) : result B :=
  match m with
  | Ok a => k a
  | Raise e => Raise e
  | OutOfFuel => OutOfFuel
  end.

(** What one pass through the body of a [while] loop decides. *)
Inductive step (S R : Type) : Type :=
| Continue (s : S)
| Break (r : R).
Arguments Continue {S R} s.
Arguments Break {S R} r.

(** A [while] loop on the loop state [s], run for at most [fuel] passes;
    [OutOfFuel] stands for a loop that is still running after them. *)
Fixpoint while {S R} (fuel : nat) (body : S -> result (step S R)) (s : S) : result R :=
  match fuel with
  | O => OutOfFuel
  | Datatypes.S fuel' =>
      match body s with
      | Ok (Continue s') => while fuel' body s'
      | Ok (Break r) => Ok r
      | Raise e => Raise e
      | OutOfFuel => OutOfFuel
      end
  end.

(** [len(l)] as a Python integer. *)
Definition len {A} (l : list A) : Z := Z.of_nat (length l).

(** How a slice bound is brought into [0, len]: a negative bound counts
    from the end. *)
Definition clamp (n i : Z) : Z :=
  if i <? 0 then Z.max 0 (i + n) else Z.min i n.

(** [l[lo:hi]]: never raises, clips to the sequence. *)
Definition slice {A} (l : list A) (lo hi : Z) : list A :=
  let lo' := clamp (len l) lo in
  let hi' := clamp (len l) hi in
  take (Z.to_nat (hi' - lo')) (drop (Z.to_nat lo') l).

(** [l[lo:]] *)
Definition slice_from {A} (l : list A) (lo : Z) : list A :=
  drop (Z.to_nat (clamp (len l) lo)) l.

(** [l[:hi]] *)
Definition slice_to {A} (l : list A) (hi : Z) : list A :=
  take (Z.to_nat (clamp (len l) hi)) l.

(** The position a subscript [l[i]] denotes, when it is in range. *)
Definition subscript (n i : Z) : option nat :=
  let i' := if i <? 0 then i + n else i in
  if (0 <=? i') && (i' <? n) then Some (Z.to_nat i') else None.

(** [l[i]]: raises IndexError out of range. *)
Definition getitem {A} (l : list A) (i : Z) : result A :=
  match subscript (len l) i with
  | Some k => match l !! k with Some x => Ok x | None => Raise IndexError end
  | None => Raise IndexError
  end.

(** [l[i] = x]: raises IndexError out of range. *)
Definition setitem {A} (l : list A) (i : Z) (x : A) : result (list A) :=
  match subscript (len l) i with
  | Some k => Ok (<[k := x]> l)
  | None => Raise IndexError
  end.

(** [l.index(x)] for an [x] known to be in [l]: the first position. *)
Fixpoint index {A} `{EqDecision A} (x : A) (l : list A) : Z :=
  match l with
  | [] => 0
  | y :: l' => if decide (y = x) then 0 else 1 + index x l'
  end.

(** [x in l] *)
Definition contains {A} `{EqDecision A} (x : A) (l : list A) : bool :=
  bool_decide (x ∈ l).

#[global] Instance byte_eq_decision : EqDecision byte := Byte.byte_eq_dec.

Definition byte_val (b : byte) : Z := Z.of_N (Byte.to_N b).

(** A little-endian unsigned integer. *)
Fixpoint le_int (bs : list byte) : Z :=
  match bs with
  | [] => 0
  | b :: bs' => byte_val b + 256 * le_int bs'
  end.

(** The [n] bytes [struct.unpack_from] reads at [off]; struct.error when the
    buffer does not hold them. *)
Definition unpack_bytes (n : Z) (buf : list byte) (off : Z) : result (list byte) :=
  let off' := if off <? 0 then off + len buf else off in
  if (0 <=? off') && (off' + n <=? len buf)
  then Ok (take (Z.to_nat n) (drop (Z.to_nat off') buf))
  else Raise StructError.

(** [struct.unpack_from('B', buf, off)] *)
Definition unpack_B (buf : list byte) (off : Z) : result Z :=
  bind (unpack_bytes 1 buf off) (fun bs => Ok (le_int bs)).

(** [struct.unpack_from('<H', buf, off)] *)
Definition unpack_H (buf : list byte) (off : Z) : result Z :=
  bind (unpack_bytes 2 buf off) (fun bs => Ok (le_int bs)).

(** [struct.unpack_from('<I', buf, off)] *)
Definition unpack_I (buf : list byte) (off : Z) : result Z :=
  bind (unpack_bytes 4 buf off) (fun bs => Ok (le_int bs)).

(** [struct.unpack_from('<IH', buf, off)] *)
Definition unpack_IH (buf : list byte) (off : Z) : result (Z * Z) :=
  bind (unpack_bytes 6 buf off) (fun bs => Ok (le_int (take 4 bs), le_int (drop 4 bs))).

(** [struct.unpack_from('<II', buf, off)] *)
Definition unpack_II (buf : list byte) (off : Z) : result (Z * Z) :=
  bind (unpack_bytes 8 buf off) (fun bs => Ok (le_int (take 4 bs), le_int (drop 4 bs))).

Definition byte_of_Z (v : Z) : byte :=
  match Byte.of_N (Z.to_N (v mod 256)) with
  | Some b => b
  | None => x00
  end.

(** The [n] little-endian bytes of [v]. *)
Fixpoint le_bytes (n : nat) (v : Z) : list byte :=
  match n with
  | O => []
  | S n' => byte_of_Z v :: le_bytes n' (v / 256)
  end.

(** One unsigned field of [struct.pack]: struct.error when [v] does not fit
    in [n] bytes. *)
Definition pack_uint (n : nat) (v : Z) : result (list byte) :=
  if (0 <=? v) && (v <? 256 ^ Z.of_nat n) then Ok (le_bytes n v) else Raise StructError.

(** [buf[off:off+len(bs)] = bs] as [struct.pack_into] does it: the buffer
    keeps its length, struct.error when the bytes do not fit. *)
Definition pack_into (buf : list byte) (off : Z) (bs : list byte) : result (list byte) :=
  let off' := if off <? 0 then off + len buf else off in
  if (0 <=? off') && (off' + len bs <=? len buf)
  then Ok (take (Z.to_nat off') buf ++ bs ++ drop (Z.to_nat off' + length bs) buf)
  else Raise StructError.

(** [s.split(sep)] for a one-character separator. *)
Fixpoint split (sep : ascii) (s : string) : list string :=
  match s with
  | EmptyString => [EmptyString]
  | String c s' =>
      if Ascii.eqb c sep then EmptyString :: split sep s'
      else match split sep s' with
           | [] => [String c EmptyString]
           | w :: ws => String c w :: ws
           end
  end.

Notation "x <- e ;; k" := (bind e (fun x => k))
  (at level 100, e at next level, k at level 200, right associativity).

(** A [for] loop over [l] that updates the loop state [s]; an exception in
    the body ends it. *)
Fixpoint for_each {A S} (l : list A) (body : A -> S -> result S) (s : S) : result S :=
  match l with
  | [] => Ok s
  | x :: l' => s' <- body x s ;; for_each l' body s'
  end.

(** [sorted(d.keys())] of a dict with integer keys. *)
Definition sorted_keys {V} (d : gmap Z V) : list Z :=
  merge_sort Z.le (map_to_list d).*1.

(** [range(n)] *)
Definition range (n : Z) : list Z := seqZ 0 n.

(** [bs.decode('latin-1')] and [s.encode('latin-1')]: strings here are
    sequences of 8-bit characters, so both are total. *)
Definition decode_latin1 (bs : list byte) : string := string_of_list_byte bs.
Definition encode_latin1 (s : string) : list byte := list_byte_of_string s.

(** [len(s)] of a string. *)
Definition strlen (s : string) : Z := Z.of_nat (String.length s).

(** [bs.rstrip(b'\0')] *)
Fixpoint rstrip0 (bs : list byte) : list byte :=
  match bs with
  | [] => []
  | b :: bs' =>
      match rstrip0 bs' with
      | [] => if Byte.eqb b x00 then [] else [b]
      | r => b :: r
      end
  end.

End Py.

Export Py.

(** ** The filename table: [Folder], [load], [save] *)

Module Fnt.

(** class Folder: subfolders as (name, folder) pairs in order, file names in
    order, and the ID of the first file. *)
Inductive Folder : Type :=
  mkFolder { folders : list (string * Folder); files : list string; firstID : Z }.

(** [Folder()] *)
Definition empty : Folder := mkFolder [] [] 0.

(** The loop that drops empty components at the end of the path:
    [while not pathList[-1]: pathList = pathList[:-1]]. *)
Definition strip_trailing (pathList : list string) : result (list string) :=
  while (S (length pathList))
    (fun pathList =>
       last_ <- getitem pathList (-1) ;;
       if String.eqb last_ EmptyString
       then Ok (Continue (slice_to pathList (-1)))
       else Ok (Break pathList))
    pathList.

(** [while not pathList[0]: pathList = pathList[1:]] *)
Definition strip_leading (pathList : list string) : result (list string) :=
  while (S (length pathList))
    (fun pathList =>
       first_ <- getitem pathList 0 ;;
       if String.eqb first_ EmptyString
       then Ok (Continue (slice_from pathList 1))
       else Ok (Break pathList))
    pathList.

(** The three lines that turn the path string into the list of components
    that [findInFolder] walks. *)
Definition pathList_of (path : string) : result (list string) :=
  let pathList := split "/"%char path in
  pathList <- strip_trailing pathList ;;
  strip_leading pathList.

(** Folder.idOf, the inner [findInFolder], which calls itself once for each
    component of the path after the first.  [limit] is the number of nested
    calls that the interpreter still allows (its recursion limit): Python
    raises RecursionError when they are used up. *)
Fixpoint idOf_findInFolder (limit : nat) (requestedPath : list string)
    (searchFolder : Folder) : result (option Z) :=
  match limit with
  | O => Raise RecursionError
  | S limit' =>
      match requestedPath with
      | [] => Raise IndexError
      | pathPart :: rest =>
          if len requestedPath =? 1 then
            if contains pathPart (files searchFolder)
            then Ok (Some (firstID searchFolder + index pathPart (files searchFolder)))
            else Ok None
          else
            (fix each (fs : list (string * Folder)) : result (option Z) :=
               match fs with
               | [] => Ok None
               | (subfolderName, subfolder) :: fs' =>
                   if String.eqb subfolderName pathPart
                   then idOf_findInFolder limit' rest subfolder
                   else each fs'
               end) (folders searchFolder)
      end
  end.

(** Folder.idOf *)
Definition idOf (limit : nat) (self : Folder) (path : string) : result (option Z) :=
  pathList <- pathList_of path ;;
  idOf_findInFolder limit pathList self.

(** Folder.subfolder, the inner [findInFolder], with the nested calls that
    the interpreter still allows. *)
Fixpoint subfolder_findInFolder (limit : nat) (requestedPath : list string)
    (searchFolder : Folder) : result (option Folder) :=
  match limit with
  | O => Raise RecursionError
  | S limit' =>
      match requestedPath with
      | [] => Raise IndexError
      | pathPart :: rest =>
          (fix each (fs : list (string * Folder)) : result (option Folder) :=
             match fs with
             | [] => Ok None
             | (subfolderName, subfolder) :: fs' =>
                 if String.eqb subfolderName pathPart
                 then if len requestedPath =? 1
                      then Ok (Some subfolder)
                      else subfolder_findInFolder limit' rest subfolder
                 else each fs'
             end) (folders searchFolder)
      end
  end.

(** Folder.subfolder *)
Definition subfolder (limit : nat) (self : Folder) (path : string)
  : result (option Folder) :=
  pathList <- pathList_of path ;;
  subfolder_findInFolder limit pathList self.

(** One pass of the [while True] loop of [loadFolder] (lines 247 to 263);
    the loop state is [off] and [folderObj], and [loadFolder] is the
    recursive call. *)
Definition loadFolder_pass (loadFolder : Z -> result Folder) (fnt : list byte)
  : Z * Folder -> result (step (Z * Folder) Folder) :=
  fun '(off, folderObj) =>
    control <- unpack_B fnt off ;;
    let off := off + 1 in
    if control =? 0 then Ok (Break folderObj)
    else
      let len_ := Z.land control 0x7F in
      let isFolder := Z.land control 0x80 in
      let name := decode_latin1 (slice fnt off (off + len_)) in
      let off := off + len_ in
      if negb (isFolder =? 0) then
        subFolderID <- unpack_H fnt off ;;
        let off := off + 2 in
        sub <- loadFolder subFolderID ;;
        Ok (Continue (off, mkFolder (folders folderObj ++ [(name, sub)])
                                    (files folderObj) (firstID folderObj)))
      else
        Ok (Continue (off, mkFolder (folders folderObj)
                                    (files folderObj ++ [name]) (firstID folderObj))).

(** [load], the inner [loadFolder].  [limit] is the number of nested calls
    the interpreter still allows (its recursion limit): Python raises
    RecursionError when they are used up. *)
Fixpoint loadFolder (limit : nat) (fnt : list byte) (folderId : Z) : result Folder :=
  match limit with
  | O => Raise RecursionError
  | S limit' =>
      let folderObj := empty in
      let off := 8 * Z.land folderId 0xFFF in
      p <- unpack_IH fnt off ;;
      let '(entriesTableOff, fileID) := p in
      let folderObj := mkFolder (folders folderObj) (files folderObj) fileID in
      let off := entriesTableOff in
      while (S (length fnt)) (loadFolder_pass (loadFolder limit' fnt) fnt) (off, folderObj)
  end.

(** [load]: the root folder is always 0xF000. *)
Definition load (limit : nat) (fnt : list byte) : result Folder :=
  loadFolder limit fnt 0xF000.

(** Where Python looks a name up.  A name that a function body assigns is a
    local of that function, unbound until the assignment runs, unless the
    body declares it [nonlocal]; then it is the variable of the enclosing
    function. *)
Inductive scope : Set :=
| FunctionLocal
| Nonlocal.

(** The variables of [save] that the nested [parseFolder] refers to: the
    dict [folderEntries], which it updates in place, and [nextFolderID]. *)
Record closure : Type :=
  mkClosure { folderEntries : gmap Z (Z * Z * list byte); nextFolderID : Z }.

(** Reading [nextFolderID] inside [parseFolder]; [frame] is the local of that
    name in the running call. *)
Definition read_nextFolderID (sc : scope) (frame : option Z) (env : closure) : result Z :=
  match sc with
  | FunctionLocal =>
      match frame with
      | Some v => Ok v
      | None => Raise UnboundLocalError
      end
  | Nonlocal => Ok (nextFolderID env)
  end.

(** Assigning [nextFolderID] inside [parseFolder]. *)
Definition write_nextFolderID (sc : scope) (v : Z) (frame : option Z) (env : closure)
  : option Z * closure :=
  match sc with
  | FunctionLocal => (Some v, env)
  | Nonlocal => (frame, mkClosure (folderEntries env) v)
  end.

(** [save], the inner [parseFolder], under the name resolution [sc] for
    [nextFolderID]. *)
Fixpoint parseFolder (sc : scope) (d : Folder) (parentID : Z) (env : closure)
  : result (Z * closure) :=
  let frame : option Z := None in
  folderID <- read_nextFolderID sc frame env ;;
  v <- read_nextFolderID sc frame env ;;
  let '(frame, env) := write_nextFolderID sc (v + 1) frame env in
  let entriesTable : list byte := [] in
  entriesTable <-
    for_each (files d)
      (fun file entriesTable =>
         if strlen file >? 127 then Raise ValueError
         else
           let entriesTable := entriesTable ++ [byte_of_Z (strlen file)] in
           Ok (entriesTable ++ encode_latin1 file))
      entriesTable ;;
  p <-
    (fix each (fs : list (string * Folder)) (st : list byte * closure)
       : result (list byte * closure) :=
       match fs with
       | [] => Ok st
       | (folderName, folder) :: fs' =>
           let '(entriesTable, env) := st in
           q <- parseFolder sc folder folderID env ;;
           let '(otherID, env) := q in
           if strlen folderName >? 127 then Raise ValueError
           else
             let entriesTable :=
               entriesTable ++ [byte_of_Z (Z.lor (strlen folderName) 0x80)] in
             let entriesTable := entriesTable ++ encode_latin1 folderName in
             packed <- pack_uint 2 otherID ;;
             each fs' (entriesTable ++ packed, env)
       end) (folders d) (entriesTable, env) ;;
  let '(entriesTable, env) := p in
  let entriesTable := entriesTable ++ [x00] in
  let env :=
    mkClosure (<[folderID := (firstID d, parentID, entriesTable)]> (folderEntries env))
              (nextFolderID env) in
  Ok (folderID, env).

(** [save], the inner [countFoldersIn].  The count is taken without the
    recursion limit of the interpreter: [save] raises before it has a table
    on every tree, and on a tree nested deeper than the limit the exception
    of the source is the RecursionError of this count. *)
Fixpoint countFoldersIn (folder : Folder) : Z :=
  let folderCount := 0 in
  let folderCount :=
    (fix each (fs : list (string * Folder)) (folderCount : Z) : Z :=
       match fs with
       | [] => folderCount
       | (_, f) :: fs' => each fs' (folderCount + countFoldersIn f)
       end) (folders folder) folderCount in
  folderCount + 1.

(** [struct.pack_into('<IHH', buf, off, a, b, c)] *)
Definition pack_into_IHH (buf : list byte) (off a b c : Z) : result (list byte) :=
  pa <- pack_uint 4 a ;;
  pb <- pack_uint 2 b ;;
  pc <- pack_uint 2 c ;;
  pack_into buf off (pa ++ pb ++ pc).

(** [save] under the name resolution [sc] for [nextFolderID]. *)
Definition save_under (sc : scope) (root : Folder) : result (list byte) :=
  let env := mkClosure ∅ 0xF000 in
  let rootParentId := countFoldersIn root in
  p <- parseFolder sc root rootParentId env ;;
  let '(rootId, env) := p in
  if negb (rootId =? 0xF000) then Raise AssertionError
  else
    let fnt : list byte := replicate (Z.to_nat (Z.of_nat (size (folderEntries env)) * 8)) x00 in
    for_each (sorted_keys (folderEntries env))
      (fun currentFolderID fnt =>
         match folderEntries env !! currentFolderID with
         | None => Raise KeyError
         | Some (fileID, parentID, entriesTable) =>
             let offsetInFolderTable := 8 * Z.land currentFolderID 0xFFF in
             fnt <- pack_into_IHH fnt offsetInFolderTable (len fnt) fileID parentID ;;
             Ok (fnt ++ entriesTable)
         end)
      fnt.

(** [save] as the source has it: [parseFolder] assigns [nextFolderID]
    (line 299, [nextFolderID += 1]) and declares nothing, so the name is a
    local of [parseFolder]. *)
Definition save (root : Folder) : result (list byte) :=
  save_under FunctionLocal root.

End Fnt.

(** ** The ROM container: [NintendoDSRom] *)

Module Rom.

Definition ICON_BANNER_LEN : Z := 0x840.

(** The marker [b'\x21\x06\xC0\xDE'] of a record that follows the ARM9 code. *)
Definition POST_DATA_MAGIC : list byte := [x21; x06; xc0; xde].

(** A computation that reads at the cursor [self.headerOffset] and moves it. *)
Definition Cursor (A : Type) : Type := Z -> result (A * Z).

Definition cret {A} (a : A) : Cursor A := fun off => Ok (a, off).

Definition cbind {A B} (m : Cursor A) (k : A -> Cursor B) : Cursor B :=
  fun off =>
    match m off with
    | Ok (a, off') => k a off'
    | Raise e => Raise e
    | OutOfFuel => OutOfFuel
    end.

Notation "x <~ e ;; k" := (cbind e (fun x => k))
  (at level 100, e at next level, k at level 200, right associativity).

(** The four readers that [_initFromData] defines over [data]. *)
Definition readRaw (data : list byte) (length : Z) : Cursor (list byte) :=
  fun headerOffset =>
    let retVal := slice data headerOffset (headerOffset + length) in
    Ok (retVal, headerOffset + length).

Definition read8 (data : list byte) : Cursor Z :=
  fun headerOffset =>
    retVal <- getitem data headerOffset ;;
    Ok (byte_val retVal, headerOffset + 1).

Definition read16 (data : list byte) : Cursor Z :=
  fun headerOffset =>
    retVal <- unpack_H data headerOffset ;;
    Ok (retVal, headerOffset + 2).

Definition read32 (data : list byte) : Cursor Z :=
  fun headerOffset =>
    retVal <- unpack_I data headerOffset ;;
    Ok (retVal, headerOffset + 4).

(** [assert self.headerOffset == n] *)
Definition assert_offset (n : Z) : Cursor unit :=
  fun headerOffset =>
    if headerOffset =? n then Ok (tt, headerOffset) else Raise AssertionError.

(** Everything the header pass reads, attributes of [self] and locals alike,
    in the order of the reads. *)
Record Header : Type := mkHeader {
  h_name : list byte;
  h_idCode : list byte;
  h_developerCode : list byte;
  h_unitCode : Z;
  h_encryptionSeedSelect : Z;
  h_deviceCapacity : Z;
  h_pad015 : Z;
  h_pad016 : Z;
  h_pad017 : Z;
  h_pad018 : Z;
  h_pad019 : Z;
  h_pad01A : Z;
  h_pad01B : Z;
  h_pad01C : Z;
  h_region : Z;
  h_version : Z;
  h_autostart : Z;
  h_arm9Offset : Z;
  h_arm9EntryAddress : Z;
  h_arm9RamAddress : Z;
  h_arm9Len : Z;
  h_arm7Offset : Z;
  h_arm7EntryAddress : Z;
  h_arm7RamAddress : Z;
  h_arm7Len : Z;
  fntOffset : Z;
  fntLen : Z;
  fatOffset : Z;
  fatLen : Z;
  arm9OvTOffset : Z;
  arm9OvTLen : Z;
  arm7OvTOffset : Z;
  arm7OvTLen : Z;
  h_normalCardControlRegisterSettings : Z;
  h_secureCardControlRegisterSettings : Z;
  iconBannerOffset : Z;
  h_secureAreaChecksum : Z;
  h_secureTransferDelay : Z;
  h_arm9CodeSettingsPointerAddress : Z;
  h_arm7CodeSettingsPointerAddress : Z;
  h_secureAreaDisable : list byte;
  h_romSizeOrRsaSigOffset : Z;
  headerSize : Z;
  h_pad088 : list byte;
  h_nintendoLogo : list byte;
  nintendoLogoChecksum : Z;
  headerChecksum : Z;
  debugRomOffset : Z;
  debugRomSize : Z;
  h_debugRomAddress : Z;
  h_pad16C : list byte
}.

(** The header pass of [_initFromData] (lines 485 to 545). *)
Definition readHeader (data : list byte) : Cursor Header :=
  _ <~ assert_offset 0 ;;
  name <~ readRaw data 12 ;;
  let name := rstrip0 name in
  idCode <~ readRaw data 4 ;;
  developerCode <~ readRaw data 2 ;;
  unitCode <~ read8 data ;;
  encryptionSeedSelect <~ read8 data ;;
  deviceCapacity <~ read8 data ;;
  _ <~ assert_offset 0x15 ;;
  pad015 <~ read8 data ;;
  pad016 <~ read8 data ;;
  pad017 <~ read8 data ;;
  pad018 <~ read8 data ;;
  pad019 <~ read8 data ;;
  pad01A <~ read8 data ;;
  pad01B <~ read8 data ;;
  pad01C <~ read8 data ;;
  region <~ read8 data ;;
  version <~ read8 data ;;
  autostart <~ read8 data ;;
  _ <~ assert_offset 0x20 ;;
  arm9Offset <~ read32 data ;;
  arm9EntryAddress <~ read32 data ;;
  arm9RamAddress <~ read32 data ;;
  arm9Len <~ read32 data ;;
  arm7Offset <~ read32 data ;;
  arm7EntryAddress <~ read32 data ;;
  arm7RamAddress <~ read32 data ;;
  arm7Len <~ read32 data ;;
  _ <~ assert_offset 0x40 ;;
  fntOffset <~ read32 data ;;
  fntLen <~ read32 data ;;
  fatOffset <~ read32 data ;;
  fatLen <~ read32 data ;;
  arm9OvTOffset <~ read32 data ;;
  arm9OvTLen <~ read32 data ;;
  arm7OvTOffset <~ read32 data ;;
  arm7OvTLen <~ read32 data ;;
  _ <~ assert_offset 0x60 ;;
  normalCardControlRegisterSettings <~ read32 data ;;
  secureCardControlRegisterSettings <~ read32 data ;;
  iconBannerOffset <~ read32 data ;;
  secureAreaChecksum <~ read16 data ;;
  secureTransferDelay <~ read16 data ;;
  _ <~ assert_offset 0x70 ;;
  arm9CodeSettingsPointerAddress <~ read32 data ;;
  arm7CodeSettingsPointerAddress <~ read32 data ;;
  secureAreaDisable <~ readRaw data 8 ;;
  _ <~ assert_offset 0x80 ;;
  romSizeOrRsaSigOffset <~ read32 data ;;
  headerSize <~ read32 data ;;
  pad088 <~ readRaw data 0x38 ;;
  nintendoLogo <~ readRaw data 0x9C ;;
  nintendoLogoChecksum <~ read16 data ;;
  headerChecksum <~ read16 data ;;
  _ <~ assert_offset 0x160 ;;
  debugRomOffset <~ read32 data ;;
  debugRomSize <~ read32 data ;;
  debugRomAddress <~ read32 data ;;
  pad16C <~ readRaw data 0x94 ;;
  _ <~ assert_offset 0x200 ;;
  cret (mkHeader name idCode developerCode unitCode encryptionSeedSelect
          deviceCapacity pad015 pad016 pad017 pad018 pad019 pad01A pad01B pad01C
          region version autostart
          arm9Offset arm9EntryAddress arm9RamAddress arm9Len
          arm7Offset arm7EntryAddress arm7RamAddress arm7Len
          fntOffset fntLen fatOffset fatLen
          arm9OvTOffset arm9OvTLen arm7OvTOffset arm7OvTLen
          normalCardControlRegisterSettings secureCardControlRegisterSettings
          iconBannerOffset secureAreaChecksum secureTransferDelay
          arm9CodeSettingsPointerAddress arm7CodeSettingsPointerAddress
          secureAreaDisable romSizeOrRsaSigOffset headerSize pad088 nintendoLogo
          nintendoLogoChecksum headerChecksum
          debugRomOffset debugRomSize debugRomAddress pad16C).

(** The attributes of a [NintendoDSRom] object after [_initFromData]. *)
Record NintendoDSRom : Type := mkRom {
  headerOffset : Z;
  name : list byte;
  idCode : list byte;
  developerCode : list byte;
  unitCode : Z;
  encryptionSeedSelect : Z;
  deviceCapacity : Z;
  pad015 : Z;
  pad016 : Z;
  pad017 : Z;
  pad018 : Z;
  pad019 : Z;
  pad01A : Z;
  pad01B : Z;
  pad01C : Z;
  region : Z;
  version : Z;
  autostart : Z;
  arm9Offset : Z;
  arm9EntryAddress : Z;
  arm9RamAddress : Z;
  arm9Len : Z;
  arm7Offset : Z;
  arm7EntryAddress : Z;
  arm7RamAddress : Z;
  arm7Len : Z;
  normalCardControlRegisterSettings : Z;
  secureCardControlRegisterSettings : Z;
  secureAreaChecksum : Z;
  secureTransferDelay : Z;
  arm9CodeSettingsPointerAddress : Z;
  arm7CodeSettingsPointerAddress : Z;
  secureAreaDisable : list byte;
  romSizeOrRsaSigOffset : Z;
  pad088 : list byte;
  nintendoLogo : list byte;
  debugRomAddress : Z;
  pad16C : list byte;
  pad200 : list byte;
  rsaSignature : list byte;
  arm9 : list byte;
  arm7 : list byte;
  arm9OverlayTable : list byte;
  arm7OverlayTable : list byte;
  iconBanner : list byte;
  debugRom : list byte;
  arm9PostData : list byte;
  filenames : Fnt.Folder;
  files : list (list byte);
  sortedFileIds : list Z
}.

(** One pass of the loop that scans the records after the ARM9 code (lines
    583 to 586); the loop state is [arm9PostData] and [arm9PostDataOffset]. *)
Definition scanPostData_pass (data : list byte)
  : list byte * Z -> result (step (list byte * Z) (list byte)) :=
  fun '(arm9PostData, arm9PostDataOffset) =>
    if bool_decide (slice data arm9PostDataOffset (arm9PostDataOffset + 4)
                    = POST_DATA_MAGIC)
    then
      let arm9PostData :=
        arm9PostData ++ slice data arm9PostDataOffset (arm9PostDataOffset + 12) in
      Ok (Continue (arm9PostData, arm9PostDataOffset + 12))
    else Ok (Break arm9PostData).

(** The scan of the records that follow the ARM9 code (lines 581 to 587). *)
Definition scanPostData (data : list byte) (arm9PostDataOffset : Z) : result (list byte) :=
  let arm9PostData : list byte := [] in
  while (S (length data)) (scanPostData_pass data) (arm9PostData, arm9PostDataOffset).

(** The resolution of the RSA signature (lines 548 to 556). *)
Definition readRsaSignature (data : list byte) (romSizeOrRsaSigOffset : Z)
  : result (list byte) :=
  let realSigOffset := 0 in
  realSigOffset <-
    (if len data >=? 0x1004 then unpack_I data 0x1000 else Ok realSigOffset) ;;
  let realSigOffset :=
    if (realSigOffset =? 0) && (len data >? romSizeOrRsaSigOffset)
    then romSizeOrRsaSigOffset else realSigOffset in
  let rsaSignature : list byte := [] in
  let rsaSignature :=
    if negb (realSigOffset =? 0)
    then slice data realSigOffset (Z.min (len data) (realSigOffset + 0x88))
    else rsaSignature in
  Ok rsaSignature.

(** The file table (lines 595 to 605): [files] and [sortedFileIds]. *)
Definition readFiles (data fat : list byte) : result (list (list byte) * list Z) :=
  let files : list (list byte) := [] in
  let sortedFileIds : list Z := [] in
  if negb (len fat =? 0) then
    let offset2Id : gmap Z Z := ∅ in
    p <- for_each (range (len fat / 8))
           (fun i '(files, offset2Id) =>
              q <- unpack_II fat (8 * i) ;;
              let '(startOffset, endOffset) := q in
              Ok (files ++ [slice data startOffset endOffset],
                  <[startOffset := i]> offset2Id))
           (files, offset2Id) ;;
    let '(files, offset2Id) := p in
    sortedFileIds <-
      for_each (sorted_keys offset2Id)
        (fun off sortedFileIds =>
           match offset2Id !! off with
           | Some i => Ok (sortedFileIds ++ [i])
           | None => Raise KeyError
           end)
        sortedFileIds ;;
    Ok (files, sortedFileIds)
  else Ok (files, sortedFileIds).

(** The zero padding of a short buffer (lines 460 to 463). *)
Definition padData (data : list byte) : result (list byte) :=
  if len data <? 0x200 then
    let data := data ++ replicate (Z.to_nat (0x200 - len data)) x00 in
    if len data =? 0x200 then Ok data else Raise AssertionError
  else Ok data.

(** NintendoDSRom._initFromData; [limit] is the recursion limit under which
    the filename table is loaded. *)
Definition _initFromData (limit : nat) (data : list byte) : result NintendoDSRom :=
  let headerOffset := 0 in
  data <- padData data ;;
  p <- readHeader data headerOffset ;;
  let '(h, headerOffset) := p in
  let pad200 := slice data 0x200 (Z.min (h_arm9Offset h) (len data)) in
  rsaSignature <- readRsaSignature data (h_romSizeOrRsaSigOffset h) ;;
  let arm9 := slice data (h_arm9Offset h) (h_arm9Offset h + h_arm9Len h) in
  let arm7 := slice data (h_arm7Offset h) (h_arm7Offset h + h_arm7Len h) in
  let fnt := slice data (fntOffset h) (fntOffset h + fntLen h) in
  let fat := slice data (fatOffset h) (fatOffset h + fatLen h) in
  let arm9OverlayTable := slice data (arm9OvTOffset h) (arm9OvTOffset h + arm9OvTLen h) in
  let arm7OverlayTable := slice data (arm7OvTOffset h) (arm7OvTOffset h + arm7OvTLen h) in
  let iconBanner :=
    if negb (iconBannerOffset h =? 0)
    then slice data (iconBannerOffset h) (iconBannerOffset h + ICON_BANNER_LEN)
    else [] in
  let debugRom :=
    if negb (debugRomOffset h =? 0)
    then slice data (debugRomOffset h) (debugRomOffset h + debugRomSize h)
    else [] in
  let arm9PostDataOffset := h_arm9Offset h + h_arm9Len h in
  arm9PostData <- scanPostData data arm9PostDataOffset ;;
  filenames <- (if negb (len fnt =? 0) then Fnt.load limit fnt else Ok Fnt.empty) ;;
  q <- readFiles data fat ;;
  let '(files, sortedFileIds) := q in
  Ok (mkRom
        headerOffset (h_name h) (h_idCode h) (h_developerCode h)
        (h_unitCode h) (h_encryptionSeedSelect h) (h_deviceCapacity h)
        (h_pad015 h) (h_pad016 h) (h_pad017 h) (h_pad018 h) (h_pad019 h)
        (h_pad01A h) (h_pad01B h) (h_pad01C h) (h_region h) (h_version h)
        (h_autostart h) (h_arm9Offset h) (h_arm9EntryAddress h)
        (h_arm9RamAddress h) (h_arm9Len h) (h_arm7Offset h)
        (h_arm7EntryAddress h) (h_arm7RamAddress h) (h_arm7Len h)
        (h_normalCardControlRegisterSettings h)
        (h_secureCardControlRegisterSettings h) (h_secureAreaChecksum h)
        (h_secureTransferDelay h) (h_arm9CodeSettingsPointerAddress h)
        (h_arm7CodeSettingsPointerAddress h) (h_secureAreaDisable h)
        (h_romSizeOrRsaSigOffset h) (h_pad088 h) (h_nintendoLogo h)
        (h_debugRomAddress h) (h_pad16C h) pad200 rsaSignature arm9 arm7
        arm9OverlayTable arm7OverlayTable iconBanner debugRom arm9PostData
        filenames files sortedFileIds).

(** [self.files = files'] on the object [self]: every other attribute stays. *)
Definition with_files (self : NintendoDSRom) (files' : list (list byte)) : NintendoDSRom :=
  mkRom
    (headerOffset self) (name self) (idCode self) (developerCode self)
    (unitCode self) (encryptionSeedSelect self) (deviceCapacity self)
    (pad015 self) (pad016 self) (pad017 self) (pad018 self) (pad019 self)
    (pad01A self) (pad01B self) (pad01C self) (region self) (version self)
    (autostart self) (arm9Offset self) (arm9EntryAddress self)
    (arm9RamAddress self) (arm9Len self) (arm7Offset self)
    (arm7EntryAddress self) (arm7RamAddress self) (arm7Len self)
    (normalCardControlRegisterSettings self)
    (secureCardControlRegisterSettings self) (secureAreaChecksum self)
    (secureTransferDelay self) (arm9CodeSettingsPointerAddress self)
    (arm7CodeSettingsPointerAddress self) (secureAreaDisable self)
    (romSizeOrRsaSigOffset self) (pad088 self) (nintendoLogo self)
    (debugRomAddress self) (pad16C self) (pad200 self) (rsaSignature self)
    (arm9 self) (arm7 self) (arm9OverlayTable self) (arm7OverlayTable self)
    (iconBanner self) (debugRom self) (arm9PostData self) (filenames self)
    files' (sortedFileIds self).

(** NintendoDSRom.getFileByName; [limit] is the recursion limit left to
    [idOf]. *)
Definition getFileByName (limit : nat) (self : NintendoDSRom) (filename : string)
  : result (list byte) :=
  fid <- Fnt.idOf limit (filenames self) filename ;;
  match fid with
  | None => Raise ValueError
  | Some fid => getitem (files self) fid
  end.

(** NintendoDSRom.setFileByName: the object after the call. *)
Definition setFileByName (limit : nat) (self : NintendoDSRom) (filename : string)
    (data : list byte) : result NintendoDSRom :=
  fid <- Fnt.idOf limit (filenames self) filename ;;
  match fid with
  | None => Raise ValueError
  | Some fid =>
      files' <- setitem (files self) fid data ;;
      Ok (with_files self files')
  end.

End Rom.

(** * The vocabulary of the statements *)

(** ** Paths in a folder tree *)

Module FntSpec.
Import Fnt.

(** The first subfolder called [name] among [fs]. *)
Fixpoint child (name : string) (fs : list (string * Folder)) : option Folder :=
  match fs with
  | [] => None
  | (n, f) :: fs' => if String.eqb n name then Some f else child name fs'
  end.

(** The file that the path components lead to from a folder, with its ID. *)
Inductive FileAt : Folder -> list string -> Z -> Prop :=
| FileAt_here d name :
    name ∈ files d -> FileAt d [name] (firstID d + Py.index name (files d))
| FileAt_below d name sub rest id :
    rest <> [] -> child name (folders d) = Some sub -> FileAt sub rest id ->
    FileAt d (name :: rest) id.

(** The folder that the path components lead to from a folder. *)
Inductive FolderAt : Folder -> list string -> Folder -> Prop :=
| FolderAt_child d name sub :
    child name (folders d) = Some sub -> FolderAt d [name] sub
| FolderAt_below d name sub rest r :
    rest <> [] -> child name (folders d) = Some sub -> FolderAt sub rest r ->
    FolderAt d (name :: rest) r.

(** [n] separators in a row. *)
Fixpoint slashes (n : nat) : string :=
  match n with
  | O => EmptyString
  | S n' => String "/" (slashes n')
  end.

(** The path has a character that is not the separator. *)
Definition nonblank (path : string) : Prop :=
  exists c, In c (list_ascii_of_string path) /\ c <> "/"%char.

(** The two loops after each other, as [pathList_of] runs them. *)
Definition strip (l : list string) : result (list string) :=
  l' <- strip_trailing l ;; strip_leading l'.

End FntSpec.

(** ** The layout of a ROM buffer *)

Module RomSpec.
Import Rom.

(** The unsigned little-endian integer held by the [width] bytes at [off]. *)
Definition field (data : list byte) (off width : Z) : Z :=
  le_int (slice data off (off + width)).

(** The buffer after the zero padding of lines 461 and 462. *)
Definition pad (data : list byte) : list byte :=
  data ++ replicate (Z.to_nat (0x200 - len data)) x00.

(** The header as a function of the buffer: every value at its byte offset. *)
Definition header_at (data : list byte) : Header :=
  mkHeader
    (rstrip0 (slice data 0x00 0x0C)) (slice data 0x0C 0x10) (slice data 0x10 0x12)
    (field data 0x12 1) (field data 0x13 1) (field data 0x14 1)
    (field data 0x15 1) (field data 0x16 1) (field data 0x17 1) (field data 0x18 1)
    (field data 0x19 1) (field data 0x1A 1) (field data 0x1B 1) (field data 0x1C 1)
    (field data 0x1D 1) (field data 0x1E 1) (field data 0x1F 1)
    (field data 0x20 4) (field data 0x24 4) (field data 0x28 4) (field data 0x2C 4)
    (field data 0x30 4) (field data 0x34 4) (field data 0x38 4) (field data 0x3C 4)
    (field data 0x40 4) (field data 0x44 4) (field data 0x48 4) (field data 0x4C 4)
    (field data 0x50 4) (field data 0x54 4) (field data 0x58 4) (field data 0x5C 4)
    (field data 0x60 4) (field data 0x64 4) (field data 0x68 4)
    (field data 0x6C 2) (field data 0x6E 2)
    (field data 0x70 4) (field data 0x74 4) (slice data 0x78 0x80)
    (field data 0x80 4) (field data 0x84 4)
    (slice data 0x88 0xC0) (slice data 0xC0 0x15C)
    (field data 0x15C 2) (field data 0x15E 2)
    (field data 0x160 4) (field data 0x164 4) (field data 0x168 4)
    (slice data 0x16C 0x200).

(** Bytes that are all zero. *)
Definition all_zero (bs : list byte) : Prop := Forall (fun b => b = x00) bs.

(** What a header read returns: an integer or raw bytes. *)
Inductive field_value : Type :=
| IntField (v : Z)
| RawField (bs : list byte).

Definition reads_zero (v : field_value) : Prop :=
  match v with
  | IntField v => v = 0
  | RawField bs => all_zero bs
  end.

(** The header layout: for each read of the header pass, in order, the byte
    offset, the width in bytes, and the value read. *)
Definition header_fields : list (Z * Z * (Header -> field_value)) :=
  [
    (0x00, 12, fun h => RawField (h_name h));
    (0x0C, 4, fun h => RawField (h_idCode h));
    (0x10, 2, fun h => RawField (h_developerCode h));
    (0x12, 1, fun h => IntField (h_unitCode h));
    (0x13, 1, fun h => IntField (h_encryptionSeedSelect h));
    (0x14, 1, fun h => IntField (h_deviceCapacity h));
    (0x15, 1, fun h => IntField (h_pad015 h));
    (0x16, 1, fun h => IntField (h_pad016 h));
    (0x17, 1, fun h => IntField (h_pad017 h));
    (0x18, 1, fun h => IntField (h_pad018 h));
    (0x19, 1, fun h => IntField (h_pad019 h));
    (0x1A, 1, fun h => IntField (h_pad01A h));
    (0x1B, 1, fun h => IntField (h_pad01B h));
    (0x1C, 1, fun h => IntField (h_pad01C h));
    (0x1D, 1, fun h => IntField (h_region h));
    (0x1E, 1, fun h => IntField (h_version h));
    (0x1F, 1, fun h => IntField (h_autostart h));
    (0x20, 4, fun h => IntField (h_arm9Offset h));
    (0x24, 4, fun h => IntField (h_arm9EntryAddress h));
    (0x28, 4, fun h => IntField (h_arm9RamAddress h));
    (0x2C, 4, fun h => IntField (h_arm9Len h));
    (0x30, 4, fun h => IntField (h_arm7Offset h));
    (0x34, 4, fun h => IntField (h_arm7EntryAddress h));
    (0x38, 4, fun h => IntField (h_arm7RamAddress h));
    (0x3C, 4, fun h => IntField (h_arm7Len h));
    (0x40, 4, fun h => IntField (fntOffset h));
    (0x44, 4, fun h => IntField (fntLen h));
    (0x48, 4, fun h => IntField (fatOffset h));
    (0x4C, 4, fun h => IntField (fatLen h));
    (0x50, 4, fun h => IntField (arm9OvTOffset h));
    (0x54, 4, fun h => IntField (arm9OvTLen h));
    (0x58, 4, fun h => IntField (arm7OvTOffset h));
    (0x5C, 4, fun h => IntField (arm7OvTLen h));
    (0x60, 4, fun h => IntField (h_normalCardControlRegisterSettings h));
    (0x64, 4, fun h => IntField (h_secureCardControlRegisterSettings h));
    (0x68, 4, fun h => IntField (iconBannerOffset h));
    (0x6C, 2, fun h => IntField (h_secureAreaChecksum h));
    (0x6E, 2, fun h => IntField (h_secureTransferDelay h));
    (0x70, 4, fun h => IntField (h_arm9CodeSettingsPointerAddress h));
    (0x74, 4, fun h => IntField (h_arm7CodeSettingsPointerAddress h));
    (0x78, 8, fun h => RawField (h_secureAreaDisable h));
    (0x80, 4, fun h => IntField (h_romSizeOrRsaSigOffset h));
    (0x84, 4, fun h => IntField (headerSize h));
    (0x88, 56, fun h => RawField (h_pad088 h));
    (0xC0, 156, fun h => RawField (h_nintendoLogo h));
    (0x15C, 2, fun h => IntField (nintendoLogoChecksum h));
    (0x15E, 2, fun h => IntField (headerChecksum h));
    (0x160, 4, fun h => IntField (debugRomOffset h));
    (0x164, 4, fun h => IntField (debugRomSize h));
    (0x168, 4, fun h => IntField (h_debugRomAddress h));
    (0x16C, 148, fun h => RawField (h_pad16C h))
  ].

(** The records that the scan after the ARM9 code takes from [data] at
    [off]: one slice [data[off:off+12]] for each position that holds the
    marker, up to the first position that does not. *)
Inductive PostRecords (data : list byte) : Z -> list byte -> Prop :=
| PostRecords_stop off :
    slice data off (off + 4) <> POST_DATA_MAGIC -> PostRecords data off []
| PostRecords_next off rest :
    slice data off (off + 4) = POST_DATA_MAGIC ->
    PostRecords data (off + 12) rest ->
    PostRecords data off (slice data off (off + 12) ++ rest).

(** The offset that lines 549 to 553 resolve; 0 stands for none. *)
Definition realSigOffset_of (data : list byte) (romSizeOrRsaSigOffset : Z) : Z :=
  let pointer := if 0x1004 <=? len data then field data 0x1000 4 else 0 in
  if (pointer =? 0) && (romSizeOrRsaSigOffset <? len data)
  then romSizeOrRsaSigOffset else pointer.

(** The two values of record [i] of the file table, and the number of records. *)
Definition fat_start (fat : list byte) (i : Z) : Z := field fat (8 * i) 4.
Definition fat_end (fat : list byte) (i : Z) : Z := field fat (8 * i + 4) 4.
Definition fat_count (fat : list byte) : Z := len fat / 8.

(** The dict [offset2Id] after the first [n] records. *)
Definition offset2Id_of (fat : list byte) (ids : list Z) : gmap Z Z :=
  foldl (fun m i => <[fat_start fat i := i]> m) ∅ ids.

Definition files_of (data fat : list byte) : list (list byte) :=
  (fun i => slice data (fat_start fat i) (fat_end fat i)) <$> range (fat_count fat).

Definition sortedFileIds_of (fat : list byte) : list Z :=
  let offset2Id := offset2Id_of fat (range (fat_count fat)) in
  (fun off => default 0 (offset2Id !! off)) <$> sorted_keys offset2Id.

(** What the scan after the ARM9 code returns. *)
Definition post_of (data : list byte) (off : Z) : list byte :=
  match scanPostData data off with
  | Ok r => r
  | _ => []
  end.

(** The filename-table bytes and file-table bytes of a padded buffer. *)
Definition fnt_of (d : list byte) : list byte :=
  slice d (field d 0x40 4) (field d 0x40 4 + field d 0x44 4).
Definition fat_of (d : list byte) : list byte :=
  slice d (field d 0x48 4) (field d 0x48 4 + field d 0x4C 4).

(** The filename tree that the decoder attaches (lines 590 to 593). *)
Definition loadFilenames (limit : nat) (d : list byte) : result Fnt.Folder :=
  if negb (len (fnt_of d) =? 0) then Fnt.load limit (fnt_of d) else Ok Fnt.empty.

(** The object that a decode of the padded buffer [d] builds around the
    filename tree [filenames]. *)
Definition decoded (d : list byte) (filenames : Fnt.Folder) : NintendoDSRom :=
  let h := header_at d in
  mkRom 0x200
    (h_name h) (h_idCode h) (h_developerCode h) (h_unitCode h)
    (h_encryptionSeedSelect h) (h_deviceCapacity h) (h_pad015 h) (h_pad016 h)
    (h_pad017 h) (h_pad018 h) (h_pad019 h) (h_pad01A h) (h_pad01B h)
    (h_pad01C h) (h_region h) (h_version h) (h_autostart h) (h_arm9Offset h)
    (h_arm9EntryAddress h) (h_arm9RamAddress h) (h_arm9Len h)
    (h_arm7Offset h) (h_arm7EntryAddress h) (h_arm7RamAddress h)
    (h_arm7Len h) (h_normalCardControlRegisterSettings h)
    (h_secureCardControlRegisterSettings h) (h_secureAreaChecksum h)
    (h_secureTransferDelay h) (h_arm9CodeSettingsPointerAddress h)
    (h_arm7CodeSettingsPointerAddress h) (h_secureAreaDisable h)
    (h_romSizeOrRsaSigOffset h) (h_pad088 h) (h_nintendoLogo h)
    (h_debugRomAddress h) (h_pad16C h)
    (slice d 0x200 (Z.min (field d 0x20 4) (len d)))
    (let off := realSigOffset_of d (field d 0x80 4) in
     if off =? 0 then [] else slice d off (Z.min (len d) (off + 0x88)))
    (slice d (field d 0x20 4) (field d 0x20 4 + field d 0x2C 4))
    (slice d (field d 0x30 4) (field d 0x30 4 + field d 0x3C 4))
    (slice d (field d 0x50 4) (field d 0x50 4 + field d 0x54 4))
    (slice d (field d 0x58 4) (field d 0x58 4 + field d 0x5C 4))
    (if negb (field d 0x68 4 =? 0)
     then slice d (field d 0x68 4) (field d 0x68 4 + ICON_BANNER_LEN) else [])
    (if negb (field d 0x160 4 =? 0)
     then slice d (field d 0x160 4) (field d 0x160 4 + field d 0x164 4) else [])
    (post_of d (field d 0x20 4 + field d 0x2C 4))
    filenames
    (files_of d (fat_of d))
    (sortedFileIds_of (fat_of d)).

(** Every attribute but [files] is the same in the two objects. *)
Definition same_but_files (a b : NintendoDSRom) : Prop :=
  headerOffset a = headerOffset b /\
  name a = name b /\
  idCode a = idCode b /\
  developerCode a = developerCode b /\
  unitCode a = unitCode b /\
  encryptionSeedSelect a = encryptionSeedSelect b /\
  deviceCapacity a = deviceCapacity b /\
  pad015 a = pad015 b /\
  pad016 a = pad016 b /\
  pad017 a = pad017 b /\
  pad018 a = pad018 b /\
  pad019 a = pad019 b /\
  pad01A a = pad01A b /\
  pad01B a = pad01B b /\
  pad01C a = pad01C b /\
  region a = region b /\
  version a = version b /\
  autostart a = autostart b /\
  arm9Offset a = arm9Offset b /\
  arm9EntryAddress a = arm9EntryAddress b /\
  arm9RamAddress a = arm9RamAddress b /\
  arm9Len a = arm9Len b /\
  arm7Offset a = arm7Offset b /\
  arm7EntryAddress a = arm7EntryAddress b /\
  arm7RamAddress a = arm7RamAddress b /\
  arm7Len a = arm7Len b /\
  normalCardControlRegisterSettings a = normalCardControlRegisterSettings b /\
  secureCardControlRegisterSettings a = secureCardControlRegisterSettings b /\
  secureAreaChecksum a = secureAreaChecksum b /\
  secureTransferDelay a = secureTransferDelay b /\
  arm9CodeSettingsPointerAddress a = arm9CodeSettingsPointerAddress b /\
  arm7CodeSettingsPointerAddress a = arm7CodeSettingsPointerAddress b /\
  secureAreaDisable a = secureAreaDisable b /\
  romSizeOrRsaSigOffset a = romSizeOrRsaSigOffset b /\
  pad088 a = pad088 b /\
  nintendoLogo a = nintendoLogo b /\
  debugRomAddress a = debugRomAddress b /\
  pad16C a = pad16C b /\
  pad200 a = pad200 b /\
  rsaSignature a = rsaSignature b /\
  arm9 a = arm9 b /\
  arm7 a = arm7 b /\
  arm9OverlayTable a = arm9OverlayTable b /\
  arm7OverlayTable a = arm7OverlayTable b /\
  iconBanner a = iconBanner b /\
  debugRom a = debugRom b /\
  arm9PostData a = arm9PostData b /\
  filenames a = filenames b /\
  sortedFileIds a = sortedFileIds b.

End RomSpec.

(** ** Sample trees and buffers *)

Module Samples.
Import Rom.

(** The tree of the path-resolution example: folder [a] holds folder [b],
    which holds the file [c.txt]. *)
Definition tree_abc : Fnt.Folder :=
  Fnt.mkFolder
    [("a"%string,
      Fnt.mkFolder [("b"%string, Fnt.mkFolder [] ["c.txt"%string] 2)] ["x"%string] 1)]
    ["r"%string] 0.

(** [n] times the character [c]. *)
Fixpoint repeat_char (c : ascii) (n : nat) : string :=
  match n with
  | O => EmptyString
  | S n' => String c (repeat_char c n')
  end.

(** A folder with one file, whose name has [n] characters. *)
Definition folder_with_name (n : nat) : Fnt.Folder :=
  Fnt.mkFolder [] [repeat_char "a" n] 0.

(** A folder with the one file [a]. *)
Definition folder_a : Fnt.Folder := Fnt.mkFolder [] ["a"%string] 0.

Definition zeros (n : nat) : list byte := replicate n x00.

(** [buf] with the bytes [bs] written at [off]. *)
Definition poke (buf : list byte) (off : nat) (bs : list byte) : list byte :=
  take off buf ++ bs ++ drop (off + length bs) buf.

Definition u32 (v : Z) : list byte := le_bytes 4 v.

(** 0x100 bytes, all zero but a filename-table length of 1 at 0x44. *)
Definition buffer_short_fnt : list byte := poke (zeros 0x100) 0x44 (u32 1).

(** A header of zero bytes. *)
Definition buffer_zero : list byte := zeros 0x200.



(** ARM9 code of 4 bytes at 0x200. *)
Definition header_arm9 : list byte :=
  poke (poke (zeros 0x200) 0x20 (u32 0x200)) 0x2C (u32 4).

(** Two records of 12 bytes that start with the marker. *)
Definition post_record_1 : list byte :=
  POST_DATA_MAGIC ++ [x01; x01; x01; x01; x01; x01; x01; x01].
Definition post_record_2 : list byte :=
  POST_DATA_MAGIC ++ [x02; x02; x02; x02; x02; x02; x02; x02].

(** Two records after the ARM9 code, then five other bytes. *)
Definition buffer_two_records : list byte :=
  header_arm9 ++ [xaa; xbb; xcc; xdd] ++ post_record_1 ++ post_record_2
    ++ [x05; x06; x07; x08; x09].

(** After the ARM9 code the marker and two more bytes, then the end. *)
Definition buffer_cut_record : list byte :=
  header_arm9 ++ [xaa; xbb; xcc; xdd] ++ POST_DATA_MAGIC ++ [x01; x02].

(** The ARM9 code ends where the buffer ends. *)
Definition buffer_arm9_at_end : list byte := header_arm9 ++ [xaa; xbb; xcc; xdd].




(** A ROM with the tree of the path example and three files. *)
Definition rom_abc : NintendoDSRom :=
  with_files (RomSpec.decoded buffer_zero tree_abc) [[x0a]; [x0b]; [x0c]].

End Samples.

(** * The display methods of [Folder] and the loader entry point *)

(** ** More of the runtime: further exception classes, string pieces *)

Module PyExc.

(** What the methods below can raise: an exception of [exn], or one of
    three further classes. *)
Inductive raised : Set :=
| Builtin (e : exn)
| AttributeError
| TypeError
| NameError.

(** The outcome of running one of these methods. *)
Inductive outcome (A : Type) : Type :=
| Return (a : A)
| Throw (e : raised)
| Unfinished.
Arguments Return {A} a.
Arguments Throw {A} e.
Arguments Unfinished {A}.

(** The outcome of a call of one of the functions modelled with [result]. *)
Definition lift {A} (r : result A) : outcome A :=
  match r with
  | Ok a => Return a
  | Raise e => Throw (Builtin e)
  | OutOfFuel => Unfinished
  end.

Definition andThen {A B} (m : outcome A) (k : A -> outcome B) : outcome B :=
  match m with
  | Return a => k a
  | Throw e => Throw e
  | Unfinished => Unfinished
  end.

Notation "x <-- e ;; k" := (andThen e (fun x => k))
  (at level 100, e at next level, k at level 200, right associativity).

(** A [for] loop over [l] that updates the loop state [s]. *)
Fixpoint each {A S} (l : list A) (body : A -> S -> outcome S) (s : S) : outcome S :=
  match l with
  | [] => Return s
  | x :: l' => s' <-- body x s ;; each l' body s'
  end.

(** [enumerate(l)] *)
Definition enumerate {A} (l : list A) : list (Z * A) := zip (seqZ 0 (len l)) l.

Fixpoint replicate_char (c : ascii) (n : nat) : string :=
  match n with
  | O => EmptyString
  | S n' => String c (replicate_char c n')
  end.

(** [' ' * n]: the empty string when [n] is not positive. *)
Definition spaces (n : Z) : string := replicate_char " " (Z.to_nat n).

(** [max(l)]: ValueError on the empty sequence. *)
Definition max_of (l : list Z) : result Z :=
  match l with
  | [] => Raise ValueError
  | x :: l' => Ok (foldl Z.max x l')
  end.

(** [sep.join(l)] *)
Fixpoint join (sep : string) (l : list string) : string :=
  match l with
  | [] => EmptyString
  | x :: l' =>
      match l' with
      | [] => x
      | _ :: _ => x +:+ sep +:+ join sep l'
      end
  end.

End PyExc.

(** ** [shortBytesRepr] *)

Module Common.
Import PyExc.

(** [x in range(0x30, 0x3A)] *)
Definition in_digits (x : Z) : bool := (0x30 <=? x) && (x <? 0x3A).

Section shortBytesRepr.

(** [repr(b.to_bytes(1, 'big'))[2:-1]] for the integer [b], as the interpreter
    evaluates it: to a text, or to an exception where an [int] has no
    [to_bytes]. *)
Variable repr_byte : Z -> outcome string.

(** [data] is a [bytearray]: iterating over it and subscripting it give
    integers.  ['\\' + b] adds an [int] to a [str], which is a TypeError. *)
Definition shortBytesRepr (data : list byte) (maxLen : option Z) : outcome string :=
  let maxLen := match maxLen with None => 0x20 | Some m => m end in
  let dataTrunc := slice_to data maxLen in
  let r := ["b'"] in
  r <-- each (enumerate data) (fun '(i, b) r =>
          let b := byte_val b in
          shorten <-- (if b <? 8
                       then if i =? len data - 1 then Return true
                            else next <-- lift (getitem data (i + 1)) ;;
                                 Return (negb (in_digits (byte_val next)))
                       else Return false) ;;
          if shorten : bool
          then Throw TypeError
          else s <-- repr_byte b ;; Return (r ++ [s])) r ;;
  let r := r ++ ["'"] in
  let final := join EmptyString r in
  if len data >? maxLen then Return (final +:+ "...") else Return final.

(** Whether the loop takes its first branch at the byte [b], which [rest]
    follows. *)
Definition shortens (b : byte) (rest : list byte) : bool :=
  (byte_val b <? 8) &&
  match rest with
  | [] => true
  | c :: _ => negb (in_digits (byte_val c))
  end.

(** The loop, as a recursion over what is left of the data. *)
Fixpoint render (rest : list byte) (r : list string) : outcome (list string) :=
  match rest with
  | [] => Return r
  | b :: rest' =>
      if shortens b rest' then Throw TypeError
      else s <-- repr_byte (byte_val b) ;; render rest' (r ++ [s])
  end.

End shortBytesRepr.

(** A byte below 8 that ends [data] or is followed by something else than an
    ASCII digit. *)
Definition octal_candidate (data : list byte) : Prop :=
  exists pre b rest, data = pre ++ b :: rest /\ byte_val b < 8 /\
    match rest with
    | [] => True
    | c :: _ => in_digits (byte_val c) = false
    end.

End Common.

(** ** [Folder]: subscripting, membership, printing *)

(** The lookups and the printout go down the tree one call per level.
    As in [idOf] and [load], [limit] is the number of nested calls that the
    interpreter still allows where the recursion starts. *)

Module FolderMethods.
Import Fnt PyExc.

(** The keys that [__getitem__] tells apart: an [int], a [str], anything
    else. *)
Inductive key : Type :=
| IntKey (k : Z)
| StrKey (k : string)
| OtherKey.

(** What [__getitem__] returns: a file name, a file ID or a Folder. *)
Inductive item : Type :=
| FileName (fn : string)
| FileID (fileID : Z)
| SubFolder (sbf : Folder).

(** [self.filenameOf(key)], line 66: the class defines no attribute of that
    name, so looking it up on the object raises AttributeError. *)
Definition filenameOf (self : Folder) (key : Z) : outcome (option string) :=
  Throw AttributeError.

(** Folder.__getitem__ *)
Definition __getitem__ (limit : nat) (self : Folder) (key : key) : outcome item :=
  match key with
  | IntKey key =>
      fn <-- filenameOf self key ;;
      match fn with
      | Some fn => Return (FileName fn)
      | None => Throw (Builtin KeyError)
      end
  | StrKey key =>
      fileID <-- lift (idOf limit self key) ;;
      match fileID with
      | None =>
          sbf <-- lift (subfolder limit self key) ;;
          match sbf with
          | Some sbf => Return (SubFolder sbf)
          | None => Throw (Builtin KeyError)
          end
      | Some fileID => Return (FileID fileID)
      end
  | OtherKey => Throw TypeError
  end.

(** Folder.__contains__: every exception of [__getitem__] is caught, the
    RecursionError of a lookup included. *)
Definition __contains__ (limit : nat) (self : Folder) (key : key) : outcome bool :=
  match __getitem__ limit self key with
  | Return _ => Return true
  | Throw _ => Return false
  | Unfinished => Unfinished
  end.

(** [_common.shortBytesRepr(fileList[fid], 0x10)], line 177: the module
    binds no name [_common], so evaluating the callee raises NameError,
    before the arguments are evaluated. *)
Definition _common_shortBytesRepr : outcome string := Throw NameError.

(** Folder._strListUncombined: the (line, preview) pairs.  The two line
    prefixes are plain string literals in the source, braces included.  The
    method calls itself once for each subfolder, one level down. *)
Fixpoint _strListUncombined (limit : nat) (self : Folder) (indent : Z)
    (fileList : option (list (list byte))) : outcome (list (string * option string)) :=
  match limit with
  | O => Throw (Builtin RecursionError)
  | S limit' =>
      let L : list (string * option string) := [] in
      let indentStr := spaces (indent + 1) in
      L <-- each (enumerate (files self))
              (fun '(i, fileName) L =>
                 let fid := firstID self + i in
                 preview <--
                   match fileList with
                   | None => Return None
                   | Some fileList =>
                       if fid >=? len fileList then Return None
                       else
                         preview <-- _common_shortBytesRepr ;;
                         Return (Some preview)
                   end ;;
                 Return (L ++ [("{fid:04d}" +:+ indentStr +:+ fileName, preview)]))
              L ;;
      (fix each_folder (fs : list (string * Folder)) (L : list (string * option string))
         : outcome (list (string * option string)) :=
         match fs with
         | [] => Return L
         | (folderName, folder) :: fs' =>
             let L :=
               L ++ [("{folder.firstID:04d}" +:+ indentStr +:+ folderName +:+ "/", None)] in
             sub <-- _strListUncombined limit' folder (indent + 4) fileList ;;
             each_folder fs' (L ++ sub)
         end) (folders self) L
  end.

(** Folder._strList *)
Definition _strList (limit : nat) (self : Folder) (indent : Z)
    (fileList : option (list (list byte))) : outcome (list string) :=
  let strings : list string := [] in
  uncombined <-- _strListUncombined limit self indent fileList ;;
  previewColumn <--
    (if negb (len uncombined =? 0)
     then
       m <-- lift (max_of ((fun entry : string * option string => strlen entry.1)
                             <$> uncombined)) ;;
       Return (m + 4)
     else Return 4) ;;
  each uncombined
    (fun '(line, preview) strings =>
       let line :=
         match preview with
         | Some preview => (line +:+ spaces (previewColumn - strlen line)) +:+ preview
         | None => line
         end in
       Return (strings ++ [line]))
    strings.

(** Folder.__str__ *)
Definition __str__ (limit : nat) (self : Folder) : outcome string :=
  lines <-- _strList limit self 0 None ;;
  Return (join (String "010" EmptyString) lines).

End FolderMethods.

(** ** The loader entry point [accept_file] *)

Module Loader.
Import Rom.

(** The input object that the host passes to [accept_file]: what its
    methods [size()] and [read(n)] return. *)
Record loader_input : Type := mkInput { li_size : Z; li_read : Z -> list byte }.

Section accept_file.

(** [str(ndsRom.name)], the text that the interpreter gives for the bytes
    of the name. *)
Variable str : list byte -> string.

(** accept_file; [li.read] returns a bytes object, so the constructor
    [NintendoDSRom(data)] runs [_initFromData] (line 384).  The result is
    the integer 0 or the format name. *)
Definition accept_file (limit : nat) (li : loader_input) (n : Z) : result (Z + string) :=
  ndsRom <- _initFromData limit (li_read li (li_size li)) ;;
  if negb (bool_decide (name ndsRom = []))
  then Ok (inr ("Nintendo DS (" +:+ str (name ndsRom) +:+ ")"))
  else Ok (inl 0).

End accept_file.

End Loader.

(** ** Vocabulary for trees and tables *)

Module TreeSpec.
Import Fnt.

(** The number of files and folders below a folder, at any depth. *)
Fixpoint entries (d : Folder) : nat :=
  (length (files d) +
   (fix below (fs : list (string * Folder)) : nat :=
      match fs with
      | [] => 0
      | (_, f) :: fs' => S (entries f) + below fs'
      end) (folders d))%nat.

(** The IDs of the files below a folder, at any depth: a file at position
    [i] of a folder has the ID [firstID + i]. *)
Fixpoint file_ids (d : Folder) : list Z :=
  ((fun i => firstID d + i) <$> seqZ 0 (len (files d))) ++
  (fix below (fs : list (string * Folder)) : list Z :=
     match fs with
     | [] => []
     | (_, f) :: fs' => file_ids f ++ below fs'
     end) (folders d).

(** What a table can hold: file names of 1 to 127 characters, folder names
    of at most 127, first IDs of 16 bits. *)
Inductive Storable : Folder -> Prop :=
| Storable_folder d :
    0 <= firstID d < 65536 ->
    Forall (fun n => 1 <= strlen n <= 127) (files d) ->
    Forall (fun p => strlen p.1 <= 127 /\ Storable p.2) (folders d) ->
    Storable d.

(** The nesting depth of a tree: 1 for a folder without subfolders. *)
Fixpoint depth (d : Folder) : nat :=
  S ((fix below (fs : list (string * Folder)) : nat :=
        match fs with
        | [] => 0%nat
        | (_, f) :: fs' => Nat.max (depth f) (below fs')
        end) (folders d)).

(** The table format.  [Holds fnt folderId d]: the entry of the folder, 8
    bytes at 8 times the twelve low bits of its ID, gives the offset of its
    entries and its first file ID, and the entries there are those of [d].
    [Entries fnt off fl fs]: from [off] on stand, in some order, the file
    entries of the names [fl] and the folder entries of [fs], and then a zero
    byte.  A file entry is the length of the name, 1 to 127, and the name; a
    folder entry is the length of the name plus 0x80, the name, and the ID
    of the subfolder in two bytes, low byte first. *)
Inductive Holds (fnt : list byte) : Z -> Folder -> Prop :=
| Holds_folder folderId d :
    8 * Z.land folderId 0xFFF + 6 <= len fnt ->
    RomSpec.field fnt (8 * Z.land folderId 0xFFF + 4) 2 = firstID d ->
    Entries fnt (RomSpec.field fnt (8 * Z.land folderId 0xFFF) 4) (files d) (folders d) ->
    Holds fnt folderId d
with Entries (fnt : list byte) : Z -> list string -> list (string * Folder) -> Prop :=
| Entries_end off :
    off + 1 <= len fnt -> RomSpec.field fnt off 1 = 0 -> Entries fnt off [] []
| Entries_file off name fl fs :
    1 <= strlen name <= 127 ->
    RomSpec.field fnt off 1 = strlen name ->
    slice fnt (off + 1) (off + 1 + strlen name) = encode_latin1 name ->
    Entries fnt (off + 1 + strlen name) fl fs ->
    Entries fnt off (name :: fl) fs
| Entries_folder off name subFolderID sub fl fs :
    strlen name <= 127 ->
    RomSpec.field fnt off 1 = 0x80 + strlen name ->
    slice fnt (off + 1) (off + 1 + strlen name) = encode_latin1 name ->
    off + 1 + strlen name + 2 <= len fnt ->
    RomSpec.field fnt (off + 1 + strlen name) 2 = subFolderID ->
    Holds fnt subFolderID sub ->
    Entries fnt (off + 1 + strlen name + 2) fl fs ->
    Entries fnt off fl ((name, sub) :: fs).

Scheme Holds_Entries_ind := Minimality for Holds Sort Prop
  with Entries_Holds_ind := Minimality for Entries Sort Prop.

(** The entries of a folder that holds the files [names] and no folder:
    each name after its length byte. *)
Definition flat_entries (names : list string) : list byte :=
  concat ((fun n => byte_of_Z (strlen n) :: encode_latin1 n) <$> names).

(** A table of one folder: the root entry (the offset 8 of the entries,
    the first file ID, two bytes in the place of the parent ID), the entries,
    the zero byte that ends them. *)
Definition flat_table (firstID : Z) (parent : list byte) (names : list string) : list byte :=
  le_bytes 4 8 ++ le_bytes 2 firstID ++ parent ++ flat_entries names ++ [x00].

(** The line that the printout builds for a file: the literal, the
    indentation, the name. *)
Definition file_line (indentStr : string) (preview : option string)
  : Z * string -> string * option string :=
  fun '(i, fileName) => ("{fid:04d}" +:+ indentStr +:+ fileName, preview).

(** A line of the printout starts with one of the two literals. *)
Definition placeholder_line (line : string) : Prop :=
  exists rest, line = "{fid:04d}" +:+ rest \/ line = "{folder.firstID:04d}" +:+ rest.

(** The first and the last character of a string. *)
Definition first_char (s : string) : option ascii :=
  match s with
  | EmptyString => None
  | String c _ => Some c
  end.

Fixpoint last_char (s : string) : option ascii :=
  match s with
  | EmptyString => None
  | String c s' =>
      match s' with
      | EmptyString => Some c
      | String _ _ => last_char s'
      end
  end.

(** The string has no separator. *)
Definition plain (s : string) : Prop := ~ In "/"%char (list_ascii_of_string s).

(** Induction on a folder tree. *)
Section Folder_induction.
Variable P : Folder -> Prop.
Hypothesis step : forall fs fl fid, Forall (fun p => P p.2) fs -> P (mkFolder fs fl fid).

Fixpoint Folder_tree_ind (d : Folder) : P d :=
  match d with
  | mkFolder fs fl fid =>
      step fs fl fid
        ((fix below (fs : list (string * Folder)) : Forall (fun p => P p.2) fs :=
            match fs with
            | [] => List.Forall_nil _
            | (n, f) :: fs' =>
                @List.Forall_cons _ _ (n, f) fs' (Folder_tree_ind f) (below fs')
            end) fs)
  end.

End Folder_induction.

End TreeSpec.

(** ** More sample trees and tables *)

Module MoreSamples.
Import Rom Samples.

(** A folder and a file of the same name [a] in one folder. *)
Definition tree_same_name : Fnt.Folder :=
  Fnt.mkFolder [("a"%string, Fnt.mkFolder [] ["x"%string] 1)] ["a"%string] 0.

(** A table whose root folder holds one folder, with the empty name and
    the ID 0xF000 of the root itself. *)
Definition table_self_reference : list byte :=
  le_bytes 4 8 ++ le_bytes 2 0 ++ [x00; x00] ++ [x80; x00; xf0].

(** The table of the tree [tree_abc]: three folder entries, with the
    parent IDs 3, 0xF000 and 0xF001, and the entries of the three folders. *)
Definition table_abc : list byte :=
  le_bytes 4 24 ++ le_bytes 2 0 ++ le_bytes 2 3
  ++ le_bytes 4 31 ++ le_bytes 2 1 ++ le_bytes 2 0xF000
  ++ le_bytes 4 38 ++ le_bytes 2 2 ++ le_bytes 2 0xF001
  ++ ([x01] ++ encode_latin1 "r" ++ [x81] ++ encode_latin1 "a" ++ le_bytes 2 0xF001 ++ [x00])
  ++ ([x01] ++ encode_latin1 "x" ++ [x81] ++ encode_latin1 "b" ++ le_bytes 2 0xF002 ++ [x00])
  ++ ([x05] ++ encode_latin1 "c.txt" ++ [x00]).

(** A header with the name [AB] and nothing else. *)
Definition buffer_named : list byte := poke (zeros 0x200) 0 [x41; x42].

(** An input object over a buffer. *)
Definition input_of (contents : list byte) : Loader.loader_input :=
  Loader.mkInput (len contents) (fun n => slice contents 0 n).

(** What [repr(b.to_bytes(1, 'big'))[2:-1]] is for a letter or a digit: the
    character itself. *)
Definition repr_alnum (b : Z) : PyExc.outcome string :=
  PyExc.Return (String (ascii_of_N (Z.to_N b)) EmptyString).

End MoreSamples.

(** * Facts about the embedding *)

(** ** Facts about the runtime pieces *)

(** Case analysis on the integer comparisons of a goal. *)
Ltac zcases :=
  repeat match goal with
  | |- context [?a <? ?b] => destruct (Z.ltb_spec a b)
  | |- context [?a <=? ?b] => destruct (Z.leb_spec a b)
  | |- context [?a =? ?b] => destruct (Z.eqb_spec a b)
  | |- context [?a >? ?b] => rewrite (Z.gtb_ltb a b)
  | |- context [?a >=? ?b] => rewrite (Z.geb_leb a b)
  end; cbn [andb orb negb]; try lia.

Section runtime_facts.
Context {A : Type}.
Implicit Types (l : list A) (x : A).

Lemma len_nonneg l : 0 <= len l.
Proof. unfold len. lia. Qed.

Lemma len_app l1 l2 : len (l1 ++ l2) = len l1 + len l2.
Proof. unfold len. rewrite length_app. lia. Qed.

Lemma len_cons x l : len (x :: l) = 1 + len l.
Proof. unfold len. cbn [length]. lia. Qed.

Lemma getitem_last l x : getitem (l ++ [x]) (-1) = Ok x.
Proof.
  unfold getitem, subscript. rewrite len_app, len_cons.
  pose proof (len_nonneg l) as Hl. change (len (@nil A)) with 0.
  zcases.
  replace (Z.to_nat (-1 + (len l + (1 + 0)))) with (length l) by (unfold len; lia).
  by rewrite list_lookup_middle.
Qed.

Lemma getitem_nil (i : Z) : getitem (@nil A) i = Raise IndexError.
Proof. unfold getitem, subscript. change (len (@nil A)) with 0. zcases; done. Qed.

Lemma getitem_head x l : getitem (x :: l) 0 = Ok x.
Proof.
  unfold getitem, subscript. rewrite len_cons. pose proof (len_nonneg l).
  zcases. done.
Qed.

Lemma slice_to_last l x : slice_to (l ++ [x]) (-1) = l.
Proof.
  unfold slice_to, clamp. rewrite len_app, len_cons. change (len (@nil A)) with 0.
  zcases.
  replace (Z.to_nat (Z.max 0 (-1 + (len l + (1 + 0))))) with (length l)
    by (unfold len; lia).
  by rewrite take_app_length.
Qed.

Lemma slice_from_tail x l : slice_from (x :: l) 1 = l.
Proof.
  unfold slice_from, clamp. rewrite len_cons. pose proof (len_nonneg l). zcases.
  replace (Z.to_nat (Z.min 1 (1 + len l))) with 1%nat by lia. done.
Qed.

End runtime_facts.

(** ** Slices *)

Section slice_facts.
Context {A : Type}.
Implicit Types (l : list A).

Lemma slice_nonneg l lo hi :
  0 <= lo -> 0 <= hi ->
  slice l lo hi = take (Z.to_nat (hi - lo)) (drop (Z.to_nat lo) l).
Proof.
  intros Hlo Hhi. unfold slice, clamp. zcases.
  destruct (Z.le_gt_cases (len l) lo) as [Hge|Hlt].
  - rewrite !drop_ge by (unfold len in *; lia). by rewrite !take_nil.
  - rewrite (Z.min_l lo) by lia.
    destruct (Z.le_gt_cases hi (len l)) as [Hh|Hh].
    + by rewrite Z.min_l by lia.
    + rewrite Z.min_r by lia.
      rewrite !take_ge; [done|rewrite length_drop; unfold len in *; lia..].
Qed.

Lemma len_slice l lo hi :
  0 <= lo -> 0 <= hi ->
  len (slice l lo hi) = Z.max 0 (Z.min hi (len l) - Z.min lo (len l)).
Proof.
  intros. rewrite slice_nonneg by done. unfold len.
  rewrite length_take, length_drop. lia.
Qed.

Lemma len_slice_le l lo hi : 0 <= lo -> 0 <= hi -> len (slice l lo hi) <= Z.max 0 (hi - lo).
Proof. intros. rewrite len_slice by done. lia. Qed.

Lemma slice_app_r_Forall (P : A -> Prop) l1 l2 lo hi :
  len l1 <= lo -> Forall P l2 -> Forall P (slice (l1 ++ l2) lo hi).
Proof.
  intros Hlo H2. unfold slice. apply Forall_take.
  pose proof (len_nonneg l1). pose proof (len_nonneg l2).
  unfold clamp. rewrite len_app. zcases.
  rewrite drop_app_ge by (unfold len in *; lia). by apply Forall_drop.
Qed.

Lemma slice_at_end l hi : slice l (len l) hi = [].
Proof.
  unfold slice. pose proof (len_nonneg l).
  replace (clamp (len l) (len l)) with (len l) by (unfold clamp; zcases).
  rewrite drop_ge by (unfold len; lia). by rewrite take_nil.
Qed.

Lemma slice_app_at l1 l2 (n : Z) :
  0 <= n -> slice (l1 ++ l2) (len l1) (len l1 + n) = take (Z.to_nat n) l2.
Proof.
  intros. pose proof (len_nonneg l1). rewrite slice_nonneg by lia.
  replace (Z.to_nat (len l1)) with (length l1) by (unfold len; lia).
  rewrite drop_app_length. f_equal. lia.
Qed.

End slice_facts.

Lemma bind_ok_inv {A B} (m : result A) (k : A -> result B) b :
  bind m k = Ok b -> exists a, m = Ok a /\ k a = Ok b.
Proof. destruct m as [a| |]; cbn [bind]; [eauto|done..]. Qed.

Lemma for_each_pure {A S} (l : list A) (body : A -> S -> result S) (f : S -> A -> S) s :
  (forall x s, x ∈ l -> body x s = Ok (f s x)) ->
  for_each l body s = Ok (foldl f s l).
Proof.
  revert s. induction l as [|x l IH]; intros s Hbody; [done|].
  cbn [for_each foldl]. rewrite Hbody by left. cbn [bind].
  apply IH. intros y s' Hy. apply Hbody. by right.
Qed.

(** ** Reads from a buffer *)

Lemma le_int_nonneg bs : 0 <= le_int bs.
Proof.
  induction bs as [|b bs IH]; cbn [le_int]; [lia|].
  unfold byte_val. lia.
Qed.

Section read_facts.
Implicit Types (data buf : list byte).

Lemma slice_in_range {A} (l : list A) lo hi :
  0 <= lo -> lo <= hi -> hi <= len l ->
  slice l lo hi = take (Z.to_nat (hi - lo)) (drop (Z.to_nat lo) l).
Proof.
  intros. unfold slice, clamp. zcases.
  by rewrite !Z.min_l by lia.
Qed.

Lemma unpack_bytes_ok n buf off :
  0 <= n -> 0 <= off -> off + n <= len buf ->
  unpack_bytes n buf off = Ok (slice buf off (off + n)).
Proof.
  intros. unfold unpack_bytes. zcases.
  rewrite slice_in_range by lia. do 3 f_equal. lia.
Qed.

Lemma unpack_H_ok buf off :
  0 <= off -> off + 2 <= len buf ->
  unpack_H buf off = Ok (RomSpec.field buf off 2).
Proof. intros. unfold unpack_H. by rewrite unpack_bytes_ok by lia. Qed.

Lemma unpack_I_ok buf off :
  0 <= off -> off + 4 <= len buf ->
  unpack_I buf off = Ok (RomSpec.field buf off 4).
Proof. intros. unfold unpack_I. by rewrite unpack_bytes_ok by lia. Qed.

Lemma getitem_ok {A} (l : list A) (i : Z) :
  0 <= i -> i < len l -> exists x, getitem l i = Ok x /\ slice l i (i + 1) = [x].
Proof.
  intros H0 Hl. unfold getitem, subscript. zcases.
  destruct (l !! Z.to_nat i) as [x|] eqn:Hx.
  - exists x. split; [done|]. rewrite slice_in_range by lia.
    replace (Z.to_nat (i + 1 - i)) with 1%nat by lia.
    rewrite (drop_S _ _ _ Hx). done.
  - apply lookup_ge_None in Hx. unfold len in Hl. lia.
Qed.

Lemma read8_ok data off :
  0 <= off -> off + 1 <= len data ->
  Rom.read8 data off = Ok (RomSpec.field data off 1, off + 1).
Proof.
  intros. unfold Rom.read8, RomSpec.field.
  destruct (getitem_ok data off) as (b & -> & ->); [lia..|].
  cbn [bind le_int]. do 2 f_equal. lia.
Qed.

Lemma read16_ok data off :
  0 <= off -> off + 2 <= len data ->
  Rom.read16 data off = Ok (RomSpec.field data off 2, off + 2).
Proof. intros. unfold Rom.read16. by rewrite unpack_H_ok by lia. Qed.

Lemma read32_ok data off :
  0 <= off -> off + 4 <= len data ->
  Rom.read32 data off = Ok (RomSpec.field data off 4, off + 4).
Proof. intros. unfold Rom.read32. by rewrite unpack_I_ok by lia. Qed.

Lemma cbind_ok {A B} (m : Rom.Cursor A) (k : A -> Rom.Cursor B) off a off' r :
  m off = Ok (a, off') -> k a off' = r -> Rom.cbind m k off = r.
Proof. intros Hm Hk. unfold Rom.cbind. by rewrite Hm. Qed.

End read_facts.

(** ** Path lookups in a [Folder], and [load] *)

Module FntFacts.
Import Fnt FntSpec.

Lemma strip_trailing_nil : strip_trailing [] = Raise IndexError.
Proof. unfold strip_trailing. cbn [length while]. by rewrite getitem_nil. Qed.

Lemma strip_trailing_snoc_empty l :
  strip_trailing (l ++ [EmptyString]) = strip_trailing l.
Proof.
  unfold strip_trailing. rewrite length_app, Nat.add_1_r. cbn [while].
  rewrite getitem_last. cbn [bind String.eqb]. by rewrite slice_to_last.
Qed.

Lemma strip_trailing_snoc l x :
  x <> EmptyString -> strip_trailing (l ++ [x]) = Ok (l ++ [x]).
Proof.
  intros Hx. unfold strip_trailing. rewrite length_app, Nat.add_1_r. cbn [while].
  rewrite getitem_last. cbn [bind].
  by rewrite (proj2 (String.eqb_neq x EmptyString) Hx).
Qed.

Lemma strip_leading_nil : strip_leading [] = Raise IndexError.
Proof. unfold strip_leading. cbn [length while]. by rewrite getitem_nil. Qed.

Lemma strip_leading_cons_empty l :
  strip_leading (EmptyString :: l) = strip_leading l.
Proof.
  unfold strip_leading. cbn [length while].
  rewrite getitem_head. cbn [bind String.eqb]. by rewrite slice_from_tail.
Qed.

Lemma strip_leading_cons l x :
  x <> EmptyString -> strip_leading (x :: l) = Ok (x :: l).
Proof.
  intros Hx. unfold strip_leading. cbn [length while].
  rewrite getitem_head. cbn [bind].
  by rewrite (proj2 (String.eqb_neq x EmptyString) Hx).
Qed.

Lemma strip_snoc_empty l : strip (l ++ [EmptyString]) = strip l.
Proof. unfold strip. by rewrite strip_trailing_snoc_empty. Qed.

Lemma strip_cons_empty l : strip (EmptyString :: l) = strip l.
Proof.
  unfold strip. induction l as [|x l IH] using rev_ind.
  - change [EmptyString] with ([] ++ [EmptyString]).
    by rewrite strip_trailing_snoc_empty.
  - destruct (decide (x = EmptyString)) as [->|Hx].
    + rewrite app_comm_cons, !strip_trailing_snoc_empty. exact IH.
    + rewrite app_comm_cons, !strip_trailing_snoc by done. cbn [bind].
      by rewrite <- app_comm_cons, strip_leading_cons_empty.
Qed.

(** What the two loops leave when all components are empty, and when one
    is not. *)
Lemma strip_all_empty l :
  Forall (fun w => w = EmptyString) l -> strip l = Raise IndexError.
Proof.
  induction l as [|x l IH]; intros Hall.
  - unfold strip. by rewrite strip_trailing_nil.
  - inversion Hall; subst. rewrite strip_cons_empty. auto.
Qed.

Lemma strip_some_nonempty l :
  Exists (fun w => w <> EmptyString) l ->
  exists x l', strip l = Ok (x :: l').
Proof.
  induction l as [|x l IH] using rev_ind; intros Hex.
  - inversion Hex.
  - destruct (decide (x = EmptyString)) as [->|Hx].
    + rewrite strip_snoc_empty. apply IH.
      apply Exists_app in Hex as [Hex|Hex]; [done|].
      inversion Hex as [? ? Hne|? ? Hnil]; [done|inversion Hnil].
    + unfold strip. rewrite strip_trailing_snoc by done. cbn [bind].
      clear IH Hex. induction l as [|y l IH].
      * cbn [app]. rewrite strip_leading_cons by done. eauto.
      * cbn [app]. destruct (decide (y = EmptyString)) as [->|Hy].
        -- rewrite strip_leading_cons_empty. exact IH.
        -- rewrite strip_leading_cons by done. eauto.
Qed.

Lemma append_String x (a b : string) : String x a +:+ b = String x (a +:+ b).
Proof. reflexivity. Qed.

Lemma append_empty_l (b : string) : EmptyString +:+ b = b.
Proof. reflexivity. Qed.

Lemma append_empty_r (a : string) : a +:+ EmptyString = a.
Proof. induction a as [|x a IH]; [done|]. by rewrite append_String, IH. Qed.

Lemma append_assoc (a b c : string) : (a +:+ b) +:+ c = a +:+ (b +:+ c).
Proof.
  induction a as [|x a IH]; [done|]. by rewrite !append_String, IH.
Qed.

Lemma split_nonnil sep s : Py.split sep s <> [].
Proof.
  destruct s as [|c s]; cbn; [done|].
  destruct (Ascii.eqb c sep); [done|]. by destruct (Py.split sep s).
Qed.

Lemma split_cons_sep s : Py.split "/" (String "/" s) = EmptyString :: Py.split "/" s.
Proof. reflexivity. Qed.

Lemma split_app_sep s :
  Py.split "/" (s +:+ String "/" EmptyString) = Py.split "/" s ++ [EmptyString].
Proof.
  induction s as [|c s IH]; [reflexivity|].
  rewrite append_String. cbn [Py.split]. rewrite IH.
  destruct (Ascii.eqb c "/"); [reflexivity|].
  pose proof (split_nonnil "/" s). by destruct (Py.split "/" s).
Qed.

Lemma pathList_of_strip path : pathList_of path = strip (Py.split "/" path).
Proof. reflexivity. Qed.

Lemma slashes_snoc m : slashes (S m) = slashes m +:+ String "/" EmptyString.
Proof.
  induction m as [|m IH]; [reflexivity|].
  transitivity (String "/" (slashes m +:+ String "/" EmptyString));
    [by rewrite <- IH | reflexivity].
Qed.

Lemma pathList_of_slashes n m path :
  pathList_of (slashes n +:+ path +:+ slashes m) = pathList_of path.
Proof.
  rewrite !pathList_of_strip. induction n as [|n IHn].
  - cbn [slashes]. rewrite append_empty_l. induction m as [|m IHm].
    + cbn [slashes]. by rewrite append_empty_r.
    + rewrite slashes_snoc, <- append_assoc, split_app_sep, strip_snoc_empty.
      exact IHm.
  - cbn [slashes]. by rewrite append_String, split_cons_sep, strip_cons_empty.
Qed.

Lemma split_blank path :
  ~ nonblank path -> Forall (fun w => w = EmptyString) (Py.split "/" path).
Proof.
  unfold nonblank. induction path as [|c s IH]; intros Hb; cbn [Py.split].
  - by constructor.
  - destruct (Ascii.eqb_spec c "/") as [->|Hc].
    + constructor; [done|]. apply IH. intros (c' & Hin & Hc').
      apply Hb. exists c'. cbn. auto.
    + exfalso. apply Hb. exists c. cbn. auto.
Qed.

Lemma split_nonblank path :
  nonblank path -> Exists (fun w => w <> EmptyString) (Py.split "/" path).
Proof.
  unfold nonblank. induction path as [|c s IH]; intros (c' & Hin & Hc'); cbn [Py.split].
  - inversion Hin.
  - destruct (Ascii.eqb_spec c "/") as [->|Hc].
    + apply Exists_cons_tl. apply IH. exists c'.
      destruct Hin as [Heq|Hin]; [by subst c'|done].
    + pose proof (split_nonnil "/" s). destruct (Py.split "/" s); [done|].
      by apply Exists_cons_hd.
Qed.

Lemma pathList_of_nonblank path :
  nonblank path -> exists x l, pathList_of path = Ok (x :: l).
Proof. intros H. rewrite pathList_of_strip. by apply strip_some_nonempty, split_nonblank. Qed.

Lemma pathList_of_blank path :
  ~ nonblank path -> pathList_of path = Raise IndexError.
Proof. intros H. rewrite pathList_of_strip. by apply strip_all_empty, split_blank. Qed.

(** [findInFolder] of [idOf], one step at a time. *)
Lemma idOf_findInFolder_cons limit name rest d :
  idOf_findInFolder (S limit) (name :: rest) d =
  if len (name :: rest) =? 1 then
    if contains name (files d)
    then Ok (Some (firstID d + Py.index name (files d))) else Ok None
  else
    match child name (folders d) with
    | Some sub => idOf_findInFolder limit rest sub
    | None => Ok None
    end.
Proof.
  cbn [idOf_findInFolder]. destruct (len (name :: rest) =? 1); [done|].
  induction (folders d) as [|[nm sf] fs IHfs]; [done|].
  cbn [child]. by destruct (String.eqb nm name).
Qed.

Lemma idOf_findInFolder_last limit name d :
  idOf_findInFolder (S limit) [name] d =
  if contains name (files d)
  then Ok (Some (firstID d + Py.index name (files d))) else Ok None.
Proof. reflexivity. Qed.

Lemma idOf_findInFolder_step limit name x rest d :
  idOf_findInFolder (S limit) (name :: x :: rest) d =
  match child name (folders d) with
  | Some sub => idOf_findInFolder limit (x :: rest) sub
  | None => Ok None
  end.
Proof.
  rewrite idOf_findInFolder_cons, !len_cons.
  pose proof (len_nonneg rest). by zcases.
Qed.

Lemma subfolder_findInFolder_cons limit name rest d :
  subfolder_findInFolder (S limit) (name :: rest) d =
  match child name (folders d) with
  | Some sub =>
      if len (name :: rest) =? 1 then Ok (Some sub)
      else subfolder_findInFolder limit rest sub
  | None => Ok None
  end.
Proof.
  cbn [subfolder_findInFolder].
  induction (folders d) as [|[nm sf] fs IHfs]; [done|].
  cbn [child]. by destruct (String.eqb nm name).
Qed.

Lemma subfolder_findInFolder_last limit name d :
  subfolder_findInFolder (S limit) [name] d =
  match child name (folders d) with
  | Some sub => Ok (Some sub)
  | None => Ok None
  end.
Proof. by rewrite subfolder_findInFolder_cons. Qed.

Lemma subfolder_findInFolder_step limit name x rest d :
  subfolder_findInFolder (S limit) (name :: x :: rest) d =
  match child name (folders d) with
  | Some sub => subfolder_findInFolder limit (x :: rest) sub
  | None => Ok None
  end.
Proof.
  rewrite subfolder_findInFolder_cons, !len_cons.
  pose proof (len_nonneg rest). by zcases.
Qed.

Lemma contains_true {A} `{EqDecision A} (x : A) l : contains x l = true <-> x ∈ l.
Proof. unfold contains. by rewrite bool_decide_eq_true. Qed.

Lemma FileAt_functional d l id1 id2 : FileAt d l id1 -> FileAt d l id2 -> id1 = id2.
Proof.
  intros H1. revert id2. induction H1 as [d name Hin|d name sub rest id Hne Hc H IH];
    intros id2 H2; inversion H2; subst; try done.
  apply IH. congruence.
Qed.

Lemma FolderAt_functional d l r1 r2 : FolderAt d l r1 -> FolderAt d l r2 -> r1 = r2.
Proof.
  intros H1. revert r2. induction H1 as [d name sub Hc|d name sub rest r Hne Hc H IH];
    intros r2 H2; inversion H2; subst; try done; try congruence.
  apply IH. congruence.
Qed.

(** Within the recursion limit, [findInFolder] of [idOf] returns the file
    the components lead to, or None when they lead to none; it does not
    raise on a non-empty list. *)
Lemma idOf_findInFolder_spec limit l d :
  l <> [] -> (length l <= limit)%nat ->
  (exists id, idOf_findInFolder limit l d = Ok (Some id) /\ FileAt d l id) \/
  (idOf_findInFolder limit l d = Ok None /\ forall id, ~ FileAt d l id).
Proof.
  revert limit d. induction l as [|name rest IH]; intros limit d Hl Hlen; [done|].
  destruct limit as [|limit]; [cbn [length] in Hlen; lia|].
  destruct rest as [|x rest].
  - rewrite idOf_findInFolder_last. destruct (contains name (files d)) eqn:Hc.
    + left. eexists. split; [done|]. constructor. by apply contains_true.
    + right. split; [done|]. intros id H. inversion H; subst; [|done].
      match goal with Hin : name ∈ _ |- _ => apply contains_true in Hin end.
      congruence.
  - rewrite idOf_findInFolder_step. destruct (child name (folders d)) as [sub|] eqn:Hc.
    + destruct (IH limit sub) as [(id & Hid & Hat)|[Hnone Hno]];
        [done|cbn [length] in *; lia| |].
      * left. exists id. split; [done|]. by econstructor.
      * right. split; [done|]. intros id H. inversion H; subst.
        apply (Hno id). congruence.
    + right. split; [done|]. intros id H. inversion H; subst. congruence.
Qed.

Lemma subfolder_findInFolder_spec limit l d :
  l <> [] -> (length l <= limit)%nat ->
  (exists r, subfolder_findInFolder limit l d = Ok (Some r) /\ FolderAt d l r) \/
  (subfolder_findInFolder limit l d = Ok None /\ forall r, ~ FolderAt d l r).
Proof.
  revert limit d. induction l as [|name rest IH]; intros limit d Hl Hlen; [done|].
  destruct limit as [|limit]; [cbn [length] in Hlen; lia|].
  destruct rest as [|x rest].
  - rewrite subfolder_findInFolder_last. destruct (child name (folders d)) as [sub|] eqn:Hc.
    + left. exists sub. split; [done|]. by constructor.
    + right. split; [done|]. intros r H. inversion H; subst; congruence.
  - rewrite subfolder_findInFolder_step. destruct (child name (folders d)) as [sub|] eqn:Hc.
    + destruct (IH limit sub) as [(r & Hr & Hat)|[Hnone Hno]];
        [done|cbn [length] in *; lia| |].
      * left. exists r. split; [done|]. by econstructor.
      * right. split; [done|]. intros r H. inversion H; subst.
        apply (Hno r). congruence.
    + right. split; [done|]. intros r H. inversion H; subst. congruence.
Qed.

(** A file or a folder is returned only within the recursion limit. *)
Lemma idOf_findInFolder_some limit l d id :
  idOf_findInFolder limit l d = Ok (Some id) ->
  (length l <= limit)%nat /\ FileAt d l id.
Proof.
  revert l d. induction limit as [|limit IH]; intros l d H; [done|].
  destruct l as [|name [|x rest]]; [done| |].
  - rewrite idOf_findInFolder_last in H. destruct (contains name (files d)) eqn:Hc; [|done].
    injection H as <-. split; [cbn [length]; lia|]. constructor. by apply contains_true.
  - rewrite idOf_findInFolder_step in H.
    destruct (child name (folders d)) as [sub|] eqn:Hc; [|done].
    apply IH in H as [Hlen Hat]. split; [cbn [length] in *; lia|]. by econstructor.
Qed.

Lemma subfolder_findInFolder_some limit l d r :
  subfolder_findInFolder limit l d = Ok (Some r) ->
  (length l <= limit)%nat /\ FolderAt d l r.
Proof.
  revert l d. induction limit as [|limit IH]; intros l d H; [done|].
  destruct l as [|name [|x rest]]; [done| |].
  - rewrite subfolder_findInFolder_last in H.
    destruct (child name (folders d)) as [sub|] eqn:Hc; [|done].
    injection H as <-. split; [cbn [length]; lia|]. by constructor.
  - rewrite subfolder_findInFolder_step in H.
    destruct (child name (folders d)) as [sub|] eqn:Hc; [|done].
    apply IH in H as [Hlen Hat]. split; [cbn [length] in *; lia|]. by econstructor.
Qed.

(** On a non-empty list of components the only exception is RecursionError,
    and it takes more components than the limit. *)
Lemma idOf_findInFolder_raises limit l d e :
  l <> [] -> idOf_findInFolder limit l d = Raise e ->
  e = RecursionError /\ (limit < length l)%nat.
Proof.
  revert l d. induction limit as [|limit IH]; intros l d Hl H.
  - injection H as <-. split; [done|]. destruct l; [done|cbn [length]; lia].
  - destruct l as [|name [|x rest]]; [done| |].
    + rewrite idOf_findInFolder_last in H. by destruct (contains name (files d)).
    + rewrite idOf_findInFolder_step in H.
      destruct (child name (folders d)) as [sub|]; [|done].
      apply IH in H as [-> Hlen]; [|done]. split; [done|cbn [length] in *; lia].
Qed.

Lemma subfolder_findInFolder_raises limit l d e :
  l <> [] -> subfolder_findInFolder limit l d = Raise e ->
  e = RecursionError /\ (limit < length l)%nat.
Proof.
  revert l d. induction limit as [|limit IH]; intros l d Hl H.
  - injection H as <-. split; [done|]. destruct l; [done|cbn [length]; lia].
  - destruct l as [|name [|x rest]]; [done| |].
    + rewrite subfolder_findInFolder_last in H. by destruct (child name (folders d)).
    + rewrite subfolder_findInFolder_step in H.
      destruct (child name (folders d)) as [sub|]; [|done].
      apply IH in H as [-> Hlen]; [|done]. split; [done|cbn [length] in *; lia].
Qed.

Lemma idOf_findInFolder_ends limit l d : idOf_findInFolder limit l d <> OutOfFuel.
Proof.
  revert l d. induction limit as [|limit IH]; intros l d; [done|].
  destruct l as [|name [|x rest]]; [done| |].
  - rewrite idOf_findInFolder_last. by destruct (contains name (files d)).
  - rewrite idOf_findInFolder_step. by destruct (child name (folders d)).
Qed.

Lemma subfolder_findInFolder_ends limit l d : subfolder_findInFolder limit l d <> OutOfFuel.
Proof.
  revert l d. induction limit as [|limit IH]; intros l d; [done|].
  destruct l as [|name [|x rest]]; [done| |].
  - rewrite subfolder_findInFolder_last. by destruct (child name (folders d)).
  - rewrite subfolder_findInFolder_step. by destruct (child name (folders d)).
Qed.

Lemma classic_nonblank path : nonblank path \/ ~ nonblank path.
Proof.
  unfold nonblank. induction path as [|c s IH].
  - right. intros (c & Hin & _). inversion Hin.
  - destruct (Ascii.eqb_spec c "/") as [->|Hc].
    + destruct IH as [(c' & Hin & Hc')|Hno].
      * left. exists c'. cbn. auto.
      * right. intros (c' & [Heq|Hin] & Hc'); [by subst|]. apply Hno. eauto.
    + left. exists c. cbn. auto.
Qed.

(** The lookups raise nothing but IndexError, on a path without a
    component, and RecursionError. *)
Lemma idOf_raises limit self path e :
  idOf limit self path = Raise e -> e = IndexError \/ e = RecursionError.
Proof.
  unfold idOf. destruct (classic_nonblank path) as [Hnb|Hb].
  - destruct (pathList_of_nonblank path Hnb) as (x & l & ->). cbn [bind].
    intros H. apply idOf_findInFolder_raises in H as [-> _]; [by right|done].
  - rewrite (pathList_of_blank path Hb). cbn [bind]. intros [= <-]. by left.
Qed.

Lemma idOf_ends limit self path : idOf limit self path <> OutOfFuel.
Proof.
  unfold idOf. destruct (classic_nonblank path) as [Hnb|Hb].
  - destruct (pathList_of_nonblank path Hnb) as (x & l & ->). cbn [bind].
    apply idOf_findInFolder_ends.
  - by rewrite (pathList_of_blank path Hb).
Qed.

(** [load] always comes to an end. *)
Lemma unpack_bytes_ok_inv n buf off bs :
  0 <= off -> unpack_bytes n buf off = Ok bs -> off + n <= len buf.
Proof. intros Hoff. unfold unpack_bytes. zcases; intros; simplify_eq. Qed.

Lemma unpack_B_ok_inv buf off c : 0 <= off -> unpack_B buf off = Ok c -> off + 1 <= len buf.
Proof.
  intros Hoff H. apply bind_ok_inv in H as (bs & Hbs & _).
  by apply unpack_bytes_ok_inv in Hbs.
Qed.

Lemma loadFolder_loop (rec : Z -> result Folder) fnt fuel off folderObj :
  (forall folderId, rec folderId <> OutOfFuel) ->
  0 <= off -> Z.max 0 (len fnt - off) < Z.of_nat fuel ->
  while fuel (loadFolder_pass rec fnt) (off, folderObj) <> OutOfFuel.
Proof.
  intros Hrec. revert off folderObj.
  induction fuel as [|fuel IH]; intros off folderObj Hoff Hfuel; [lia|].
  cbn [while loadFolder_pass].
  destruct (unpack_B fnt off) as [control|e|] eqn:Hc; cbn [bind]; [|done|].
  - apply unpack_B_ok_inv in Hc; [|done].
    destruct (control =? 0); [done|].
    assert (0 <= Z.land control 127) by (apply Z.land_nonneg; lia).
    destruct (negb _).
    + destruct (unpack_H fnt _) as [subFolderID|e|] eqn:Hh; cbn [bind]; [|done|].
      * specialize (Hrec subFolderID).
        destruct (rec subFolderID) as [sub|e|]; cbn [bind]; [|done..].
        apply IH; lia.
      * unfold unpack_H, unpack_bytes in Hh. by destruct (_ && _).
    + apply IH; lia.
  - unfold unpack_B, unpack_bytes in Hc. by destruct (_ && _).
Qed.

Lemma loadFolder_ends limit fnt folderId : loadFolder limit fnt folderId <> OutOfFuel.
Proof.
  revert folderId. induction limit as [|limit IH]; intros folderId; [done|].
  cbn [loadFolder].
  destruct (unpack_IH fnt _) as [[entriesTableOff fileID]|e|] eqn:Hu; cbn [bind]; [|done|].
  - assert (0 <= entriesTableOff) as Hoff.
    { unfold unpack_IH in Hu. apply bind_ok_inv in Hu as (bs & _ & [= <- _]).
      apply le_int_nonneg. }
    apply loadFolder_loop; [done|done|unfold len; lia].
  - unfold unpack_IH, unpack_bytes in Hu. by destruct (_ && _).
Qed.

Lemma load_ends limit fnt : load limit fnt <> OutOfFuel.
Proof. apply loadFolder_ends. Qed.

End FntFacts.

(** ** The ROM decoder *)

Module RomFacts.
Import Rom RomSpec.

(** One read of the header pass. *)
Ltac header_step :=
  eapply cbind_ok;
  [ first [ apply read8_ok; lia
          | apply read16_ok; lia
          | apply read32_ok; lia
          | reflexivity ]
  | cbv beta ].

Lemma readHeader_layout data :
  0x200 <= len data ->
  Rom.readHeader data 0 = Ok (header_at data, 0x200).
Proof.
  intros Hlen. unfold Rom.readHeader.
  repeat header_step.
  reflexivity.
Qed.

Lemma le_int_zero bs : all_zero bs -> le_int bs = 0.
Proof. induction 1 as [|b bs -> _ IH]; [done|]. cbn [le_int]. rewrite IH. reflexivity. Qed.

Lemma rstrip0_zero bs : all_zero bs -> rstrip0 bs = [].
Proof. induction 1 as [|b bs -> _ IH]; [done|]. cbn [rstrip0]. by rewrite IH. Qed.

Lemma field_nonneg data off w : 0 <= field data off w.
Proof. apply le_int_nonneg. Qed.

Lemma len_pad data : len (pad data) = Z.max 0x200 (len data).
Proof. unfold pad. rewrite len_app. unfold len. rewrite length_replicate. lia. Qed.

Lemma pad_long data : 0x200 <= len data -> pad data = data.
Proof.
  intros. unfold pad. replace (Z.to_nat (512 - len data)) with 0%nat by lia.
  apply app_nil_r.
Qed.

Lemma padData_ok data : Rom.padData data = Ok (pad data).
Proof.
  unfold Rom.padData. destruct (Z.ltb_spec (len data) 512).
  - fold (pad data). rewrite len_pad. by zcases.
  - by rewrite pad_long.
Qed.

Lemma pad_slice_zero data lo hi : len data <= lo -> all_zero (slice (pad data) lo hi).
Proof. intros. apply slice_app_r_Forall; [done|]. by apply Forall_replicate. Qed.

Lemma pad_field_zero data off w : len data <= off -> field (pad data) off w = 0.
Proof. intros. by apply le_int_zero, pad_slice_zero. Qed.

(** The table agrees with [header_at]: an integer field is the
    little-endian integer at its offset, a raw field the bytes there (the
    name with its trailing zero bytes removed). *)
Lemma header_fields_at data :
  Forall (fun '(off, width, get) =>
            get (header_at data) = IntField (field data off width) \/
            get (header_at data) = RawField (slice data off (off + width)) \/
            get (header_at data) = RawField (rstrip0 (slice data off (off + width))))
         header_fields.
Proof.
  unfold header_fields.
  repeat (apply Forall_cons_2; [cbn; auto|]). apply Forall_nil_2.
Qed.

(** Consecutive entries of the table are adjacent and the last one ends at
    0x200. *)
Lemma header_fields_cover :
  foldl (fun pos '(off, width, _) => if pos =? off then off + width else -1) 0 header_fields
  = 0x200.
Proof. reflexivity. Qed.

Lemma header_fields_zero data :
  Forall (fun '(off, width, get) =>
            len data <= off -> reads_zero (get (header_at (pad data))))
         header_fields.
Proof.
  unfold header_fields.
  repeat (apply Forall_cons_2;
            [ intros Hoff; cbn;
              first [ by apply pad_field_zero
                    | by apply pad_slice_zero
                    | rewrite rstrip0_zero; [constructor | by apply pad_slice_zero] ]
            | ]).
  apply Forall_nil_2.
Qed.

Lemma readRsaSignature_spec data r :
  readRsaSignature data r =
  Ok (let off := realSigOffset_of data r in
      if off =? 0 then [] else slice data off (Z.min (len data) (off + 0x88))).
Proof.
  unfold readRsaSignature, realSigOffset_of.
  rewrite Z.geb_leb, (Z.gtb_ltb (len data) r).
  destruct (Z.leb_spec 0x1004 (len data)).
  - rewrite unpack_I_ok by lia. cbn [bind].
    by destruct (_ && _), (_ =? 0).
  - cbn [bind]. by destruct (_ && _), (_ =? 0).
Qed.

Lemma PostRecords_functional data off r1 r2 :
  PostRecords data off r1 -> PostRecords data off r2 -> r1 = r2.
Proof.
  intros H1. revert r2.
  induction H1 as [off Hne|off rest Heq H1 IH]; intros r2 H2;
    inversion H2; subst; try done.
  f_equal. by apply IH.
Qed.

Lemma magic_in_buffer data off :
  0 <= off -> slice data off (off + 4) = POST_DATA_MAGIC -> off + 4 <= len data.
Proof.
  intros Hoff Heq. apply (f_equal len) in Heq.
  rewrite len_slice in Heq by lia. change (len POST_DATA_MAGIC) with 4 in Heq. lia.
Qed.

Lemma scan_loop data fuel acc off :
  0 <= off -> Z.max 0 (len data - off) < Z.of_nat fuel ->
  exists r,
    while fuel (scanPostData_pass data) (acc, off) = Ok (acc ++ r)
    /\ PostRecords data off r.
Proof.
  revert acc off. induction fuel as [|fuel IH]; intros acc off Hoff Hfuel; [lia|].
  cbn [while scanPostData_pass]. case_bool_decide as Hm.
  - pose proof (magic_in_buffer data off Hoff Hm).
    destruct (IH (acc ++ slice data off (off + 12)) (off + 12)) as (r & Hr & HP);
      [lia..|].
    exists (slice data off (off + 12) ++ r). rewrite Hr, <- app_assoc.
    split; [done|]. by constructor.
  - exists []. rewrite app_nil_r. split; [done|]. by constructor.
Qed.

(** The scan ends on every buffer and returns the records at [off]. *)
Lemma scanPostData_spec data off :
  0 <= off -> exists r, scanPostData data off = Ok r /\ PostRecords data off r.
Proof.
  intros Hoff. unfold scanPostData.
  destruct (scan_loop data (S (length data)) [] off) as (r & Hr & HP);
    [done|unfold len; lia|].
  exists r. by rewrite Hr.
Qed.


(** A run of whole records, then bytes that do not start with the marker. *)
Lemma PostRecords_layout pre recs rest :
  Forall (fun r => len r = 12 /\ take 4 r = POST_DATA_MAGIC) recs ->
  take 4 rest <> POST_DATA_MAGIC ->
  PostRecords (pre ++ concat recs ++ rest) (len pre) (concat recs).
Proof.
  intros Hrecs Hrest. revert pre.
  induction Hrecs as [|r recs [Hlen Hmagic] _ IH]; intros pre.
  - cbn [concat app]. constructor. by rewrite slice_app_at by lia.
  - cbn [concat]. rewrite <- !app_assoc.
    assert (Hn : (12 <= length r)%nat /\ (length r <= 12)%nat)
      by (unfold len in Hlen; lia).
    assert (H12 : slice (pre ++ r ++ concat recs ++ rest) (len pre) (len pre + 12) = r).
    { rewrite slice_app_at by lia. change (Z.to_nat 12) with 12%nat.
      rewrite take_app_le by lia. apply take_ge. lia. }
    assert (H4 : slice (pre ++ r ++ concat recs ++ rest) (len pre) (len pre + 4)
                 = POST_DATA_MAGIC).
    { rewrite slice_app_at by lia. change (Z.to_nat 4) with 4%nat.
      by rewrite take_app_le by lia. }
    replace (r ++ concat recs) with
      (slice (pre ++ r ++ concat recs ++ rest) (len pre) (len pre + 12) ++ concat recs)
      by (by rewrite H12).
    constructor; [done|].
    rewrite (app_assoc pre r). replace (len pre + 12) with (len (pre ++ r))
      by (rewrite len_app; lia).
    apply IH.
Qed.

Lemma unpack_II_ok buf off :
  0 <= off -> off + 8 <= len buf ->
  unpack_II buf off = Ok (field buf off 4, field buf (off + 4) 4).
Proof.
  intros. unfold unpack_II, field. rewrite unpack_bytes_ok by lia. cbn [bind].
  rewrite !slice_nonneg by lia. do 3 f_equal.
  - rewrite take_take. f_equal. lia.
  - rewrite skipn_firstn_comm, drop_drop.
    replace (Z.to_nat (off + 8 - off) - 4)%nat with (Z.to_nat (off + 4 + 4 - (off + 4)))
      by lia.
    do 2 f_equal. lia.
Qed.


Lemma range_elem n i : i ∈ range n <-> 0 <= i < n.
Proof. unfold range. rewrite elem_of_seqZ. lia. Qed.

Lemma fat_record_in_range fat i :
  i ∈ range (fat_count fat) -> 0 <= 8 * i /\ 8 * i + 8 <= len fat.
Proof.
  rewrite range_elem. unfold fat_count. intros [H0 Hn].
  pose proof (Z.mul_div_le (len fat) 8 ltac:(lia)). lia.
Qed.

Lemma foldl_files_dict {S1 S2 X} (g : X -> S1) (h : S2 -> X -> S2) l (a : list S1) (m : S2) :
  foldl (fun '(fs, d) i => (fs ++ [g i], h d i)) (a, m) l = (a ++ (g <$> l), foldl h m l).
Proof.
  revert a m. induction l as [|x l IH]; intros a m; cbn [foldl fmap list_fmap].
  - by rewrite app_nil_r.
  - rewrite IH, <- app_assoc. done.
Qed.

Lemma foldl_append_each {X Y} (g : X -> Y) l (a : list Y) :
  foldl (fun acc x => acc ++ [g x]) a l = a ++ (g <$> l).
Proof.
  revert a. induction l as [|x l IH]; intros a; cbn [foldl fmap list_fmap].
  - by rewrite app_nil_r.
  - rewrite IH, <- app_assoc. done.
Qed.

Lemma sorted_keys_elem {V} (d : gmap Z V) k : k ∈ sorted_keys d <-> is_Some (d !! k).
Proof.
  unfold sorted_keys. rewrite merge_sort_Permutation, list_elem_of_fmap.
  split.
  - intros ([k' v] & -> & Hin). apply elem_of_map_to_list in Hin. eauto.
  - intros [v Hv]. exists (k, v). split; [done|]. by apply elem_of_map_to_list.
Qed.

Lemma readFiles_spec data fat :
  readFiles data fat = Ok (files_of data fat, sortedFileIds_of fat).
Proof.
  unfold readFiles, files_of, sortedFileIds_of, offset2Id_of.
  destruct (Z.eqb_spec (len fat) 0) as [Hz|Hnz]; cbn [negb].
  - unfold fat_count. rewrite Hz. reflexivity.
  - fold (fat_count fat).
    rewrite (for_each_pure _ _
      (fun '(fs, d) i => (fs ++ [slice data (fat_start fat i) (fat_end fat i)],
                          <[fat_start fat i := i]> d))).
    2:{ intros i [fs d] Hi. apply fat_record_in_range in Hi.
        rewrite unpack_II_ok by lia. reflexivity. }
    cbn [bind].
    rewrite (foldl_files_dict (fun i => slice data (fat_start fat i) (fat_end fat i))
               (fun d i => <[fat_start fat i := i]> d)).
    cbn [app].
    set (m := foldl _ ∅ _).
    rewrite (for_each_pure _ _ (fun acc off => acc ++ [default 0 (m !! off)])).
    2:{ intros off acc Hoff. apply sorted_keys_elem in Hoff as [v ->]. done. }
    cbn [bind]. do 2 f_equal.
    apply (foldl_append_each (fun off => default 0 (m !! off)) (sorted_keys m) []).
Qed.










Lemma scanPostData_post_of data off :
  0 <= off -> scanPostData data off = Ok (post_of data off).
Proof.
  intros Hoff. unfold post_of.
  by destruct (scanPostData_spec data off Hoff) as (r & -> & _).
Qed.

Lemma post_of_records data off : 0 <= off -> PostRecords data off (post_of data off).
Proof.
  intros Hoff. unfold post_of.
  by destruct (scanPostData_spec data off Hoff) as (r & -> & HP).
Qed.

(** The decoder fails where the filename table fails to load, and nowhere
    else. *)
Lemma initFromData_eq limit data :
  _initFromData limit data =
  (filenames <- loadFilenames limit (pad data) ;; Ok (decoded (pad data) filenames)).
Proof.
  unfold _initFromData. rewrite padData_ok. cbn [bind].
  rewrite readHeader_layout by (rewrite len_pad; lia). cbn [bind].
  set (d := pad data).
  rewrite readRsaSignature_spec. cbn [bind].
  change (h_arm9Offset (header_at d)) with (field d 0x20 4).
  change (h_arm9Len (header_at d)) with (field d 0x2C 4).
  rewrite scanPostData_post_of
    by (pose proof (field_nonneg d 0x20 4); pose proof (field_nonneg d 0x2C 4); lia).
  cbn [bind]. unfold loadFilenames, fnt_of.
  change (fntOffset (header_at d)) with (field d 0x40 4).
  change (fntLen (header_at d)) with (field d 0x44 4).
  destruct (if negb _ then _ else _) as [fn|e|]; cbn [bind]; [|done..].
  rewrite readFiles_spec. reflexivity.
Qed.

Lemma initFromData_ok_inv limit data rom :
  _initFromData limit data = Ok rom ->
  exists filenames,
    loadFilenames limit (pad data) = Ok filenames /\ rom = decoded (pad data) filenames.
Proof.
  rewrite initFromData_eq. intros H. apply bind_ok_inv in H as (fn & Hfn & [= <-]). eauto.
Qed.

Lemma initFromData_ends limit data : _initFromData limit data <> OutOfFuel.
Proof.
  rewrite initFromData_eq. unfold loadFilenames.
  destruct (negb _); [|done].
  pose proof (FntFacts.load_ends limit (fnt_of (pad data))).
  by destruct (Fnt.load _ _).
Qed.

Lemma with_files_same self files' : same_but_files self (with_files self files').
Proof. unfold same_but_files. repeat split. Qed.

Lemma with_files_files self files' : files (with_files self files') = files'.
Proof. reflexivity. Qed.

Lemma getitem_raises {A} (l : list A) i e : getitem l i = Raise e -> e = IndexError.
Proof. unfold getitem. destruct (subscript _ _); [destruct (l !! _)|]; congruence. Qed.

Lemma setitem_raises {A} (l : list A) i x e : setitem l i x = Raise e -> e = IndexError.
Proof. unfold setitem. destruct (subscript _ _); congruence. Qed.

End RomFacts.

(** * The statements of the specification *)

(** ** The filename table *)

Module FntClaims.
Import Fnt FntSpec FntFacts Samples.

(** The first statement of [parseFolder] reads a local that is not bound
    yet. *)
Lemma parseFolder_unbound d parentID env :
  parseFolder FunctionLocal d parentID env = Raise UnboundLocalError.
Proof. destruct d. reflexivity. Qed.

Lemma save_raises root : save root = Raise UnboundLocalError.
Proof. unfold save, save_under. by rewrite parseFolder_unbound. Qed.

(** Under a [nonlocal] declaration the folder that [parseFolder] is called
    on gets the next ID of [save]. *)
Lemma parseFolder_nonlocal_id d parentID env folderID env' :
  parseFolder Nonlocal d parentID env = Ok (folderID, env') ->
  folderID = nextFolderID env.
Proof.
  destruct d as [fs fl fid]. cbn [parseFolder read_nextFolderID write_nextFolderID bind].
  intros H. apply bind_ok_inv in H as (et & _ & H).
  apply bind_ok_inv in H as ([et' env''] & _ & H). by injection H as <- _.
Qed.

Lemma save_under_nonlocal_root_id root fnt :
  save_under Nonlocal root = Ok fnt ->
  exists env, parseFolder Nonlocal root (countFoldersIn root) (mkClosure ∅ 0xF000)
              = Ok (0xF000, env).
Proof.
  unfold save_under. intros H. apply bind_ok_inv in H as ([rootId env] & Hp & _).
  pose proof (parseFolder_nonlocal_id _ _ _ _ _ Hp) as ->. eauto.
Qed.

(** Under either name resolution, a root folder with another ID than 0xF000
    makes [save] fail its assertion. *)
Lemma save_under_asserts sc root rootId env :
  parseFolder sc root (countFoldersIn root) (mkClosure ∅ 0xF000) = Ok (rootId, env) ->
  rootId <> 0xF000 ->
  save_under sc root = Raise AssertionError.
Proof.
  intros Hp Hne. unfold save_under. rewrite Hp. cbn [bind].
  by rewrite (proj2 (Z.eqb_neq rootId 0xF000) Hne).
Qed.

(** What [save] does with a [nonlocal] declaration on the sample trees: the
    table loads back as the tree, a name of 128 characters raises
    ValueError, a name of 127 characters does not. *)
Example save_under_nonlocal_round_trip :
  (fnt <- save_under Nonlocal tree_abc ;; load 10 fnt)
  = Ok tree_abc.
Proof. vm_compute. reflexivity. Qed.

Example save_under_nonlocal_name_128 :
  save_under Nonlocal (folder_with_name 128) = Raise ValueError.
Proof. vm_compute. reflexivity. Qed.

Example save_under_nonlocal_name_127 :
  exists fnt, save_under Nonlocal (folder_with_name 127) = Ok fnt.
Proof. eexists. vm_compute. reflexivity. Qed.

(** A file with the empty name does not come back even then: its length
    byte 0 is the byte that ends a folder. *)
Example save_under_nonlocal_empty_name :
  (fnt <- save_under Nonlocal (mkFolder [] [EmptyString; "z"%string] 0) ;; load 10 fnt)
  = Ok (mkFolder [] [] 0).
Proof. vm_compute. reflexivity. Qed.

(** C1.  What the code does where the specification expects [load(save(tree))] to
    give the tree back: [save] raises UnboundLocalError on every tree, and
    so does the composition, for the tree of one file [a] as for any other. *)
Theorem save_then_load_raises (limit : nat) (root : Folder) :
  save root = Raise UnboundLocalError /\
  (fnt <- save root ;; load limit fnt) = Raise UnboundLocalError /\
  (fnt <- save folder_a ;; load limit fnt) = Raise UnboundLocalError.
Proof. by rewrite !save_raises. Qed.

(** C2.  What the code does where the specification expects [save] to give the root
    folder the ID 0xF000: [parseFolder] raises UnboundLocalError before it
    takes an ID, for every folder, parent ID and state of the dict, so
    [save] records no folder and returns no table. *)
Theorem save_assigns_no_id (root : Folder) (parentID : Z) (env : closure) :
  parseFolder FunctionLocal root parentID env = Raise UnboundLocalError /\
  save root = Raise UnboundLocalError.
Proof. split; [apply parseFolder_unbound|apply save_raises]. Qed.

(** C3.  What the code does where the specification expects a ValueError for a name
    of 128 bytes: [save] raises UnboundLocalError, the same as for a name of
    127 bytes, and ValueError for no tree. *)
Theorem save_long_name_raises_unbound_local :
  save (folder_with_name 128) = Raise UnboundLocalError /\
  save (folder_with_name 127) = Raise UnboundLocalError /\
  forall root, save root <> Raise ValueError.
Proof.
  split; [apply save_raises|]. split; [apply save_raises|].
  intros root. by rewrite save_raises.
Qed.

Lemma slashes_blank n : ~ nonblank (slashes n).
Proof.
  intros (c & Hin & Hc). induction n as [|n IH]; cbn in Hin; [done|].
  destruct Hin as [Heq|Hin]; [by subst|auto].
Qed.

(** On the empty path, and on every path made of separators only, [idOf]
    and [subfolder] raise IndexError, whatever the folder: the loop that
    drops the empty components at the end goes on to index the empty list. *)
Lemma lookup_blank_path (limit : nat) (self : Folder) (n : nat) :
  idOf limit self (slashes n) = Raise IndexError /\
  subfolder limit self (slashes n) = Raise IndexError.
Proof.
  unfold idOf, subfolder.
  by rewrite (pathList_of_blank (slashes n) (slashes_blank n)).
Qed.

Example lookup_in_tree_abc :
  idOf 3 tree_abc "a/b/c.txt" = Ok (Some 2) /\
  idOf 3 tree_abc "/a/b/c.txt/" = Ok (Some 2) /\
  idOf 3 tree_abc "a/b/nope.txt" = Ok None /\
  subfolder 3 tree_abc "a/nope" = Ok None.
Proof. repeat split; reflexivity. Qed.

(** C4 (as amended).  For a lookup path with at least one character other
    than the separator, the path is cut into a non-empty list of components.
    When there are no more components than the interpreter allows nested
    calls, [idOf] and [subfolder] raise nothing: each returns what the
    components lead to, or None when they lead to nothing.  With more
    components the lookups can raise, and then RecursionError only.  For
    every path, separators added in front and behind leave the outcome of
    both lookups as it is. *)
Theorem lookup_absent_not_raised (limit : nat) (self : Folder) (path : string) :
  (nonblank path ->
   exists comps, pathList_of path = Ok comps /\ comps <> [] /\
     ((length comps <= limit)%nat ->
      ((exists id, idOf limit self path = Ok (Some id) /\ FileAt self comps id) \/
       (idOf limit self path = Ok None /\ forall id, ~ FileAt self comps id)) /\
      ((exists r, subfolder limit self path = Ok (Some r) /\ FolderAt self comps r) \/
       (subfolder limit self path = Ok None /\ forall r, ~ FolderAt self comps r))) /\
     (forall e, idOf limit self path = Raise e \/ subfolder limit self path = Raise e ->
        e = RecursionError /\ (limit < length comps)%nat))
  /\
  (forall n m,
     idOf limit self (slashes n +:+ path +:+ slashes m) = idOf limit self path /\
     subfolder limit self (slashes n +:+ path +:+ slashes m) = subfolder limit self path).
Proof.
  split.
  - intros Hnb. destruct (pathList_of_nonblank path Hnb) as (x & l & Hp).
    exists (x :: l). unfold idOf, subfolder. rewrite Hp. cbn [bind].
    split; [done|]. split; [done|]. split.
    + intros Hlen. split.
      * by apply idOf_findInFolder_spec.
      * by apply subfolder_findInFolder_spec.
    + intros e [H|H].
      * by apply idOf_findInFolder_raises in H.
      * by apply subfolder_findInFolder_raises in H.
  - intros n m. unfold idOf, subfolder. by rewrite pathList_of_slashes.
Qed.

Lemma lookup_absent_not_raised_witness :
  nonblank "a/b/nope.txt" /\
  idOf 3 tree_abc "a/b/nope.txt" = Ok None /\
  idOf 3 tree_abc "/a/b/nope.txt/" = idOf 3 tree_abc "a/b/nope.txt" /\
  exists comps, pathList_of "a/b/nope.txt" = Ok comps /\ comps <> [].
Proof.
  assert (Hnb : nonblank "a/b/nope.txt").
  { exists "a"%char. split; [cbn; auto | discriminate]. }
  split; [exact Hnb|].
  destruct (lookup_absent_not_raised 3 tree_abc "a/b/nope.txt") as [Hres Hsl].
  destruct (Hres Hnb) as (comps & Hp & Hne & Hin & _).
  assert (Hlen : (length comps <= 3)%nat).
  { vm_compute in Hp. injection Hp as <-. cbn [length]. lia. }
  destruct (Hin Hlen) as [[(id & Hid & _)|[Hnone _]] _].
  - vm_compute in Hid. discriminate.
  - split; [exact Hnone|]. split; [exact (proj1 (Hsl 1%nat 1%nat))|]. eauto.
Defined.

(** C4, the statement as given fails: on the empty path, and on a path of
    separators only, both lookups raise IndexError; and a path that does
    not resolve raises RecursionError when its components lead deeper than
    the interpreter allows nested calls, here two. *)
Lemma lookup_empty_path_raises :
  idOf 3 tree_abc "" = Raise IndexError /\
  subfolder 3 tree_abc "" = Raise IndexError /\
  idOf 3 tree_abc "//" = Raise IndexError /\
  subfolder 3 tree_abc "//" = Raise IndexError /\
  idOf 2 tree_abc "a/b/nope.txt" = Raise RecursionError /\
  subfolder 2 tree_abc "a/b/nope" = Raise RecursionError.
Proof. repeat split; reflexivity. Qed.

End FntClaims.

(** ** The ROM container *)

Module RomClaims.
Import Rom RomSpec RomFacts Samples.

(** C5 (as amended).  For a buffer shorter than 0x200 bytes: the buffer is
    extended with zero bytes to exactly 0x200 bytes before the header is
    read; every read of the header pass succeeds; every header field that
    starts at or beyond the original length reads as zero; and the decode
    fails exactly when the filename table that the header declares fails to
    load, so it succeeds when the declared filename-table length is zero,
    as it is for every buffer of at most 0x44 bytes. *)
Theorem short_buffer_decode (limit : nat) (data : list byte) :
  len data < 0x200 ->
  let d := data ++ replicate (Z.to_nat (0x200 - len data)) x00 in
  padData data = Ok d /\
  len d = 0x200 /\
  readHeader d 0 = Ok (header_at d, 0x200) /\
  Forall (fun '(off, width, get) => len data <= off -> reads_zero (get (header_at d)))
         header_fields /\
  _initFromData limit data <> OutOfFuel /\
  (forall e, _initFromData limit data = Raise e <-> loadFilenames limit d = Raise e) /\
  (field d 0x44 4 = 0 -> exists rom, _initFromData limit data = Ok rom) /\
  (len data <= 0x44 -> exists rom, _initFromData limit data = Ok rom).
Proof.
  intros Hshort d. fold (pad data) in d.
  assert (Hlen : len d = 0x200) by (unfold d; rewrite len_pad; lia).
  assert (Hzero : field d 0x44 4 = 0 -> exists rom, _initFromData limit data = Ok rom).
  { intros Hz. rewrite initFromData_eq. fold d. unfold loadFilenames, fnt_of.
    rewrite Hz, Z.add_0_r.
    assert (Hn : len (slice d (field d 64 4) (field d 64 4)) = 0).
    { pose proof (field_nonneg d 64 4). rewrite len_slice by lia. lia. }
    rewrite Hn. cbn. eauto. }
  split; [apply padData_ok|]. split; [done|].
  split; [apply readHeader_layout; lia|].
  split; [apply header_fields_zero|].
  split; [apply initFromData_ends|].
  split; [|split; [done|]].
  - intros e. rewrite initFromData_eq. fold d.
    destruct (loadFilenames limit d); cbn [bind]; split; congruence.
  - intros Hle. apply Hzero. by apply pad_field_zero.
Qed.

Lemma short_buffer_decode_witness :
  len (zeros 0x40) < 0x200 /\
  len (zeros 0x40) <= 0x44 /\
  field (zeros 0x40 ++ replicate (Z.to_nat (0x200 - len (zeros 0x40))) x00) 0x44 4 = 0 /\
  exists rom, _initFromData 1000 (zeros 0x40) = Ok rom.
Proof.
  assert (H1 : len (zeros 0x40) < 0x200) by reflexivity.
  assert (H2 : len (zeros 0x40) <= 0x44) by (vm_compute; discriminate).
  split; [exact H1|]. split; [exact H2|]. split; [reflexivity|].
  destruct (short_buffer_decode 1000 (zeros 0x40) H1) as (_ & _ & _ & _ & _ & _ & _ & H).
  exact (H H2).
Defined.

(** C5, the statement as given fails: a buffer of 0x100 bytes whose header
    declares a filename table of one byte makes the decode raise
    struct.error. *)
Lemma short_buffer_decode_fails :
  len buffer_short_fnt = 0x100 /\
  _initFromData 1000 buffer_short_fnt = Raise StructError.
Proof. split; vm_compute; reflexivity. Qed.




(** C7.  The scan returns on every buffer, from every start: it gives one
    slice [d[p:p+12]] for each position [p] that holds the four marker bytes,
    up to the first position whose next four bytes are not the marker.  The
    decode runs it from the end of the ARM9 region of the padded buffer and
    comes to an end; the records of a decoded ROM are what the scan gives.
    Where whole 12-byte records that start with the marker follow the ARM9
    region, and then bytes that do not start with the marker, the records
    found are exactly those records, two records when there are two; where
    the ARM9 region ends at the end of the buffer, none is found. *)
Theorem post_data_scan (limit : nat) (data : list byte) :
  let d := pad data in
  let off := field d 0x20 4 + field d 0x2C 4 in
  (forall buf start, 0 <= start ->
     exists recs, scanPostData buf start = Ok recs /\ PostRecords buf start recs) /\
  _initFromData limit data <> OutOfFuel /\
  exists post,
    scanPostData d off = Ok post /\
    PostRecords d off post /\
    (forall rom, _initFromData limit data = Ok rom ->
       arm9Offset rom + arm9Len rom = off /\ arm9PostData rom = post) /\
    (forall pre recs rest,
       d = pre ++ concat recs ++ rest -> len pre = off ->
       Forall (fun r => len r = 12 /\ take 4 r = POST_DATA_MAGIC) recs ->
       take 4 rest <> POST_DATA_MAGIC ->
       post = concat recs) /\
    (forall pre rec1 rec2 rest,
       d = pre ++ rec1 ++ rec2 ++ rest -> len pre = off ->
       len rec1 = 12 -> take 4 rec1 = POST_DATA_MAGIC ->
       len rec2 = 12 -> take 4 rec2 = POST_DATA_MAGIC ->
       take 4 rest <> POST_DATA_MAGIC ->
       post = rec1 ++ rec2 /\ len post = 24) /\
    (off = len d -> post = []).
Proof.
  intros d off.
  split; [intros buf start Hstart; by apply scanPostData_spec|].
  split; [apply initFromData_ends|].
  assert (Hoff : 0 <= off).
  { pose proof (field_nonneg d 32 4). pose proof (field_nonneg d 44 4). unfold off. lia. }
  destruct (scanPostData_spec d off Hoff) as (post & Hscan & HP).
  assert (Hrecs : forall pre recs rest,
     d = pre ++ concat recs ++ rest -> len pre = off ->
     Forall (fun r => len r = 12 /\ take 4 r = POST_DATA_MAGIC) recs ->
     take 4 rest <> POST_DATA_MAGIC ->
     post = concat recs).
  { intros pre recs rest Hd Hpre Hall Hrest.
    apply (PostRecords_functional d off); [done|].
    rewrite Hd, <- Hpre. by apply PostRecords_layout. }
  exists post. split; [done|]. split; [done|]. split.
  - intros rom Hrom. apply initFromData_ok_inv in Hrom as (fn & _ & ->). fold d.
    cbn [arm9Offset arm9Len arm9PostData decoded header_at h_arm9Offset h_arm9Len].
    split; [done|]. fold off. unfold post_of. by rewrite Hscan.
  - split; [done|]. split.
    + intros pre rec1 rec2 rest Hd Hpre Hl1 Hm1 Hl2 Hm2 Hrest.
      rewrite (Hrecs pre [rec1; rec2] rest); cbn [concat]; rewrite ?app_nil_r.
      * split; [done|]. rewrite len_app. lia.
      * by rewrite <- app_assoc.
      * done.
      * by repeat constructor.
      * done.
    + intros Hend. apply (PostRecords_functional d off); [done|].
      constructor. rewrite Hend, slice_at_end. discriminate.
Qed.

Lemma post_data_scan_witness :
  exists rom,
    _initFromData 1000 buffer_two_records = Ok rom /\
    arm9PostData rom = post_record_1 ++ post_record_2 /\
    len (arm9PostData rom) = 24.
Proof.
  destruct (_initFromData 1000 buffer_two_records) as [rom|e|] eqn:Hrom;
    [|vm_compute in Hrom; discriminate..].
  exists rom. split; [reflexivity|].
  destruct (post_data_scan 1000 buffer_two_records)
    as (_ & _ & post & _ & _ & Hdec & _ & Htwo & _).
  destruct (Hdec rom Hrom) as [_ ->].
  apply (Htwo (header_arm9 ++ [xaa; xbb; xcc; xdd]) post_record_1 post_record_2
              [x05; x06; x07; x08; x09]).
  - vm_compute. reflexivity.
  - vm_compute. reflexivity.
  - reflexivity.
  - reflexivity.
  - reflexivity.
  - reflexivity.
  - discriminate.
Defined.

(** A marker with fewer than 12 bytes left before the end of the buffer: the
    slice that the scan takes is clipped there. *)
Example post_data_cut_record :
  exists rom,
    _initFromData 1000 buffer_cut_record = Ok rom /\
    arm9PostData rom = POST_DATA_MAGIC ++ [x01; x02].
Proof. eexists. split; vm_compute; reflexivity. Qed.

Example post_data_arm9_at_end :
  exists rom,
    _initFromData 1000 buffer_arm9_at_end = Ok rom /\
    arm9Offset rom + arm9Len rom = len buffer_arm9_at_end /\
    arm9PostData rom = [].
Proof. eexists. split; [|split]; vm_compute; reflexivity. Qed.






(** C10.  At every recursion limit, [getFileByName] and [setFileByName]
    raise ValueError exactly when [idOf] returns None for the path.  When [idOf] returns an ID,
    [getFileByName] is [files[id]], and [setFileByName] is the assignment
    [files[id] = data]: where the ID is a position of [files], the file at
    that position is replaced, the other files stay, and so do the filename
    tree and every other attribute of the ROM. *)
Theorem file_by_name (limit : nat) (self : NintendoDSRom) (filename : string)
    (data : list byte) :
  (getFileByName limit self filename = Raise ValueError <->
   Fnt.idOf limit (filenames self) filename = Ok None) /\
  (setFileByName limit self filename data = Raise ValueError <->
   Fnt.idOf limit (filenames self) filename = Ok None) /\
  (forall fid, Fnt.idOf limit (filenames self) filename = Ok (Some fid) ->
     getFileByName limit self filename = getitem (files self) fid /\
     forall k, subscript (len (files self)) fid = Some k ->
       exists self',
         setFileByName limit self filename data = Ok self' /\
         files self' = <[k := data]> (files self) /\
         files self' !! k = Some data /\
         (forall j, j <> k -> files self' !! j = files self !! j) /\
         length (files self') = length (files self) /\
         filenames self' = filenames self /\
         same_but_files self self').
Proof.
  unfold getFileByName, setFileByName.
  destruct (Fnt.idOf limit (filenames self) filename) as [[fid|]|e|] eqn:Hid; cbn [bind].
  - split; [|split].
    + split; [|done]. intros H. by apply getitem_raises in H.
    + split; [|done]. destruct (setitem _ _ _) eqn:Hs; cbn [bind]; try done.
      intros [= ->]. by apply setitem_raises in Hs.
    + intros ? [= <-]. split; [done|]. intros k Hk.
      unfold setitem. rewrite Hk. cbn [bind]. eexists. split; [done|].
      assert (k < length (files self))%nat.
      { unfold subscript in Hk. destruct (_ && _) eqn:Hb; [|done].
        injection Hk as <-. apply andb_prop in Hb as [H1 H2].
        apply Z.leb_le in H1. apply Z.ltb_lt in H2. unfold len in *.
        destruct (fid <? 0); lia. }
      rewrite with_files_files. split; [done|].
      split; [by apply list_lookup_insert_eq|].
      split; [intros j Hj; by apply list_lookup_insert_ne|].
      split; [apply length_insert|]. split; [done|]. apply with_files_same.
  - split; [done|]. split; [done|]. intros fid [=].
  - apply FntFacts.idOf_raises in Hid as [->| ->]; repeat split; try done; intros [=].
  - by apply FntFacts.idOf_ends in Hid.
Qed.

Lemma file_by_name_witness :
  Fnt.idOf 3 (filenames rom_abc) "a/b/c.txt" = Ok (Some 2) /\
  subscript (len (files rom_abc)) 2 = Some 2%nat /\
  getFileByName 3 rom_abc "a/b/c.txt" = Ok [x0c] /\
  exists self',
    setFileByName 3 rom_abc "a/b/c.txt" [xff] = Ok self' /\
    files self' = [[x0a]; [x0b]; [xff]] /\
    filenames self' = filenames rom_abc.
Proof.
  assert (Hid : Fnt.idOf 3 (filenames rom_abc) "a/b/c.txt" = Ok (Some 2)) by reflexivity.
  assert (Hk : subscript (len (files rom_abc)) 2 = Some 2%nat) by reflexivity.
  split; [exact Hid|]. split; [exact Hk|].
  destruct (file_by_name 3 rom_abc "a/b/c.txt" [xff]) as (_ & _ & H).
  destruct (H 2 Hid) as [Hget Hset]. split; [rewrite Hget; reflexivity|].
  destruct (Hset 2%nat Hk) as (self' & Hs & Hf & _ & _ & _ & Hn & _).
  exists self'. split; [exact Hs|]. split; [rewrite Hf; reflexivity|exact Hn].
Defined.

End RomClaims.

(** * Further properties of the code *)

(** ** Path lookups, subscripting and printing of a [Folder] *)

Module FolderProps.
Import Fnt FntSpec FntFacts PyExc FolderMethods TreeSpec Samples MoreSamples.

(** *** Paths and their components *)

Lemma split_app_slash p q :
  Py.split "/" (p +:+ String "/" q) = Py.split "/" p ++ Py.split "/" q.
Proof.
  induction p as [|c p IH]; [reflexivity|].
  rewrite append_String. cbn [Py.split]. rewrite IH.
  destruct (Ascii.eqb c "/"); [reflexivity|].
  pose proof (split_nonnil "/" p). by destruct (Py.split "/" p).
Qed.

Lemma split_plain name : plain name -> Py.split "/" name = [name].
Proof.
  unfold plain. induction name as [|c s IH]; intros Hp; [reflexivity|].
  cbn [Py.split]. destruct (Ascii.eqb_spec c "/") as [->|Hc].
  - exfalso. apply Hp. cbn. auto.
  - rewrite IH; [done|]. intros Hin. apply Hp. cbn. auto.
Qed.

Lemma split_last p :
  p <> EmptyString -> last_char p <> Some "/"%char ->
  exists l x, Py.split "/" p = l ++ [x] /\ x <> EmptyString.
Proof.
  induction p as [|c p IH]; intros Hne Hlast; [done|].
  destruct p as [|c' p'].
  - cbn in Hlast. cbn [Py.split]. destruct (Ascii.eqb_spec c "/") as [->|Hc]; [done|].
    exists [], (String c EmptyString). by split.
  - destruct IH as (l & x & Hs & Hx); [done|exact Hlast|].
    cbn [Py.split] in Hs |- *. cbn [Py.split]. rewrite Hs.
    destruct (Ascii.eqb c "/").
    + exists (EmptyString :: l), x. by split.
    + destruct l as [|w l]; cbn [app].
      * exists [], (String c x). by split.
      * exists (String c w :: l), x. by split.
Qed.

Lemma split_first q c :
  first_char q = Some c -> c <> "/"%char ->
  exists y m, Py.split "/" q = y :: m /\ y <> EmptyString.
Proof.
  destruct q as [|c0 q]; intros [= ->] Hc. cbn [Py.split].
  rewrite (proj2 (Ascii.eqb_neq c "/") Hc).
  pose proof (split_nonnil "/" q). destruct (Py.split "/" q) as [|w ws]; [done|].
  by eexists _, _.
Qed.

Lemma strip_trailing_app pre l l' :
  strip_trailing l = Ok l' -> strip_trailing (pre ++ l) = Ok (pre ++ l').
Proof.
  induction l as [|x l IH] using rev_ind; intros H.
  - by rewrite strip_trailing_nil in H.
  - destruct (decide (x = EmptyString)) as [->|Hx].
    + rewrite strip_trailing_snoc_empty in H.
      rewrite app_assoc, strip_trailing_snoc_empty. auto.
    + rewrite strip_trailing_snoc in H by done. injection H as <-.
      by rewrite app_assoc, strip_trailing_snoc.
Qed.

Lemma strip_trailing_head y m t :
  y <> EmptyString -> strip_trailing (y :: m) = Ok t -> exists m', t = y :: m'.
Proof.
  intros Hy. induction m as [|x m IH] using rev_ind; intros H.
  - change [y] with ([] ++ [y]) in H. rewrite strip_trailing_snoc in H by done.
    injection H as <-. by exists [].
  - destruct (decide (x = EmptyString)) as [->|Hx].
    + rewrite app_comm_cons, strip_trailing_snoc_empty in H. auto.
    + rewrite app_comm_cons, strip_trailing_snoc in H by done.
      injection H as <-. by eexists.
Qed.

Lemma strip_leading_app l a l2 :
  strip_leading l = Ok a -> strip_leading (l ++ l2) = Ok (a ++ l2).
Proof.
  induction l as [|x l IH]; intros H.
  - by rewrite strip_leading_nil in H.
  - destruct (decide (x = EmptyString)) as [->|Hx].
    + rewrite strip_leading_cons_empty in H.
      rewrite <- app_comm_cons, strip_leading_cons_empty. auto.
    + rewrite strip_leading_cons in H by done. injection H as <-.
      by rewrite <- app_comm_cons, strip_leading_cons.
Qed.

Lemma pathList_of_ok path comps :
  pathList_of path = Ok comps -> nonblank path /\ comps <> [].
Proof.
  intros H. destruct (classic_nonblank path) as [Hnb|Hb].
  - split; [done|]. destruct (pathList_of_nonblank path Hnb) as (x & l & Hp).
    rewrite Hp in H. by injection H as <-.
  - by rewrite (pathList_of_blank path Hb) in H.
Qed.

Lemma nonblank_first q c : first_char q = Some c -> c <> "/"%char -> nonblank q.
Proof.
  destruct q as [|c0 q]; intros [= ->] Hc. exists c. split; [cbn; auto|done].
Qed.

(** The components of [p/q] are those of [p] and then those of [q], when
    no separator stands next to the one that joins them. *)
Lemma pathList_of_join p q c lp lq :
  last_char p <> Some "/"%char -> first_char q = Some c -> c <> "/"%char ->
  pathList_of p = Ok lp -> pathList_of q = Ok lq ->
  pathList_of (p +:+ String "/" q) = Ok (lp ++ lq).
Proof.
  intros Hlast Hfirst Hc Hp Hq.
  assert (Hne : p <> EmptyString) by (intros ->; discriminate Hp).
  destruct (split_last p Hne Hlast) as (l & x & Hsp & Hx).
  destruct (split_first q c Hfirst Hc) as (y & m & Hsq & Hy).
  rewrite pathList_of_strip in *. rewrite split_app_slash, Hsp, Hsq in *.
  unfold strip in *.
  rewrite strip_trailing_snoc in Hp by done. cbn [bind] in Hp.
  destruct (strip_trailing (y :: m)) as [t| |] eqn:Ht; cbn [bind] in Hq; [|done..].
  destruct (strip_trailing_head y m t Hy Ht) as (m' & ->).
  rewrite strip_leading_cons in Hq by done. injection Hq as <-.
  rewrite (strip_trailing_app (l ++ [x]) _ _ Ht). cbn [bind].
  by apply strip_leading_app.
Qed.

(** Below a folder that the components [a1] lead to, the lookup goes on
    with the nested calls that are left after one call for each of them. *)
Lemma findInFolder_app limit a1 a2 self sub :
  a2 <> [] -> FolderAt self a1 sub ->
  idOf_findInFolder (length a1 + limit) (a1 ++ a2) self = idOf_findInFolder limit a2 sub /\
  subfolder_findInFolder (length a1 + limit) (a1 ++ a2) self
  = subfolder_findInFolder limit a2 sub.
Proof.
  intros Ha2 Hat. destruct a2 as [|y m]; [done|]. clear Ha2.
  induction Hat as [d name sub Hc|d name sub rest r Hne Hc Hat IH].
  - cbn [app length Nat.add].
    rewrite idOf_findInFolder_step, subfolder_findInFolder_step. by rewrite Hc.
  - destruct rest as [|x rest]; [done|]. cbn [app length Nat.add] in *.
    rewrite idOf_findInFolder_step, subfolder_findInFolder_step. by rewrite Hc.
Qed.

Lemma findInFolder_app_none limit a1 a2 self :
  a1 <> [] -> a2 <> [] -> subfolder_findInFolder limit a1 self = Ok None ->
  idOf_findInFolder limit (a1 ++ a2) self = Ok None /\
  subfolder_findInFolder limit (a1 ++ a2) self = Ok None.
Proof.
  intros Ha1 Ha2. destruct a2 as [|y m]; [done|]. clear Ha2.
  revert a1 self Ha1. induction limit as [|limit IH]; intros a1 self Ha1 H; [done|].
  destruct a1 as [|name [|x rest]]; [done| |].
  - rewrite subfolder_findInFolder_last in H. cbn [app].
    rewrite idOf_findInFolder_step, subfolder_findInFolder_step.
    destruct (child name (folders self)); by simplify_eq.
  - rewrite subfolder_findInFolder_step in H. cbn [app] in *.
    rewrite idOf_findInFolder_step, subfolder_findInFolder_step.
    destruct (child name (folders self)); [|done]. by apply (IH (x :: rest)).
Qed.

Lemma index_first (name : string) fl :
  name ∈ fl ->
  exists i : nat, Py.index name fl = Z.of_nat i /\ fl !! i = Some name /\
    forall j : nat, (j < i)%nat -> fl !! j <> Some name.
Proof.
  induction fl as [|y fl IH]; intros Hin; [by apply elem_of_nil in Hin|].
  cbn [Py.index]. destruct (decide (y = name)) as [->|Hy].
  - exists 0%nat. split; [done|]. split; [done|]. lia.
  - apply elem_of_cons in Hin as [->|Hin]; [done|].
    destruct (IH Hin) as (i & Hi & Hl & Hfirst). exists (S i).
    split; [lia|]. split; [done|]. intros [|j] Hj; cbn; [congruence|].
    apply Hfirst. lia.
Qed.

Lemma pathList_of_plain name :
  name <> EmptyString -> plain name -> pathList_of name = Ok [name].
Proof.
  intros Hne Hplain.
  rewrite pathList_of_strip, (split_plain name Hplain). unfold strip.
  change [name] with ([] ++ [name]). rewrite strip_trailing_snoc by done.
  cbn [bind app]. by rewrite strip_leading_cons.
Qed.

Lemma idOf_plain (limit : nat) (self : Folder) (name : string) :
  name <> EmptyString -> plain name ->
  (name ∈ files self ->
   exists i : nat,
     idOf (S limit) self name = Ok (Some (firstID self + Z.of_nat i)) /\
     files self !! i = Some name /\
     forall j : nat, (j < i)%nat -> files self !! j <> Some name) /\
  (name ∉ files self -> idOf (S limit) self name = Ok None).
Proof.
  intros Hne Hplain. unfold idOf. rewrite pathList_of_plain by done. cbn [bind].
  rewrite idOf_findInFolder_last. split; intros Hin.
  - destruct (index_first name (files self) Hin) as (i & Hi & Hl & Hfirst).
    exists i. rewrite (proj2 (contains_true _ _) Hin), Hi. done.
  - destruct (contains name (files self)) eqn:Hc; [|done].
    by apply contains_true in Hc.
Qed.

(** X1.  A path without a separator, and not empty, is looked up in the
    folder itself, in one call of [findInFolder].  [idOf] returns the ID of
    the first file of that name, [firstID] plus its position, and None when
    the folder has no such file, whatever its subfolders hold.  [subfolder]
    returns the first subfolder of that name, and None when there is none. *)
Theorem idOf_plain_name (limit : nat) (self : Folder) (name : string) :
  name <> EmptyString -> plain name ->
  (name ∈ files self ->
   exists i : nat,
     idOf (S limit) self name = Ok (Some (firstID self + Z.of_nat i)) /\
     files self !! i = Some name /\
     forall j : nat, (j < i)%nat -> files self !! j <> Some name) /\
  (name ∉ files self -> idOf (S limit) self name = Ok None) /\
  subfolder (S limit) self name = Ok (child name (folders self)).
Proof.
  intros Hne Hplain. destruct (idOf_plain limit self name Hne Hplain) as [Hin Hout].
  split; [done|]. split; [done|].
  unfold subfolder. rewrite pathList_of_plain by done. cbn [bind].
  rewrite subfolder_findInFolder_last. by destruct (child name (folders self)).
Qed.

Lemma idOf_plain_name_witness :
  idOf 1 tree_abc "r" = Ok (Some 0) /\ idOf 1 tree_abc "a" = Ok None.
Proof.
  destruct (idOf_plain_name 0 tree_abc "r") as (Hin & _ & _);
    [discriminate|intros [H|[]]; discriminate H|].
  destruct (idOf_plain_name 0 tree_abc "a") as (_ & Hout & _);
    [discriminate|intros [H|[]]; discriminate H|].
  split.
  - destruct Hin as (i & Hi & Hl & _).
    + apply (bool_decide_eq_true_1 _). reflexivity.
    + destruct i as [|i]; [exact Hi|]. destruct i; discriminate Hl.
  - apply Hout. apply (bool_decide_eq_true_1 _). reflexivity.
Defined.

(** X2.  A lookup below a subfolder is the lookup in that subfolder, one
    nested call later for each component of [p]: when [p] leads to the
    folder [sub], the path [p/q] gives in [self] what [q] gives in [sub]
    with the nested calls that are left, for [idOf] and for [subfolder];
    when [p] leads to no folder, [p/q] leads to nothing.  This is for [p]
    that does not end with a separator and [q] that starts with another
    character: a separator next to the joining one is an empty component,
    which the lookups take for a name. *)
Theorem lookup_below_subfolder (limit : nat) (self : Folder) (p q : string) (c : ascii) :
  last_char p <> Some "/"%char -> first_char q = Some c -> c <> "/"%char ->
  (forall sub, subfolder limit self p = Ok (Some sub) ->
     exists lp, pathList_of p = Ok lp /\ (length lp <= limit)%nat /\
       forall k,
         idOf (length lp + k) self (p +:+ "/" +:+ q) = idOf k sub q /\
         subfolder (length lp + k) self (p +:+ "/" +:+ q) = subfolder k sub q) /\
  (subfolder limit self p = Ok None ->
     idOf limit self (p +:+ "/" +:+ q) = Ok None /\
     subfolder limit self (p +:+ "/" +:+ q) = Ok None).
Proof.
  intros Hlast Hfirst Hc.
  destruct (pathList_of_nonblank q (nonblank_first q c Hfirst Hc)) as (y & m & Hq).
  assert (Hjoin : forall lp, pathList_of p = Ok lp ->
            pathList_of (p +:+ "/" +:+ q) = Ok (lp ++ y :: m)).
  { intros lp Hp. by apply (pathList_of_join p q c). }
  split.
  - intros sub Hsub. unfold idOf, subfolder in *.
    destruct (pathList_of p) as [lp| |] eqn:Hp; cbn [bind] in Hsub; [|done..].
    apply subfolder_findInFolder_some in Hsub as [Hlen Hat].
    exists lp. split; [done|]. split; [done|]. intros k.
    rewrite (Hjoin lp eq_refl), Hq. cbn [bind]. by apply findInFolder_app.
  - intros Hsub. unfold idOf, subfolder in *.
    destruct (pathList_of p) as [lp| |] eqn:Hp; cbn [bind] in Hsub; [|done..].
    rewrite (Hjoin lp eq_refl). cbn [bind].
    apply findInFolder_app_none; [|done|done].
    by apply pathList_of_ok in Hp as [_ ?].
Qed.

Lemma lookup_below_subfolder_witness :
  idOf 3 tree_abc "a/b/c.txt" = Ok (Some 2) /\
  idOf 2 tree_abc "a/b/c.txt" = Raise RecursionError /\
  subfolder 2 tree_abc "a/b"
  = subfolder 1 (mkFolder [("b"%string, mkFolder [] ["c.txt"%string] 2)] ["x"%string] 1) "b" /\
  idOf 1 tree_abc "nope/c.txt" = Ok None.
Proof.
  destruct (lookup_below_subfolder 1 tree_abc "a" "b/c.txt" "b") as [Hsub _];
    [discriminate|reflexivity|discriminate|].
  destruct (lookup_below_subfolder 1 tree_abc "a" "b" "b") as [Hsub' _];
    [discriminate|reflexivity|discriminate|].
  destruct (lookup_below_subfolder 1 tree_abc "nope" "c.txt" "c") as [_ Hnone];
    [discriminate|reflexivity|discriminate|].
  destruct (Hsub _ eq_refl) as (lp & Hp & _ & Hk).
  destruct (Hsub' _ eq_refl) as (lp' & Hp' & _ & Hk').
  vm_compute in Hp. injection Hp as <-. vm_compute in Hp'. injection Hp' as <-.
  split; [|split; [|split]].
  - etrans; [exact (proj1 (Hk 2%nat))|reflexivity].
  - etrans; [exact (proj1 (Hk 1%nat))|reflexivity].
  - exact (proj2 (Hk' 1%nat)).
  - exact (proj1 (Hnone eq_refl)).
Defined.

(** The components of [p//q]: an empty component stands between those of
    [p] and those of [q]. *)
Lemma pathList_of_join_doubled p q c lp lq :
  last_char p <> Some "/"%char -> first_char q = Some c -> c <> "/"%char ->
  pathList_of p = Ok lp -> pathList_of q = Ok lq ->
  pathList_of (p +:+ String "/" (String "/" q)) = Ok (lp ++ EmptyString :: lq).
Proof.
  intros Hlast Hfirst Hc Hp Hq.
  assert (Hne : p <> EmptyString) by (intros ->; discriminate Hp).
  destruct (split_last p Hne Hlast) as (l & x & Hsp & Hx).
  destruct (split_first q c Hfirst Hc) as (y & m & Hsq & Hy).
  rewrite pathList_of_strip in *. rewrite split_app_slash, split_cons_sep, Hsp, Hsq in *.
  unfold strip in *.
  rewrite strip_trailing_snoc in Hp by done. cbn [bind] in Hp.
  destruct (strip_trailing (y :: m)) as [t| |] eqn:Ht; cbn [bind] in Hq; [|done..].
  destruct (strip_trailing_head y m t Hy Ht) as (m' & ->).
  rewrite strip_leading_cons in Hq by done. injection Hq as <-.
  rewrite (cons_middle EmptyString (l ++ [x]) (y :: m)), app_assoc.
  rewrite (strip_trailing_app ((l ++ [x]) ++ [EmptyString]) _ _ Ht). cbn [bind].
  rewrite <- app_assoc. cbn [app].
  by apply strip_leading_app.
Qed.

(** X3.  Two separators in a row inside a path are not taken as one: they
    hold an empty component between them, which the lookups take for the
    name of a folder, at the cost of a nested call.  So [p//q] leads where
    [q] leads from the subfolder with the empty name of the folder that [p]
    leads to, and to nothing when that folder has no subfolder with the
    empty name. *)
Theorem lookup_doubled_separator (limit : nat) (self sub : Folder) (p q : string)
    (c : ascii) :
  last_char p <> Some "/"%char -> first_char q = Some c -> c <> "/"%char ->
  subfolder limit self p = Ok (Some sub) ->
  exists lp, pathList_of p = Ok lp /\ (length lp <= limit)%nat /\
    (child EmptyString (folders sub) = None ->
     forall k,
       idOf (length lp + S k) self (p +:+ "//" +:+ q) = Ok None /\
       subfolder (length lp + S k) self (p +:+ "//" +:+ q) = Ok None) /\
    (forall e, child EmptyString (folders sub) = Some e ->
     forall k,
       idOf (length lp + S k) self (p +:+ "//" +:+ q) = idOf k e q /\
       subfolder (length lp + S k) self (p +:+ "//" +:+ q) = subfolder k e q).
Proof.
  intros Hlast Hfirst Hc Hsub.
  destruct (pathList_of_nonblank q (nonblank_first q c Hfirst Hc)) as (y & m & Hq).
  unfold idOf, subfolder in *.
  destruct (pathList_of p) as [lp| |] eqn:Hp; cbn [bind] in Hsub; [|done..].
  apply subfolder_findInFolder_some in Hsub as [Hlen Hat].
  assert (Hjoin : pathList_of (p +:+ "//" +:+ q) = Ok (lp ++ EmptyString :: y :: m))
    by (by apply (pathList_of_join_doubled p q c)).
  exists lp. split; [done|]. split; [done|].
  rewrite Hjoin, Hq. cbn [bind].
  assert (Hgo : forall k,
    idOf_findInFolder (length lp + S k) (lp ++ EmptyString :: y :: m) self
    = match child EmptyString (folders sub) with
      | Some e => idOf_findInFolder k (y :: m) e
      | None => Ok None
      end /\
    subfolder_findInFolder (length lp + S k) (lp ++ EmptyString :: y :: m) self
    = match child EmptyString (folders sub) with
      | Some e => subfolder_findInFolder k (y :: m) e
      | None => Ok None
      end).
  { intros k.
    destruct (findInFolder_app (S k) lp (EmptyString :: y :: m) self sub ltac:(done) Hat)
      as [-> ->].
    by rewrite idOf_findInFolder_step, subfolder_findInFolder_step. }
  split.
  - intros Hnone k. destruct (Hgo k) as [-> ->]. by rewrite Hnone.
  - intros e He k. destruct (Hgo k) as [-> ->]. by rewrite He.
Qed.

Lemma lookup_doubled_separator_witness :
  idOf 4 tree_abc "a//b/c.txt" = Ok None /\
  idOf 3 tree_abc "a/b/c.txt" = Ok (Some 2).
Proof.
  split; [|reflexivity].
  destruct (lookup_doubled_separator 1 tree_abc
              (mkFolder [("b"%string, mkFolder [] ["c.txt"%string] 2)] ["x"%string] 1)
              "a" "b/c.txt" "b") as (lp & Hp & _ & Hnone & _);
    [discriminate|reflexivity|discriminate|reflexivity|].
  vm_compute in Hp. injection Hp as <-.
  exact (proj1 (Hnone eq_refl 2%nat)).
Defined.

(** *** Subscripting and membership *)

Lemma getitem_str_key (limit : nat) (self : Folder) (path : string) (comps : list string) :
  pathList_of path = Ok comps -> (length comps <= limit)%nat ->
  (forall id, FileAt self comps id ->
     __getitem__ limit self (StrKey path) = Return (FileID id)) /\
  (forall r, (forall id, ~ FileAt self comps id) -> FolderAt self comps r ->
     __getitem__ limit self (StrKey path) = Return (SubFolder r)) /\
  ((forall id, ~ FileAt self comps id) -> (forall r, ~ FolderAt self comps r) ->
     __getitem__ limit self (StrKey path) = Throw (Builtin KeyError)).
Proof.
  intros Hp Hlen. pose proof (pathList_of_ok path comps Hp) as [_ Hne].
  cbn [__getitem__]. unfold idOf, subfolder. rewrite Hp. cbn [bind].
  destruct (idOf_findInFolder_spec limit comps self Hne Hlen) as [(id & -> & Hat)|[-> Hno]];
    cbn [lift andThen].
  - split; [|split].
    + intros id' Hat'. by rewrite (FileAt_functional _ _ _ _ Hat Hat').
    + intros r Hnone. by destruct (Hnone id).
    + intros Hnone. by destruct (Hnone id).
  - destruct (subfolder_findInFolder_spec limit comps self Hne Hlen)
      as [(r & -> & Hat)|[-> Hnor]]; cbn [lift andThen].
    + split; [|split].
      * intros id Hat'. by destruct (Hno id).
      * intros r' _ Hat'. by rewrite (FolderAt_functional _ _ _ _ Hat Hat').
      * intros _ Hnone. by destruct (Hnone r).
    + split; [|split].
      * intros id Hat'. by destruct (Hno id).
      * intros r _ Hat'. by destruct (Hnor r).
      * done.
Qed.

(** With more components than nested calls are allowed, nothing is found. *)
Lemma getitem_str_key_beyond (limit : nat) (self : Folder) (path : string)
    (comps : list string) :
  pathList_of path = Ok comps -> (limit < length comps)%nat ->
  exists e, __getitem__ limit self (StrKey path) = Throw (Builtin e) /\
            (e = KeyError \/ e = RecursionError).
Proof.
  intros Hp Hlen. pose proof (pathList_of_ok path comps Hp) as [_ Hne].
  cbn [__getitem__]. unfold idOf, subfolder. rewrite Hp. cbn [bind].
  destruct (idOf_findInFolder limit comps self) as [[id|]|e|] eqn:Hid; cbn [lift andThen].
  - apply idOf_findInFolder_some in Hid as [? _]. lia.
  - destruct (subfolder_findInFolder limit comps self) as [[r|]|e|] eqn:Hsub;
      cbn [lift andThen].
    + apply subfolder_findInFolder_some in Hsub as [? _]. lia.
    + exists KeyError. auto.
    + apply subfolder_findInFolder_raises in Hsub as [-> _]; [|done].
      exists RecursionError. auto.
    + by apply subfolder_findInFolder_ends in Hsub.
  - apply idOf_findInFolder_raises in Hid as [-> _]; [|done].
    exists RecursionError. auto.
  - by apply idOf_findInFolder_ends in Hid.
Qed.

(** X4.  What [folder[key]] gives.  An [int] key raises AttributeError, any
    key that is neither [int] nor [str] TypeError.  A [str] key without a
    character other than the separator raises IndexError.  A [str] key with
    no more components than the interpreter allows nested calls gives the ID
    of the file that its components lead to; a folder is looked for only
    when there is no such file, and KeyError is raised when there is
    neither.  A [str] key with more components gives nothing, whatever the
    tree holds: it raises KeyError or RecursionError. *)
Theorem getitem_outcome (limit : nat) (self : Folder) :
  (forall k, __getitem__ limit self (IntKey k) = Throw AttributeError) /\
  __getitem__ limit self OtherKey = Throw TypeError /\
  (forall path, ~ nonblank path ->
     __getitem__ limit self (StrKey path) = Throw (Builtin IndexError)) /\
  (forall path comps, pathList_of path = Ok comps ->
     ((length comps <= limit)%nat ->
      (forall id, FileAt self comps id ->
         __getitem__ limit self (StrKey path) = Return (FileID id)) /\
      (forall r, (forall id, ~ FileAt self comps id) -> FolderAt self comps r ->
         __getitem__ limit self (StrKey path) = Return (SubFolder r)) /\
      ((forall id, ~ FileAt self comps id) -> (forall r, ~ FolderAt self comps r) ->
         __getitem__ limit self (StrKey path) = Throw (Builtin KeyError))) /\
     ((limit < length comps)%nat ->
      exists e, __getitem__ limit self (StrKey path) = Throw (Builtin e) /\
                (e = KeyError \/ e = RecursionError))).
Proof.
  split; [done|]. split; [done|]. split.
  - intros path Hb. cbn [__getitem__]. unfold idOf.
    by rewrite (pathList_of_blank path Hb).
  - intros path comps Hp. split.
    + by apply getitem_str_key.
    + by apply getitem_str_key_beyond.
Qed.

Lemma getitem_outcome_witness :
  __getitem__ 1 tree_same_name (StrKey "a") = Return (FileID 0) /\
  __getitem__ 2 tree_abc (StrKey "a/b")
  = Return (SubFolder (mkFolder [] ["c.txt"%string] 2)) /\
  __getitem__ 2 tree_abc (StrKey "a/nope") = Throw (Builtin KeyError) /\
  __getitem__ 2 tree_abc (StrKey "/") = Throw (Builtin IndexError) /\
  __getitem__ 2 tree_abc (StrKey "a/b/c.txt") = Throw (Builtin RecursionError).
Proof.
  split; [|split; [|split; [|split]]].
  - destruct (getitem_outcome 1 tree_same_name) as (_ & _ & _ & H).
    destruct (H "a"%string ["a"%string] eq_refl) as [Hin _].
    destruct (Hin ltac:(cbn [length]; lia)) as (Hfile & _).
    apply (Hfile 0). apply (FileAt_here tree_same_name "a").
    apply (bool_decide_eq_true_1 _). reflexivity.
  - destruct (getitem_outcome 2 tree_abc) as (_ & _ & _ & H).
    destruct (H "a/b"%string ["a"%string; "b"%string] eq_refl) as [Hin _].
    destruct (Hin ltac:(cbn [length]; lia)) as (_ & Hsub & _).
    apply Hsub.
    + intros id Hat. inversion Hat as [|? ? ? ? ? _ Hc Hb]; subst.
      cbn in Hc. injection Hc as <-. inversion Hb as [? ? Hin'|]; subst.
      * apply list_elem_of_In in Hin'. cbn in Hin'. destruct Hin' as [H0|[]].
        discriminate H0.
      * done.
    + eapply FolderAt_below; [done|reflexivity|]. by apply FolderAt_child.
  - destruct (getitem_outcome 2 tree_abc) as (_ & _ & _ & H).
    destruct (H "a/nope"%string ["a"%string; "nope"%string] eq_refl) as [Hin _].
    destruct (Hin ltac:(cbn [length]; lia)) as (_ & _ & Hnone).
    apply Hnone.
    + intros id Hat. inversion Hat as [|? ? ? ? ? _ Hc Hb]; subst.
      cbn in Hc. injection Hc as <-. inversion Hb as [? ? Hin'|]; subst.
      * apply list_elem_of_In in Hin'. cbn in Hin'. destruct Hin' as [H0|[]].
        discriminate H0.
      * done.
    + intros r Hat. inversion Hat as [|? ? ? ? ? _ Hc Hb]; subst.
      cbn in Hc. injection Hc as <-. inversion Hb; subst; [|done].
      match goal with Hch : child _ _ = Some _ |- _ => cbn in Hch; discriminate Hch end.
  - destruct (getitem_outcome 2 tree_abc) as (_ & _ & Hblank & _).
    apply Hblank. intros (c & Hin & Hc). cbn in Hin. destruct Hin as [<-|[]]. done.
  - destruct (getitem_outcome 2 tree_abc) as (_ & _ & _ & H).
    destruct (H "a/b/c.txt"%string ["a"%string; "b"%string; "c.txt"%string] eq_refl)
      as [_ Hout].
    destruct (Hout ltac:(cbn [length]; lia)) as (e & He & _).
    rewrite He. vm_compute in He. symmetry. exact He.
Defined.

(** X5.  [key in folder] raises nothing.  It is True exactly for a [str]
    key that has no more components than the interpreter allows nested calls
    and whose components lead to a file or to a folder.  So it is False for
    every [int] key, the ID of a file of the folder included, False for a
    path of separators only, and False for a file that lies deeper than the
    calls can nest: the RecursionError of the lookup is caught as every
    other exception is. *)
Theorem contains_outcome (limit : nat) (self : Folder) (key : key) :
  exists b, __contains__ limit self key = Return b /\
    (b = true <->
     exists path comps, key = StrKey path /\ pathList_of path = Ok comps /\
       (length comps <= limit)%nat /\
       ((exists id, FileAt self comps id) \/ (exists r, FolderAt self comps r))).
Proof.
  unfold __contains__. destruct key as [k|path|].
  - exists false. split; [done|]. split; [done|]. by intros (? & ? & ? & _).
  - destruct (pathList_of path) as [comps|e|] eqn:Hp.
    + pose proof (pathList_of_ok path comps Hp) as [_ Hne].
      destruct (le_lt_dec (length comps) limit) as [Hlen|Hlen].
      * destruct (getitem_str_key limit self path comps Hp Hlen) as (Hfile & Hsub & Hnone).
        destruct (idOf_findInFolder_spec limit comps self Hne Hlen)
          as [(id & _ & Hat)|[_ Hno]].
        { rewrite (Hfile id Hat). exists true. split; [done|]. split; [|done].
          intros _. exists path, comps. eauto 10. }
        destruct (subfolder_findInFolder_spec limit comps self Hne Hlen)
          as [(r & _ & Hat)|[_ Hnor]].
        { rewrite (Hsub r Hno Hat). exists true. split; [done|]. split; [|done].
          intros _. exists path, comps. eauto 10. }
        rewrite (Hnone Hno Hnor). exists false. split; [done|]. split; [done|].
        intros (path' & comps' & [= <-] & Hp' & _ & Hor). rewrite Hp in Hp'.
        injection Hp' as <-. destruct Hor as [[id Hat]|[r Hat]].
        -- by destruct (Hno id).
        -- by destruct (Hnor r).
      * destruct (getitem_str_key_beyond limit self path comps Hp Hlen) as (e & -> & _).
        exists false. split; [done|]. split; [done|].
        intros (path' & comps' & [= <-] & Hp' & Hle & _). rewrite Hp in Hp'.
        injection Hp' as <-. lia.
    + cbn [__getitem__]. unfold idOf. rewrite Hp. cbn [bind lift andThen].
      exists false. split; [done|]. split; [done|].
      intros (path' & comps' & [= <-] & Hp' & _). congruence.
    + cbn [__getitem__]. unfold idOf. rewrite Hp.
      exfalso. destruct (classic_nonblank path) as [Hnb|Hb].
      * destruct (pathList_of_nonblank path Hnb) as (x & l & Hx). congruence.
      * rewrite (pathList_of_blank path Hb) in Hp. congruence.
  - exists false. split; [done|]. split; [done|]. by intros (? & ? & ? & _).
Qed.
(** *** Printing *)

Lemma each_pure {A S} (l : list A) (body : A -> S -> outcome S) (f : S -> A -> S) s :
  (forall x s, x ∈ l -> body x s = Return (f s x)) ->
  each l body s = Return (foldl f s l).
Proof.
  revert s. induction l as [|x l IH]; intros s Hbody; [done|].
  cbn [each foldl]. rewrite Hbody by left. cbn [andThen].
  apply IH. intros y s' Hy. apply Hbody. by right.
Qed.

Lemma each_ext {A S} (l : list A) (body1 body2 : A -> S -> outcome S) s :
  (forall x s, x ∈ l -> body1 x s = body2 x s) ->
  each l body1 s = each l body2 s.
Proof.
  revert s. induction l as [|x l IH]; intros s Hbody; [done|].
  cbn [each]. rewrite Hbody by left. destruct (body2 x s); cbn [andThen]; [|done..].
  apply IH. intros y s' Hy. apply Hbody. by right.
Qed.

(** A loop whose passes return or raise [e], and one of whose passes
    raises [e], raises [e]. *)
Lemma each_throw {A S} (l : list A) (body : A -> S -> outcome S) e s :
  (forall x s, x ∈ l -> (exists s', body x s = Return s') \/ body x s = Throw e) ->
  Exists (fun x => forall s, body x s = Throw e) l ->
  each l body s = Throw e.
Proof.
  revert s. induction l as [|x l IH]; intros s Hbody Hex; [by inversion Hex|].
  cbn [each]. destruct (Hbody x s) as [[s' Hs]|Hs]; [by left| |by rewrite Hs].
  rewrite Hs. cbn [andThen]. apply Exists_cons in Hex as [Hx|Hex].
  - by rewrite Hx in Hs.
  - apply IH; [|done]. intros y s'' Hy. apply Hbody. by right.
Qed.

Lemma enumerate_fst {A} (l : list A) : (enumerate l).*1 = seqZ 0 (len l).
Proof. unfold enumerate. apply fst_zip. rewrite length_seqZ. unfold len. lia. Qed.

Lemma length_enumerate {A} (l : list A) : length (enumerate l) = length l.
Proof.
  unfold enumerate. rewrite length_zip_with, length_seqZ. unfold len. lia.
Qed.

(** The pass over the files of one folder, without a file list. *)
Lemma file_pass_plain indentStr (l : list (Z * string)) acc :
  each l (fun '(i, fileName) (L : list (string * option string)) =>
            preview <-- Return None ;;
            Return (L ++ [("{fid:04d}" +:+ indentStr +:+ fileName, preview)])) acc
  = Return (acc ++ (file_line indentStr None <$> l)).
Proof.
  rewrite (each_pure _ _ (fun L p => L ++ [file_line indentStr None p]))
    by (by intros [i fileName] L _).
  by rewrite (RomFacts.foldl_append_each (file_line indentStr None)).
Qed.

(** Without a file list the pairs are returned exactly when the tree is
    not deeper than the nested calls allowed. *)
Lemma strListUncombined_plain limit :
  forall self indent,
    ((depth self <= limit)%nat ->
     exists L,
       _strListUncombined limit self indent None = Return L /\
       length L = entries self /\
       Forall (fun e => placeholder_line e.1 /\ e.2 = None) L) /\
    ((limit < depth self)%nat ->
     _strListUncombined limit self indent None = Throw (Builtin RecursionError)).
Proof.
  induction limit as [|limit IH]; intros [fs fl fid] indent.
  - split; [cbn [depth]; lia|done].
  - cbn [_strListUncombined entries depth files folders firstID].
    rewrite file_pass_plain. cbn [andThen app].
    set (acc := _ <$> enumerate fl).
    assert (Hacc : length acc = length fl /\
                   Forall (fun e => placeholder_line e.1 /\ e.2 = None) acc).
    { unfold acc. rewrite length_fmap, length_enumerate. split; [done|].
      apply Forall_fmap, Forall_forall. intros [i fileName] _. cbn.
      split; [|done]. eexists. left. reflexivity. }
    clearbody acc. destruct Hacc as [Hlen Hall]. revert acc Hlen Hall.
    generalize (length fl) as n.
    induction fs as [|[folderName folder] fs IHfs]; intros n acc Hlen Hall.
    + split; [|lia]. intros _. exists acc. split; [done|]. split; [lia|done].
    + destruct (IH folder (indent + 4)) as [IHok IHdeep].
      assert (Hnext : forall sub,
                length sub = entries folder ->
                Forall (fun e => placeholder_line e.1 /\ e.2 = None) sub ->
                Forall (fun e => placeholder_line e.1 /\ e.2 = None)
                  ((acc ++ [("{folder.firstID:04d}" +:+ spaces (indent + 1)
                               +:+ folderName +:+ "/", None)]) ++ sub)).
      { intros sub _ Hsall. apply Forall_app. split; [|done]. apply Forall_app.
        split; [done|]. apply Forall_singleton. split; [|done].
        eexists. right. reflexivity. }
      split.
      * intros Hd. destruct IHok as (sub & -> & Hsub & Hsall); [lia|]. cbn [andThen].
        destruct (IHfs _ _ eq_refl (Hnext sub Hsub Hsall)) as [IHfsok _].
        destruct IHfsok as (L & -> & HL & HLall); [lia|].
        exists L. split; [done|]. split; [|done]. rewrite HL, !length_app.
        cbn [length]. lia.
      * intros Hd. destruct (le_lt_dec (depth folder) limit) as [Hle|Hgt].
        -- destruct IHok as (sub & -> & Hsub & Hsall); [done|]. cbn [andThen].
           destruct (IHfs _ _ eq_refl (Hnext sub Hsub Hsall)) as [_ IHfsdeep].
           apply IHfsdeep. lia.
        -- by rewrite (IHdeep Hgt).
Qed.

Lemma strList_of_plain limit self indent fileList L :
  _strListUncombined limit self indent fileList = Return L ->
  Forall (fun e : string * option string => e.2 = None) L ->
  _strList limit self indent fileList = Return L.*1.
Proof.
  intros HL Hnone. unfold _strList. rewrite HL. cbn [andThen].
  assert (Hcol : exists c,
    (if negb (len L =? 0)
     then m <-- lift (max_of ((fun entry : string * option string => strlen entry.1)
                                <$> L)) ;; Return (m + 4)
     else Return 4) = Return c).
  { destruct L as [|e L]; [by exists 4|].
    rewrite len_cons. pose proof (len_nonneg L).
    destruct (Z.eqb_spec (1 + len L) 0) as [?|_]; [lia|]. cbn. eauto. }
  destruct Hcol as (c & ->). cbn [andThen].
  rewrite (each_pure _ _ (fun strings p => strings ++ [p.1])).
  - f_equal. by rewrite (RomFacts.foldl_append_each fst).
  - intros [line preview] strings Hin. rewrite Forall_forall in Hnone.
    specialize (Hnone _ Hin). cbn in Hnone. by subst preview.
Qed.

(** X6.  Without a file list the printout comes out exactly when the tree
    is not nested deeper than the interpreter allows nested calls; on a
    deeper tree it raises RecursionError.  It has one line for each file and
    each folder below the folder, at any depth.  Every line starts with the
    text of the placeholder, [{fid:04d}] or [{folder.firstID:04d}], as the
    source writes it in a plain string: the printout shows no ID.
    [str(folder)] is these lines joined by newlines. *)
Theorem strList_without_previews (limit : nat) (self : Folder) (indent : Z) :
  ((depth self <= limit)%nat ->
   exists lines,
     _strList limit self indent None = Return lines /\
     length lines = entries self /\
     Forall placeholder_line lines /\
     exists lines0,
       _strList limit self 0 None = Return lines0 /\
       __str__ limit self = Return (join (String "010" EmptyString) lines0)) /\
  ((limit < depth self)%nat ->
   _strList limit self indent None = Throw (Builtin RecursionError) /\
   __str__ limit self = Throw (Builtin RecursionError)).
Proof.
  split.
  - intros Hd.
    destruct (strListUncombined_plain limit self indent) as [Hok _].
    destruct (Hok Hd) as (L & HL & Hlen & Hall).
    exists L.*1. split; [|split; [|split]].
    + apply strList_of_plain; [done|]. eapply Forall_impl; [exact Hall|]. by intros ? [_ ?].
    + by rewrite length_fmap.
    + apply Forall_fmap. eapply Forall_impl; [exact Hall|]. by intros ? [? _].
    + destruct (strListUncombined_plain limit self 0) as [Hok0 _].
      destruct (Hok0 Hd) as (L0 & HL0 & _ & Hall0).
      exists L0.*1. unfold __str__.
      rewrite (strList_of_plain limit self 0 None L0 HL0)
        by (eapply Forall_impl; [exact Hall0|]; by intros ? [_ ?]).
      done.
  - intros Hd. unfold __str__, _strList.
    destruct (strListUncombined_plain limit self indent) as [_ ->]; [|done].
    by destruct (strListUncombined_plain limit self 0) as [_ ->].
Qed.

Lemma strList_without_previews_witness :
  (exists lines, _strList 3 tree_abc 0 None = Return lines /\ length lines = 5%nat) /\
  __str__ 2 tree_abc = Throw (Builtin RecursionError).
Proof.
  destruct (strList_without_previews 3 tree_abc 0) as [Hok _].
  destruct (strList_without_previews 2 tree_abc 0) as [_ Hdeep].
  split.
  - destruct Hok as (lines & Hl & Hlen & _); [vm_compute; lia|].
    exists lines. split; [exact Hl|exact Hlen].
  - apply Hdeep. vm_compute. lia.
Defined.

(** With a file list: the pass over the files of one folder. *)
Lemma file_pass_preview fid indentStr (fileList : list (list byte))
    (l : list (Z * string)) acc :
  let body := fun '(i, fileName) (L : list (string * option string)) =>
    preview <--
      (if fid + i >=? len fileList then Return None
       else preview <-- _common_shortBytesRepr ;; Return (Some preview)) ;;
    Return (L ++ [("{fid:04d}" +:+ indentStr +:+ fileName, preview)]) in
  (Forall (fun p => len fileList <= fid + p.1) l ->
   each l body acc = Return (acc ++ (file_line indentStr None <$> l))) /\
  (Exists (fun p => fid + p.1 < len fileList) l -> each l body acc = Throw NameError).
Proof.
  intros body. split.
  - intros Hall. rewrite <- file_pass_plain. apply each_ext. intros [i fileName] L Hin.
    rewrite Forall_forall in Hall. specialize (Hall _ Hin). cbn in Hall.
    unfold body. rewrite Z.geb_leb. by rewrite (proj2 (Z.leb_le _ _) Hall).
  - intros Hex. apply each_throw.
    + intros [i fileName] L _. unfold body.
      destruct (fid + i >=? len fileList); cbn; eauto.
    + eapply Exists_impl; [exact Hex|]. intros [i fileName] Hlt L. cbn in Hlt.
      unfold body. rewrite Z.geb_leb. by rewrite (proj2 (Z.leb_gt _ _) Hlt).
Qed.

Lemma below_or_not (fileList : list (list byte)) (l : list Z) :
  Exists (fun id => id < len fileList) l \/ Forall (fun id => len fileList <= id) l.
Proof.
  induction l as [|id l [IH|IH]].
  - right. constructor.
  - left. by apply Exists_cons_tl.
  - destruct (Z.lt_ge_cases id (len fileList)).
    + left. by apply Exists_cons_hd.
    + right. by constructor.
Qed.

Lemma Exists_not_Forall (fileList : list (list byte)) (l : list Z) :
  Exists (fun id => id < len fileList) l -> Forall (fun id => len fileList <= id) l ->
  False.
Proof.
  intros Hex Hall. apply Exists_exists in Hex as (id & Hin & Hlt).
  rewrite Forall_forall in Hall. specialize (Hall id Hin). lia.
Qed.

Lemma strListUncombined_preview limit (fileList : list (list byte)) :
  forall self indent,
    ((depth self <= limit)%nat ->
     Exists (fun id => id < len fileList) (file_ids self) ->
     _strListUncombined limit self indent (Some fileList) = Throw NameError) /\
    (Exists (fun id => id < len fileList) (file_ids self) ->
     forall L, _strListUncombined limit self indent (Some fileList) <> Return L) /\
    (Forall (fun id => len fileList <= id) (file_ids self) ->
     _strListUncombined limit self indent (Some fileList)
     = _strListUncombined limit self indent None).
Proof.
  induction limit as [|limit IH]; intros [fs fl fid] indent.
  - split; [cbn [depth]; lia|]. split; [done|done].
  - destruct (file_pass_preview fid (spaces (indent + 1)) fileList (enumerate fl) [])
      as [Hsame Hthrow].
    cbn zeta in Hsame, Hthrow.
    cbn [_strListUncombined file_ids depth files folders firstID].
    rewrite file_pass_plain.
    destruct (below_or_not fileList ((fun i => fid + i) <$> seqZ 0 (len fl)))
      as [Hhere|Hnot].
    { (* a file of this folder has its ID in the list *)
      rewrite Hthrow.
      2:{ rewrite <- enumerate_fst, <- list_fmap_compose in Hhere.
          rewrite Exists_fmap in Hhere. exact Hhere. }
      split; [done|]. split; [done|]. intros Hall. exfalso.
      apply Forall_app in Hall as [Hall _].
      exact (Exists_not_Forall _ _ Hhere Hall). }
    rewrite Hsame.
    2:{ rewrite <- enumerate_fst, <- list_fmap_compose in Hnot.
        rewrite Forall_fmap in Hnot. exact Hnot. }
    cbn [andThen app].
    generalize (file_line (spaces (indent + 1)) None <$> enumerate fl). intros acc.
    revert acc.
    induction fs as [|[folderName folder] fs IHfs]; intros acc.
    + rewrite app_nil_r.
      split; [intros _ Hex; destruct (Exists_not_Forall _ _ Hex Hnot)|].
      split; [intros Hex; destruct (Exists_not_Forall _ _ Hex Hnot)|done].
    + destruct (IH folder (indent + 4)) as (IHthrow & IHnever & IHsame).
      destruct (strListUncombined_plain limit folder (indent + 4)) as [Hplain _].
      assert (Hrest : forall P : Z -> Prop,
                Exists P (((fun i => fid + i) <$> seqZ 0 (len fl)) ++
                          file_ids folder ++
                          (fix below (fs : list (string * Folder)) : list Z :=
                             match fs with
                             | [] => []
                             | (_, f) :: fs' => file_ids f ++ below fs'
                             end) fs) ->
                ~ Exists P (file_ids folder) ->
                Exists P (((fun i => fid + i) <$> seqZ 0 (len fl)) ++
                          (fix below (fs : list (string * Folder)) : list Z :=
                             match fs with
                             | [] => []
                             | (_, f) :: fs' => file_ids f ++ below fs'
                             end) fs)).
      { intros P Hex Hno.
        apply Exists_app in Hex as [Hex|Hex]; [apply Exists_app; by left|].
        apply Exists_app in Hex as [Hex|Hex]; [done|apply Exists_app; by right]. }
      split; [|split].
      * intros Hd Hex. destruct (below_or_not fileList (file_ids folder)) as [Hf|Hf].
        -- rewrite (IHthrow ltac:(lia) Hf). done.
        -- rewrite (IHsame Hf). destruct Hplain as (sub & -> & _); [lia|].
           cbn [andThen].
           destruct (IHfs ((acc ++ [("{folder.firstID:04d}" +:+ spaces (indent + 1)
                                       +:+ folderName +:+ "/", None)]) ++ sub))
             as (IHt & _ & _).
           apply IHt; [lia|]. apply Hrest; [done|].
           intros Hf'. exact (Exists_not_Forall _ _ Hf' Hf).
      * intros Hex L.
        destruct (_strListUncombined limit folder (indent + 4) (Some fileList))
          as [sub| |] eqn:Hsub; cbn [andThen]; [|done..].
        destruct (IHfs ((acc ++ [("{folder.firstID:04d}" +:+ spaces (indent + 1)
                                    +:+ folderName +:+ "/", None)]) ++ sub))
          as (_ & IHn & _).
        apply IHn. apply Hrest; [done|]. intros Hf. by apply (IHnever Hf sub).
      * intros Hall.
        apply Forall_app in Hall as [H1 H2]. apply Forall_app in H2 as [H2 H3].
        rewrite (IHsame H2).
        destruct (_strListUncombined limit folder (indent + 4) None) as [sub| |];
          cbn [andThen]; [|done..].
        destruct (IHfs ((acc ++ [("{folder.firstID:04d}" +:+ spaces (indent + 1)
                                    +:+ folderName +:+ "/", None)]) ++ sub))
          as (_ & _ & IHs).
        apply IHs. apply Forall_app. by split.
Qed.

(** X7.  With a file list the printout never shows a preview.  When the
    ID of some file below the folder is less than the length of the list,
    the printout does not come out: on a tree that is not nested deeper
    than the interpreter allows nested calls it raises NameError, for the
    name [_common] that the module does not bind.  When no ID is, the
    printout is the one without a file list. *)
Theorem strList_with_file_list (limit : nat) (self : Folder) (indent : Z)
    (fileList : list (list byte)) :
  (Exists (fun id => id < len fileList) (file_ids self) ->
   (forall lines, _strList limit self indent (Some fileList) <> Return lines) /\
   ((depth self <= limit)%nat ->
    _strListUncombined limit self indent (Some fileList) = Throw NameError /\
    _strList limit self indent (Some fileList) = Throw NameError)) /\
  (Forall (fun id => len fileList <= id) (file_ids self) ->
   _strListUncombined limit self indent (Some fileList)
   = _strListUncombined limit self indent None /\
   _strList limit self indent (Some fileList) = _strList limit self indent None).
Proof.
  destruct (strListUncombined_preview limit fileList self indent)
    as (Hthrow & Hnever & Hsame).
  split.
  - intros Hex. split.
    + intros lines. unfold _strList.
      destruct (_strListUncombined limit self indent (Some fileList)) as [L| |] eqn:HL;
        cbn [andThen]; [|done..].
      by destruct (Hnever Hex L).
    + intros Hd. split; [auto|]. unfold _strList. by rewrite (Hthrow Hd Hex).
  - intros Hall. split; [auto|]. unfold _strList. by rewrite (Hsame Hall).
Qed.

Lemma strList_with_file_list_witness :
  _strList 3 tree_abc 0 (Some [[x0a]]) = Throw NameError /\
  _strList 1 (mkFolder [] ["c.txt"%string] 2) 0 (Some [[x0a]; [x0b]])
  = Return ["{fid:04d} c.txt"%string].
Proof.
  destruct (strList_with_file_list 3 tree_abc 0 [[x0a]]) as [Hthrow _].
  destruct (strList_with_file_list 1 (mkFolder [] ["c.txt"%string] 2) 0 [[x0a]; [x0b]])
    as [_ Hsame].
  split.
  - apply Hthrow; [apply Exists_cons_hd; reflexivity|vm_compute; lia].
  - etrans; [apply Hsame|reflexivity].
    apply Forall_cons_2; [|apply Forall_nil_2]. vm_compute. discriminate.
Defined.

End FolderProps.

(** ** The decoder [load] of the filename table *)

Module LoadProps.
Import Fnt FntSpec FntFacts TreeSpec RomSpec RomFacts Samples MoreSamples.

(** *** Bytes and integers *)

Lemma byte_val_range b : 0 <= byte_val b < 256.
Proof. unfold byte_val. pose proof (Byte.to_N_bounded b). lia. Qed.

Lemma le_int_bound bs : 0 <= le_int bs < 256 ^ len bs.
Proof.
  induction bs as [|b bs IH]; [by cbn|].
  cbn [le_int]. rewrite len_cons, Z.pow_add_r by (pose proof (len_nonneg bs); lia).
  pose proof (byte_val_range b). lia.
Qed.

Lemma field_bound data off w : 0 <= off -> 0 <= w -> 0 <= field data off w < 256 ^ w.
Proof.
  intros Hoff Hw. unfold field.
  pose proof (le_int_bound (slice data off (off + w))) as [H0 H1].
  split; [done|]. eapply Z.lt_le_trans; [exact H1|].
  apply Z.pow_le_mono_r; [lia|].
  pose proof (len_slice_le data off (off + w) Hoff ltac:(lia)). lia.
Qed.

Lemma byte_val_of_Z v : 0 <= v < 256 -> byte_val (byte_of_Z v) = v.
Proof.
  intros Hv. unfold byte_of_Z, byte_val. rewrite Z.mod_small by done.
  destruct (Byte.of_N (Z.to_N v)) as [b|] eqn:Hb.
  - apply Byte.to_of_N in Hb. lia.
  - apply Byte.of_N_None_iff in Hb. lia.
Qed.

Lemma le_int_le_bytes n v : 0 <= v < 256 ^ Z.of_nat n -> le_int (le_bytes n v) = v.
Proof.
  revert v. induction n as [|n IH]; intros v Hv.
  - cbn in *. lia.
  - cbn [le_bytes le_int]. rewrite Nat2Z.inj_succ, Z.pow_succ_r in Hv by lia.
    rewrite IH by (split; [apply Z.div_pos; lia|apply Z.div_lt_upper_bound; lia]).
    unfold byte_of_Z, byte_val.
    pose proof (Z.mod_pos_bound v 256 ltac:(lia)).
    destruct (Byte.of_N (Z.to_N (v mod 256))) as [b|] eqn:Hb.
    + apply Byte.to_of_N in Hb. rewrite Hb, Z2N.id by lia.
      pose proof (Z.div_mod v 256 ltac:(lia)). lia.
    + apply Byte.of_N_None_iff in Hb. lia.
Qed.

Lemma length_le_bytes n v : length (le_bytes n v) = n.
Proof. revert v. induction n as [|n IH]; intros v; cbn; [done|]. by rewrite IH. Qed.

(** The two parts of a control byte. *)
Lemma control_bits (b : byte) :
  0 <= Z.land (byte_val b) 0x7F <= 127 /\
  (byte_val b <> 0 -> Z.land (byte_val b) 0x80 = 0 ->
   Z.land (byte_val b) 0x7F = byte_val b /\ 1 <= byte_val b) /\
  (1 <= byte_val b <= 127 ->
   Z.land (byte_val b) 0x80 = 0 /\ Z.land (byte_val b) 0x7F = byte_val b).
Proof.
  destruct b; cbn;
    repeat match goal with
    | |- context [Z.land ?a ?b] =>
        let v := eval vm_compute in (Z.land a b) in change (Z.land a b) with v
    end; lia.
Qed.

Lemma strlen_decode bs : strlen (decode_latin1 bs) = len bs.
Proof.
  unfold strlen, decode_latin1, len. f_equal.
  induction bs as [|b bs IH]; cbn; [done|]. by f_equal.
Qed.

Lemma len_encode s : len (encode_latin1 s) = strlen s.
Proof.
  unfold strlen, encode_latin1, len. f_equal.
  induction s as [|c s IH]; cbn; [done|]. by f_equal.
Qed.

Lemma decode_encode s : decode_latin1 (encode_latin1 s) = s.
Proof. apply string_of_list_byte_of_string. Qed.

(** *** Reads of the table *)

Lemma unpack_bytes_inv n buf off bs :
  0 <= n -> 0 <= off -> unpack_bytes n buf off = Ok bs ->
  off + n <= len buf /\ bs = slice buf off (off + n).
Proof.
  intros Hn Hoff H. pose proof (unpack_bytes_ok_inv n buf off bs Hoff H) as Hle.
  split; [done|]. rewrite unpack_bytes_ok in H by done. congruence.
Qed.

Lemma unpack_raises n buf off e : unpack_bytes n buf off = Raise e -> e = StructError.
Proof. unfold unpack_bytes. destruct (_ && _); congruence. Qed.

Lemma unpack_ends n buf off : unpack_bytes n buf off <> OutOfFuel.
Proof. unfold unpack_bytes. by destruct (_ && _). Qed.

Lemma slice_one (buf : list byte) off :
  0 <= off -> off + 1 <= len buf -> exists b, slice buf off (off + 1) = [b].
Proof.
  intros. destruct (getitem_ok buf off) as (b & _ & Hb); [lia..|]. eauto.
Qed.

(** The control byte: where it is read, and that it is one byte. *)
Lemma unpack_B_inv buf off c :
  0 <= off -> unpack_B buf off = Ok c ->
  off + 1 <= len buf /\ exists b, slice buf off (off + 1) = [b] /\ c = byte_val b.
Proof.
  intros Hoff H. unfold unpack_B in H. apply bind_ok_inv in H as (bs & Hbs & [= <-]).
  apply unpack_bytes_inv in Hbs as [Hle ->]; [|lia..]. split; [done|].
  destruct (slice_one buf off Hoff Hle) as (b & Hb). exists b. rewrite Hb.
  split; [done|]. cbn. lia.
Qed.

Lemma unpack_B_at pre b rest : unpack_B (pre ++ b :: rest) (len pre) = Ok (byte_val b).
Proof.
  pose proof (len_nonneg pre). pose proof (len_nonneg rest).
  unfold unpack_B. rewrite unpack_bytes_ok by (rewrite ?len_app, ?len_cons; lia).
  rewrite slice_app_at by lia. change (take (Z.to_nat 1) (b :: rest)) with [b].
  cbn [bind le_int]. f_equal. lia.
Qed.

Lemma unpack_H_inv buf off v :
  0 <= off -> unpack_H buf off = Ok v -> off + 2 <= len buf /\ v = field buf off 2.
Proof.
  intros Hoff H. unfold unpack_H in H. apply bind_ok_inv in H as (bs & Hbs & [= <-]).
  by apply unpack_bytes_inv in Hbs as [Hle ->]; [|lia..].
Qed.

Lemma unpack_IH_ok buf off :
  0 <= off -> off + 6 <= len buf ->
  unpack_IH buf off = Ok (field buf off 4, field buf (off + 4) 2).
Proof.
  intros. unfold unpack_IH, field. rewrite unpack_bytes_ok by lia. cbn [bind].
  rewrite !slice_nonneg by lia. do 3 f_equal.
  - rewrite take_take. f_equal. lia.
  - rewrite skipn_firstn_comm, drop_drop.
    replace (Z.to_nat (off + 6 - off) - 4)%nat with (Z.to_nat (off + 4 + 2 - (off + 4)))
      by lia.
    do 2 f_equal. lia.
Qed.

Lemma unpack_IH_inv buf off a b :
  0 <= off -> unpack_IH buf off = Ok (a, b) ->
  off + 6 <= len buf /\ a = field buf off 4 /\ b = field buf (off + 4) 2.
Proof.
  intros Hoff H. assert (Hle : off + 6 <= len buf).
  { unfold unpack_IH in H. apply bind_ok_inv in H as (bs & Hbs & _).
    by apply unpack_bytes_ok_inv in Hbs. }
  rewrite unpack_IH_ok in H by done. by simplify_eq.
Qed.

Lemma root_offset : 8 * Z.land 0xF000 0xFFF = 0.
Proof. reflexivity. Qed.

(** *** The exceptions of [load] *)

Lemma loadFolder_loop_raises (rec : Z -> result Folder) fnt fuel st e :
  (forall folderId e, rec folderId = Raise e -> e = StructError \/ e = RecursionError) ->
  while fuel (loadFolder_pass rec fnt) st = Raise e ->
  e = StructError \/ e = RecursionError.
Proof.
  intros Hrec. revert st. induction fuel as [|fuel IH]; intros [off folderObj]; [done|].
  cbn [while loadFolder_pass].
  destruct (unpack_B fnt off) as [control|e'|] eqn:Hc; cbn [bind]; [| |done].
  - destruct (control =? 0); [done|]. destruct (negb _).
    + destruct (unpack_H fnt _) as [subFolderID|e'|] eqn:Hh; cbn [bind]; [| |done].
      * destruct (rec subFolderID) as [sub|e'|] eqn:Hr; cbn [bind]; [apply IH| |done].
        intros [= <-]. eauto.
      * intros [= <-]. left. unfold unpack_H in Hh.
        destruct (unpack_bytes 2 fnt _) eqn:Hu; [done| |done].
        cbn in Hh. apply unpack_raises in Hu. congruence.
    + apply IH.
  - intros [= <-]. left. unfold unpack_B in Hc.
    destruct (unpack_bytes 1 fnt off) eqn:Hu; [done| |done].
    cbn in Hc. apply unpack_raises in Hu. congruence.
Qed.

Lemma loadFolder_raises limit fnt folderId e :
  loadFolder limit fnt folderId = Raise e -> e = StructError \/ e = RecursionError.
Proof.
  revert folderId e. induction limit as [|limit IH]; intros folderId e.
  - cbn. intros [= <-]. by right.
  - cbn [loadFolder].
    destruct (unpack_IH fnt _) as [[entriesTableOff fileID]|e'|] eqn:Hu; cbn [bind];
      [| |done].
    + apply loadFolder_loop_raises. apply IH.
    + intros [= <-]. left. unfold unpack_IH in Hu.
      destruct (unpack_bytes 6 fnt _) eqn:Hb; [done| |done].
      cbn in Hu. apply unpack_raises in Hb. congruence.
Qed.

(** X8.  [load] comes to an end on every table, and the only exceptions it
    raises are struct.error, for a read outside the table, and
    RecursionError, for folders nested deeper than the interpreter allows. *)
Theorem load_raises (limit : nat) (fnt : list byte) :
  load limit fnt <> OutOfFuel /\
  forall e, load limit fnt = Raise e -> e = StructError \/ e = RecursionError.
Proof. split; [apply load_ends|]. intros e. apply loadFolder_raises. Qed.

(** X9.  [load] needs the six bytes of the root entry and the first byte
    of the entries of the root: a table of fewer than six bytes, the empty
    one included, raises struct.error, and so does a table whose root entry
    gives an offset for its entries at or after the end of the table. *)
Theorem load_short_table (limit : nat) (fnt : list byte) :
  (len fnt < 6 -> load (S limit) fnt = Raise StructError) /\
  (6 <= len fnt -> len fnt <= field fnt 0 4 -> load (S limit) fnt = Raise StructError).
Proof.
  unfold load. cbn [loadFolder]. rewrite root_offset. split.
  - intros Hlen. unfold unpack_IH, unpack_bytes. pose proof (len_nonneg fnt).
    by zcases.
  - intros Hlen Hoff. rewrite unpack_IH_ok by lia. cbn [bind while loadFolder_pass].
    pose proof (field_nonneg fnt 0 4).
    unfold unpack_B, unpack_bytes. by zcases.
Qed.

Lemma load_short_table_witness :
  load 1000 [] = Raise StructError /\
  load 1000 (le_bytes 4 8 ++ le_bytes 2 0 ++ [x00; x00]) = Raise StructError.
Proof.
  split.
  - apply (proj1 (load_short_table 999 [])). reflexivity.
  - apply (proj2 (load_short_table 999 (le_bytes 4 8 ++ le_bytes 2 0 ++ [x00; x00]))).
    + vm_compute. discriminate.
    + vm_compute. discriminate.
Defined.

(** *** A folder that holds itself *)

Lemma loadFolder_self_reference fnt :
  6 <= len fnt ->
  let off := field fnt 0 4 in
  let control := field fnt off 1 in
  let len_ := Z.land control 0x7F in
  off + 1 + len_ + 2 <= len fnt ->
  Z.land control 0x80 <> 0 ->
  Z.land (field fnt (off + 1 + len_) 2) 0xFFF = 0 ->
  forall limit folderId, Z.land folderId 0xFFF = 0 ->
    loadFolder limit fnt folderId = Raise RecursionError.
Proof.
  intros Hlen off control len_ Hfit Hfolder Hsub.
  pose proof (field_nonneg fnt 0 4) as Hoff. fold off in Hoff.
  assert (0 <= len_) by (apply Z.land_nonneg; lia).
  induction limit as [|limit IH]; intros folderId Hid; [done|].
  cbn [loadFolder]. rewrite Hid, Z.mul_0_r, unpack_IH_ok by lia.
  cbn [bind while loadFolder_pass]. fold off.
  unfold unpack_B. rewrite unpack_bytes_ok by lia. cbn [bind].
  fold (field fnt off 1). fold control.
  destruct (Z.eqb_spec control 0) as [Hz|_].
  { exfalso. apply Hfolder. by rewrite Hz. }
  fold len_. rewrite (proj2 (Z.eqb_neq _ 0) Hfolder). cbn [negb].
  rewrite unpack_H_ok by lia. cbn [bind].
  by rewrite IH.
Qed.

(** X10.  [load] does not notice a folder that holds itself.  When the first
    entry of the root folder is a folder entry, whole in the table, whose
    subfolder ID has the twelve low bits zero, as the ID 0xF000 of the root
    has, [load] raises RecursionError, whatever the recursion limit. *)
Theorem load_self_reference (limit : nat) (fnt : list byte) :
  6 <= len fnt ->
  let off := field fnt 0 4 in
  let control := field fnt off 1 in
  let len_ := Z.land control 0x7F in
  off + 1 + len_ + 2 <= len fnt ->
  Z.land control 0x80 <> 0 ->
  Z.land (field fnt (off + 1 + len_) 2) 0xFFF = 0 ->
  load limit fnt = Raise RecursionError.
Proof.
  intros Hlen off control len_ Hfit Hfolder Hsub.
  by apply loadFolder_self_reference.
Qed.

Lemma load_self_reference_witness :
  len table_self_reference = 11 /\
  load 1000 table_self_reference = Raise RecursionError.
Proof.
  split; [reflexivity|].
  apply (load_self_reference 1000 table_self_reference).
  - vm_compute. discriminate.
  - vm_compute. discriminate.
  - vm_compute. discriminate.
  - reflexivity.
Defined.

(** *** What a loaded tree holds *)

Lemma loadFolder_loop_in_table (rec : Z -> result Folder) fnt fuel off folderObj r :
  0 <= off -> while fuel (loadFolder_pass rec fnt) (off, folderObj) = Ok r ->
  off + 1 <= len fnt.
Proof.
  intros Hoff. destruct fuel as [|fuel]; [done|]. cbn [while loadFolder_pass].
  destruct (unpack_B fnt off) as [control|e|] eqn:Hc; cbn [bind]; [|done..].
  intros _. by apply unpack_B_inv in Hc as [? _].
Qed.

Lemma loadFolder_loop_storable (rec : Z -> result Folder) fnt :
  (forall folderId sub, rec folderId = Ok sub -> Storable sub) ->
  forall fuel off folderObj r,
    0 <= off -> Storable folderObj ->
    while fuel (loadFolder_pass rec fnt) (off, folderObj) = Ok r ->
    Storable r.
Proof.
  intros Hrec. induction fuel as [|fuel IH]; intros off folderObj r Hoff Hobj; [done|].
  cbn [while loadFolder_pass].
  destruct (unpack_B fnt off) as [control|e|] eqn:Hc; cbn [bind]; [|done..].
  apply unpack_B_inv in Hc as (Hin & b & Hb & ->); [|done].
  destruct (control_bits b) as (Hlen & Hfile & _).
  inversion Hobj as [? Hid Hfiles Hfolders]; subst.
  destruct (Z.eqb_spec (byte_val b) 0) as [Hz|Hnz]; [by intros [= <-]|].
  set (len_ := Z.land (byte_val b) 127) in *.
  assert (Hname : strlen (decode_latin1 (slice fnt (off + 1) (off + 1 + len_))) <= 127).
  { rewrite strlen_decode.
    pose proof (len_slice_le fnt (off + 1) (off + 1 + len_) ltac:(lia) ltac:(lia)). lia. }
  destruct (Z.eqb_spec (Z.land (byte_val b) 128) 0) as [Hbit|Hbit]; cbn [negb].
  - (* a file *)
    intros Hrest. destruct (Hfile Hnz Hbit) as [Heq Hpos].
    assert (Hoff' : 0 <= off + 1 + len_) by lia.
    pose proof (loadFolder_loop_in_table _ _ _ _ _ _ Hoff' Hrest) as Hnext.
    eapply IH; [| |exact Hrest]; [lia|].
    constructor; cbn [firstID files folders]; [done| |done].
    apply Forall_app. split; [done|]. apply Forall_singleton.
    split; [|done]. rewrite strlen_decode, len_slice by lia. lia.
  - (* a folder *)
    destruct (unpack_H fnt _) as [subFolderID|e|] eqn:Hh; cbn [bind]; [|done..].
    destruct (rec subFolderID) as [sub|e|] eqn:Hsub; cbn [bind]; [|done..].
    apply IH; [lia|]. constructor; cbn [firstID files folders]; [done|done|].
    apply Forall_app. split; [done|]. apply Forall_singleton. cbn [fst snd].
    split; [done|]. by apply (Hrec subFolderID).
Qed.

Lemma loadFolder_storable limit fnt folderId d :
  loadFolder limit fnt folderId = Ok d -> Storable d.
Proof.
  revert folderId d. induction limit as [|limit IH]; intros folderId d; [done|].
  cbn [loadFolder].
  destruct (unpack_IH fnt _) as [[entriesTableOff fileID]|e|] eqn:Hu; cbn [bind]; [|done..].
  assert (0 <= 8 * Z.land folderId 4095) by (pose proof (Z.land_nonneg folderId 4095); lia).
  apply unpack_IH_inv in Hu as (_ & -> & ->); [|done].
  apply (loadFolder_loop_storable _ _ (IH)).
  - apply field_nonneg.
  - constructor; cbn [firstID files folders empty]; [|done..].
    apply (field_bound fnt (8 * Z.land folderId 4095 + 4) 2); lia.
Qed.

(** X11.  Every tree that [load] returns fits the table format: at every
    depth, the first file ID of a folder is a 16-bit number, a file name
    has 1 to 127 characters, a folder name at most 127. *)
Theorem load_storable (limit : nat) (fnt : list byte) (d : Folder) :
  load limit fnt = Ok d -> Storable d.
Proof. apply loadFolder_storable. Qed.

(** *** A table of one folder *)

Lemma length_flat_entries names : (length names <= length (flat_entries names))%nat.
Proof.
  unfold flat_entries. induction names as [|n names IH]; cbn; [lia|].
  rewrite length_app. lia.
Qed.

Lemma flat_loop (rec : Z -> result Folder) names :
  Forall (fun n => 1 <= strlen n <= 127) names ->
  forall fnt pre rest folderObj fuel,
    fnt = pre ++ flat_entries names ++ x00 :: rest ->
    (length names < fuel)%nat ->
    while fuel (loadFolder_pass rec fnt) (len pre, folderObj)
    = Ok (mkFolder (folders folderObj) (files folderObj ++ names) (firstID folderObj)).
Proof.
  induction 1 as [|n names Hn _ IH]; intros fnt pre rest folderObj fuel -> Hfuel;
    (destruct fuel as [|fuel]; [cbn in Hfuel; lia|]); cbn [while loadFolder_pass].
  - cbn [flat_entries fmap list_fmap concat app]. rewrite unpack_B_at. cbn [bind].
    change (byte_val x00 =? 0) with true. cbn iota.
    destruct folderObj. by rewrite app_nil_r.
  - unfold flat_entries. cbn [fmap list_fmap concat]. fold (flat_entries names).
    rewrite <- !app_assoc. cbn [app]. rewrite unpack_B_at. cbn [bind].
    pose proof (byte_val_of_Z (strlen n) ltac:(lia)) as Hctl.
    destruct (control_bits (byte_of_Z (strlen n))) as (_ & _ & Hbits).
    rewrite Hctl in Hbits |- *. destruct (Hbits Hn) as [-> ->].
    destruct (Z.eqb_spec (strlen n) 0) as [?|_]; [lia|].
    change (negb (0 =? 0)) with false. cbn iota.
    set (ctl := byte_of_Z (strlen n)).
    assert (Hslice :
      slice (pre ++ ctl :: encode_latin1 n ++ flat_entries names ++ x00 :: rest)
            (len pre + 1) (len pre + 1 + strlen n) = encode_latin1 n).
    { replace (len pre + 1) with (len (pre ++ [ctl])) by (rewrite len_app; done).
      rewrite (cons_middle ctl), app_assoc, slice_app_at by lia.
      rewrite take_app_length'; [done|]. pose proof (len_encode n). unfold len in *. lia. }
    rewrite Hslice, decode_encode.
    replace (len pre + 1 + strlen n) with (len (pre ++ ctl :: encode_latin1 n))
      by (rewrite len_app, len_cons, len_encode; lia).
    rewrite (IH _ (pre ++ ctl :: encode_latin1 n) rest).
    + cbn [folders files firstID]. by rewrite <- app_assoc.
    + by rewrite <- app_assoc.
    + cbn in Hfuel. lia.
Qed.

Lemma flat_table_loads (limit : nat) (firstID : Z) (parent rest : list byte)
    (names : list string) :
  0 <= firstID < 65536 -> length parent = 2%nat ->
  Forall (fun n => 1 <= strlen n <= 127) names ->
  load (S limit) (flat_table firstID parent names ++ rest) = Ok (mkFolder [] names firstID).
Proof.
  intros Hid Hparent Hnames. unfold load, flat_table. cbn [loadFolder].
  rewrite root_offset.
  set (fnt := (le_bytes 4 8 ++ _) ++ rest).
  assert (Hfnt : fnt = (le_bytes 4 8 ++ le_bytes 2 firstID ++ parent)
                         ++ flat_entries names ++ x00 :: rest).
  { unfold fnt. by rewrite <- !app_assoc. }
  assert (Hpre : len (le_bytes 4 8 ++ le_bytes 2 firstID ++ parent) = 8).
  { unfold len. rewrite !length_app, !length_le_bytes, Hparent. done. }
  assert (Hlen : 8 < len fnt).
  { rewrite Hfnt, len_app, Hpre, len_app, len_cons.
    pose proof (len_nonneg (flat_entries names)). pose proof (len_nonneg rest). lia. }
  rewrite unpack_IH_ok by lia. cbn [bind].
  assert (Hoff : field fnt 0 4 = 8).
  { unfold field. rewrite Hfnt, <- !app_assoc.
    match goal with
    | |- context [slice ?l 0 (0 + 4)] =>
        change (slice l 0 (0 + 4))
          with (slice ([] ++ l) (len (@nil byte)) (len (@nil byte) + 4))
    end.
    rewrite slice_app_at by lia.
    rewrite take_app_length' by (by rewrite length_le_bytes).
    by rewrite le_int_le_bytes. }
  assert (Hfid : field fnt (0 + 4) 2 = firstID).
  { unfold field. rewrite Hfnt, <- !app_assoc.
    replace (0 + 4) with (len (le_bytes 4 8)) by reflexivity.
    rewrite slice_app_at by lia.
    rewrite take_app_length' by (by rewrite length_le_bytes).
    apply le_int_le_bytes. change (256 ^ Z.of_nat 2) with 65536. lia. }
  rewrite Hoff, Hfid, <- Hpre.
  rewrite (flat_loop _ names Hnames fnt _ rest _ _ Hfnt).
  - done.
  - pose proof (length_flat_entries names).
    assert (length (flat_entries names) < length fnt)%nat; [|lia].
    rewrite Hfnt, !length_app. cbn [length]. lia.
Qed.

(** X12.  [load] on a table of one folder: the root entry, any two bytes in
    the place of the parent ID, the names each after its length byte, the
    zero byte, and any bytes after it.  For names of 1 to 127 characters
    and a 16-bit first ID, [load] returns the folder with these names, in
    order, that first ID and no subfolder. *)
Theorem load_flat_table (limit : nat) (firstID : Z) (parent rest : list byte)
    (names : list string) :
  0 <= firstID < 65536 -> length parent = 2%nat ->
  Forall (fun n => 1 <= strlen n <= 127) names ->
  load (S limit) (flat_table firstID parent names ++ rest) = Ok (mkFolder [] names firstID).
Proof. apply flat_table_loads. Qed.

Lemma load_flat_table_witness :
  load 1000 (flat_table 5 [xff; xff] ["a"%string; "bc"%string] ++ [x07])
  = Ok (mkFolder [] ["a"%string; "bc"%string] 5).
Proof.
  apply (load_flat_table 999 5 [xff; xff] [x07] ["a"%string; "bc"%string]).
  - lia.
  - reflexivity.
  - repeat (apply Forall_cons_2; [vm_compute; split; discriminate|]). apply Forall_nil_2.
Defined.

(** X13.  Decoding and then looking up: in the folder that [load] returns
    for a table of one folder with pairwise distinct names, a name without
    a separator has the ID that the table gives it, the first ID plus its
    position among the names.  Each of the two takes one call of its inner
    function. *)
Theorem lookup_in_flat_table (limit limit' : nat) (firstID : Z) (parent rest : list byte)
    (names : list string) (i : nat) (name : string) :
  0 <= firstID < 65536 -> length parent = 2%nat ->
  Forall (fun n => 1 <= strlen n <= 127) names ->
  NoDup names -> names !! i = Some name -> plain name ->
  (d <- load (S limit) (flat_table firstID parent names ++ rest) ;;
   idOf (S limit') d name)
  = Ok (Some (firstID + Z.of_nat i)).
Proof.
  intros Hid Hparent Hnames Hnd Hi Hplain.
  rewrite flat_table_loads by done. cbn [bind].
  assert (Hne : name <> EmptyString).
  { intros ->. rewrite Forall_forall in Hnames.
    specialize (Hnames EmptyString (list_elem_of_lookup_2 _ _ _ Hi)).
    change (strlen EmptyString) with 0 in Hnames. lia. }
  destruct (FolderProps.idOf_plain limit' (mkFolder [] names firstID) name Hne Hplain)
    as [Hin _].
  destruct Hin as (j & -> & Hj & _); [by apply (list_elem_of_lookup_2 _ i)|].
  cbn [files Fnt.firstID] in *. by rewrite (NoDup_lookup _ _ _ _ Hnd Hj Hi).
Qed.

Lemma lookup_in_flat_table_witness :
  (d <- load 1000 (flat_table 5 [xff; xff] ["a"%string; "bc"%string] ++ [x07]) ;;
   idOf 1000 d "bc")
  = Ok (Some 6).
Proof.
  apply (lookup_in_flat_table 999 999 5 [xff; xff] [x07] ["a"%string; "bc"%string] 1 "bc").
  - lia.
  - reflexivity.
  - repeat (apply Forall_cons_2; [vm_compute; split; discriminate|]). apply Forall_nil_2.
  - apply (bool_decide_unpack _). reflexivity.
  - reflexivity.
  - intros [H|[H|[]]]; discriminate H.
Defined.

Lemma load_storable_witness :
  exists d,
    load 1000 (flat_table 5 [xff; xff] ["a"%string; "bc"%string]) = Ok d /\ Storable d.
Proof.
  destruct (load 1000 (flat_table 5 [xff; xff] ["a"%string; "bc"%string]))
    as [d|e|] eqn:Hd; [|vm_compute in Hd; discriminate..].
  exists d. split; [reflexivity|]. exact (load_storable _ _ _ Hd).
Defined.

(** *** The table and the tree *)

Lemma control_bits_folder (b : byte) :
  (byte_val b < 128 -> Z.land (byte_val b) 0x80 = 0) /\
  (128 <= byte_val b ->
   Z.land (byte_val b) 0x80 = 0x80 /\ Z.land (byte_val b) 0x7F = byte_val b - 128).
Proof.
  destruct b; cbn;
    repeat match goal with
    | |- context [Z.land ?a ?b] =>
        let v := eval vm_compute in (Z.land a b) in change (Z.land a b) with v
    end; lia.
Qed.

Lemma unpack_B_ok buf off :
  0 <= off -> off + 1 <= len buf -> unpack_B buf off = Ok (field buf off 1).
Proof. intros. unfold unpack_B. by rewrite unpack_bytes_ok by lia. Qed.

Lemma field_byte (buf : list byte) off :
  0 <= off -> off + 1 <= len buf -> exists b, field buf off 1 = byte_val b.
Proof.
  intros Hoff Hin. destruct (slice_one buf off Hoff Hin) as (b & Hb).
  exists b. unfold field. rewrite Hb. cbn. lia.
Qed.

Lemma field_nonzero_in (buf : list byte) off :
  0 <= off -> field buf off 1 <> 0 -> off + 1 <= len buf.
Proof.
  intros Hoff Hnz. destruct (Z.le_gt_cases (off + 1) (len buf)) as [?|Hout]; [done|].
  exfalso. apply Hnz. unfold field.
  assert (Hnil : slice buf off (off + 1) = []).
  { apply length_zero_iff_nil.
    pose proof (len_slice buf off (off + 1) Hoff ltac:(lia)) as Hl. unfold len in *. lia. }
  by rewrite Hnil.
Qed.

Lemma encode_decode bs : encode_latin1 (decode_latin1 bs) = bs.
Proof. apply list_byte_of_string_of_list_byte. Qed.

Lemma depth_below fs n :
  ((fix below (fs : list (string * Folder)) : nat :=
      match fs with
      | [] => 0%nat
      | (_, f) :: fs' => Nat.max (depth f) (below fs')
      end) fs <= n)%nat <->
  Forall (fun p => (depth p.2 <= n)%nat) fs.
Proof.
  induction fs as [|[nm f] fs IH].
  - split; [constructor|lia].
  - rewrite Forall_cons, <- IH. cbn [snd]. lia.
Qed.

Lemma depth_folders d n :
  (depth d <= S n)%nat <-> Forall (fun p => (depth p.2 <= n)%nat) (folders d).
Proof. destruct d as [fs fl fid]. cbn [depth folders]. rewrite <- depth_below. lia. Qed.

Lemma depth_pos d : (1 <= depth d)%nat.
Proof. destruct d. cbn [depth]. lia. Qed.

(** What the table holds, [load] returns. *)
Lemma Holds_loads fnt folderId d :
  Holds fnt folderId d ->
  forall limit, (depth d <= limit)%nat -> loadFolder limit fnt folderId = Ok d.
Proof.
  revert folderId d.
  apply (Holds_Entries_ind fnt
    (fun folderId d =>
       forall limit, (depth d <= limit)%nat -> loadFolder limit fnt folderId = Ok d)
    (fun off fl fs =>
       forall limit' folderObj fuel,
         0 <= off -> Forall (fun p => (depth p.2 <= limit')%nat) fs ->
         Z.max 0 (len fnt - off) < Z.of_nat fuel ->
         while fuel (loadFolder_pass (loadFolder limit' fnt) fnt) (off, folderObj)
         = Ok (mkFolder (folders folderObj ++ fs) (files folderObj ++ fl)
                        (firstID folderObj)))).
  - (* the entry of a folder *)
    intros folderId d Hin Hfid _ IH limit Hdepth.
    destruct limit as [|limit']; [pose proof (depth_pos d); lia|].
    assert (0 <= 8 * Z.land folderId 4095)
      by (pose proof (Z.land_nonneg folderId 4095); lia).
    cbn [loadFolder]. rewrite unpack_IH_ok by lia. cbn [bind]. rewrite Hfid.
    rewrite (IH limit').
    + by destruct d.
    + apply field_nonneg.
    + by apply depth_folders.
    + pose proof (field_nonneg fnt (8 * Z.land folderId 4095) 4). unfold len. lia.
  - (* the end of the entries *)
    intros off Hin Hz limit' folderObj fuel Hoff _ Hfuel.
    destruct fuel as [|fuel]; [lia|]. cbn [while loadFolder_pass].
    rewrite unpack_B_ok, Hz by done. cbn [bind]. change (0 =? 0) with true. cbn iota.
    destruct folderObj. by rewrite !app_nil_r.
  - (* a file entry *)
    intros off name fl fs Hlen Hctl Hname _ IH limit' folderObj fuel Hoff Hdepth Hfuel.
    assert (Hin : off + 1 <= len fnt) by (apply field_nonzero_in; [done|lia]).
    destruct fuel as [|fuel]; [lia|]. cbn [while loadFolder_pass].
    rewrite unpack_B_ok, Hctl by done. cbn [bind].
    destruct (field_byte fnt off Hoff Hin) as (b & Hb). rewrite Hctl in Hb.
    destruct (control_bits b) as (_ & _ & Hbits). rewrite <- Hb in Hbits.
    destruct (Hbits Hlen) as [-> ->].
    destruct (Z.eqb_spec (strlen name) 0) as [?|_]; [lia|].
    change (negb (0 =? 0)) with false. cbn iota.
    rewrite Hname, decode_encode, (IH limit'); [|lia|done|lia].
    cbn [folders files firstID]. by rewrite <- app_assoc.
  - (* a folder entry *)
    intros off name subFolderID sub fl fs Hlen Hctl Hname Hfit Hid _ IHsub _ IH
      limit' folderObj fuel Hoff Hdepth Hfuel.
    pose proof (len_nonneg (encode_latin1 name)) as Hpos. rewrite len_encode in Hpos.
    destruct fuel as [|fuel]; [lia|]. cbn [while loadFolder_pass].
    rewrite unpack_B_ok, Hctl by lia. cbn [bind].
    destruct (field_byte fnt off Hoff ltac:(lia)) as (b & Hb). rewrite Hctl in Hb.
    destruct (control_bits_folder b) as (_ & Hbits). rewrite <- Hb in Hbits.
    destruct (Hbits ltac:(lia)) as [-> ->].
    destruct (Z.eqb_spec (128 + strlen name) 0) as [?|_]; [lia|].
    change (negb (128 =? 0)) with true. cbn iota.
    replace (128 + strlen name - 128) with (strlen name) by lia.
    rewrite Hname, decode_encode, unpack_H_ok, Hid by lia. cbn [bind].
    apply Forall_cons in Hdepth as [Hsub Hdepth]. cbn [snd] in Hsub.
    rewrite (IHsub limit' Hsub). cbn [bind].
    rewrite (IH limit'); [|lia|done|lia].
    cbn [folders files firstID]. by rewrite <- app_assoc.
Qed.

(** What [load] returns, the table holds. *)
Lemma loadFolder_loop_holds (rec : Z -> result Folder) fnt n :
  (forall folderId sub, rec folderId = Ok sub ->
     Holds fnt folderId sub /\ (depth sub <= n)%nat) ->
  forall fuel off folderObj r,
    0 <= off ->
    while fuel (loadFolder_pass rec fnt) (off, folderObj) = Ok r ->
    exists fl fs,
      r = mkFolder (folders folderObj ++ fs) (files folderObj ++ fl) (firstID folderObj) /\
      Entries fnt off fl fs /\
      Forall (fun p => (depth p.2 <= n)%nat) fs.
Proof.
  intros Hrec. induction fuel as [|fuel IH]; intros off folderObj r Hoff; [done|].
  cbn [while loadFolder_pass].
  destruct (unpack_B fnt off) as [control|e|] eqn:Hc; cbn [bind]; [|done..].
  apply unpack_B_inv in Hc as (Hin & b & Hb & ->); [|done].
  assert (Hfield : field fnt off 1 = byte_val b).
  { unfold field. rewrite Hb. cbn. lia. }
  destruct (control_bits b) as (Hlen & Hfile & _).
  destruct (control_bits_folder b) as (Hsmall & Hfolder).
  pose proof (byte_val_range b) as Hrange.
  destruct (Z.eqb_spec (byte_val b) 0) as [Hz|Hnz].
  { intros [= <-]. exists [], []. destruct folderObj. rewrite !app_nil_r.
    split; [done|]. split; [|constructor]. apply Entries_end; [done|]. by rewrite Hfield. }
  set (len_ := Z.land (byte_val b) 127) in *.
  set (name := decode_latin1 (slice fnt (off + 1) (off + 1 + len_))).
  destruct (Z.eqb_spec (Z.land (byte_val b) 128) 0) as [Hbit|Hbit]; cbn [negb].
  - (* a file *)
    intros Hrest. destruct (Hfile Hnz Hbit) as [Heq Hpos].
    assert (Hoff' : 0 <= off + 1 + len_) by lia.
    pose proof (loadFolder_loop_in_table _ _ _ _ _ _ Hoff' Hrest) as Hnext.
    assert (Hstrlen : strlen name = len_).
    { unfold name. rewrite strlen_decode, len_slice by lia. lia. }
    apply IH in Hrest as (fl & fs & -> & Hentries & Hdepth); [|done].
    exists (name :: fl), fs. cbn [folders files firstID]. rewrite <- app_assoc.
    split; [done|]. split; [|done].
    apply Entries_file; rewrite ?Hstrlen; [lia|lia| |done].
    unfold name. by rewrite encode_decode.
  - (* a folder *)
    destruct (unpack_H fnt _) as [subFolderID|e|] eqn:Hh; cbn [bind]; [|done..].
    apply unpack_H_inv in Hh as [Hfit ->]; [|lia].
    destruct (rec _) as [sub|e|] eqn:Hsub; cbn [bind]; [|done..].
    apply Hrec in Hsub as [Hholds Hdsub].
    intros Hrest. apply IH in Hrest as (fl & fs & -> & Hentries & Hdepth); [|lia].
    assert (128 <= byte_val b).
    { destruct (Z.lt_ge_cases (byte_val b) 128) as [Hlt|?]; [|done]. by apply Hsmall in Hlt. }
    destruct (Hfolder ltac:(done)) as [_ Hl]. fold len_ in Hl.
    assert (Hstrlen : strlen name = len_).
    { unfold name. rewrite strlen_decode, len_slice by lia. lia. }
    exists fl, ((name, sub) :: fs). cbn [folders files firstID]. rewrite <- app_assoc.
    split; [done|]. split; [|by constructor].
    eapply Entries_folder; rewrite ?Hstrlen; [lia|lia| |lia|reflexivity|done|done].
    unfold name. by rewrite encode_decode.
Qed.

Lemma loadFolder_holds limit fnt folderId d :
  loadFolder limit fnt folderId = Ok d -> Holds fnt folderId d /\ (depth d <= limit)%nat.
Proof.
  revert folderId d. induction limit as [|limit IH]; intros folderId d; [done|].
  cbn [loadFolder].
  destruct (unpack_IH fnt _) as [[entriesTableOff fileID]|e|] eqn:Hu; cbn [bind]; [|done..].
  assert (0 <= 8 * Z.land folderId 4095) by (pose proof (Z.land_nonneg folderId 4095); lia).
  apply unpack_IH_inv in Hu as (Hin & -> & ->); [|done].
  intros Hloop.
  apply (loadFolder_loop_holds _ fnt limit IH) in Hloop as (fl & fs & -> & Hentries & Hdepth);
    [|apply field_nonneg].
  cbn [folders files firstID empty app] in *. split.
  - by apply Holds_folder.
  - by apply depth_folders.
Qed.

(** X14.  [load] returns a tree exactly when the table holds that tree in
    the format of the filename table and the tree is not nested deeper
    than the recursion limit: each folder has its 8-byte entry, found by
    the twelve low bits of its ID, with the offset of its entries and its
    first file ID; a file entry is a length byte of 1 to 127 and the name; a
    folder entry is the length plus 0x80, the name and the two bytes of the
    subfolder ID; a zero byte ends the entries.  The parent IDs of the
    table are not read. *)
Theorem load_as_table_holds (limit : nat) (fnt : list byte) (d : Folder) :
  load limit fnt = Ok d <-> Holds fnt 0xF000 d /\ (depth d <= limit)%nat.
Proof.
  split.
  - apply loadFolder_holds.
  - intros [Hholds Hdepth]. by apply Holds_loads.
Qed.

Lemma load_as_table_holds_witness :
  Holds table_abc 0xF000 tree_abc /\ (depth tree_abc <= 10)%nat.
Proof.
  apply (proj1 (load_as_table_holds 10 table_abc tree_abc)). vm_compute. reflexivity.
Defined.

End LoadProps.

(** ** The ROM decoder, the file accessors and the loader entry point *)

Module RomProps.
Import Rom RomSpec RomFacts Loader Samples MoreSamples.

Lemma len_rstrip0 bs : len (rstrip0 bs) <= len bs.
Proof.
  induction bs as [|b bs IH]; [done|]. cbn [rstrip0].
  destruct (rstrip0 bs) as [|y r].
  - destruct (Byte.eqb b x00); rewrite ?len_cons; change (len (@nil byte)) with 0 in *;
      pose proof (len_nonneg bs); lia.
  - rewrite !len_cons in *. lia.
Qed.

(** [rstrip] takes zero bytes off the end, and all of them. *)
Lemma rstrip0_spec bs :
  (exists k, bs = rstrip0 bs ++ replicate k x00) /\ last (rstrip0 bs) <> Some x00.
Proof.
  induction bs as [|b bs [[k IHk] IHlast]]; [split; [by exists 0%nat|done]|].
  cbn [rstrip0]. destruct (rstrip0 bs) as [|y r].
  - destruct (Byte.eqb b x00) eqn:Hb.
    + apply Byte.byte_dec_bl in Hb as ->. split; [|done]. exists (S k). by rewrite IHk.
    + split; [exists k; by rewrite IHk|]. cbn. intros [= ->]. discriminate Hb.
  - split; [exists k; by rewrite IHk|]. exact IHlast.
Qed.

Lemma rstrip0_nil bs : rstrip0 bs = [] <-> all_zero bs.
Proof.
  split; [|apply rstrip0_zero].
  intros H. destruct (rstrip0_spec bs) as [[k Hk] _]. rewrite H in Hk.
  rewrite Hk. by apply Forall_replicate.
Qed.

Lemma len_raw (d : list byte) lo hi : 0x200 <= len d -> 0 <= lo -> lo <= hi -> hi <= 0x200 ->
  len (slice d lo hi) = hi - lo.
Proof. intros. rewrite len_slice by lia. lia. Qed.

(** X15.  Decoding a buffer of any length comes to an end, and fails only
    where [load] fails on the filename table that the header declares: the
    exception is then the one of [load], struct.error or RecursionError, and
    the declared table is not empty.  No assertion of the decoder fails and
    no read of the header is out of range.  When the declared table is empty,
    as it is when its length field at 0x44 is zero or its offset at 0x40 is
    at or after the end of the buffer, the decode succeeds. *)
Theorem decode_raises (limit : nat) (data : list byte) :
  let d := pad data in
  let fnt := slice d (field d 0x40 4) (field d 0x40 4 + field d 0x44 4) in
  _initFromData limit data <> OutOfFuel /\
  (forall e, _initFromData limit data = Raise e ->
     (e = StructError \/ e = RecursionError) /\
     fnt <> [] /\ Fnt.load limit fnt = Raise e) /\
  (fnt = [] -> exists rom, _initFromData limit data = Ok rom) /\
  (field d 0x44 4 = 0 \/ len d <= field d 0x40 4 -> fnt = []).
Proof.
  intros d fnt. split; [apply initFromData_ends|].
  assert (Hempty : fnt = [] -> exists rom, _initFromData limit data = Ok rom).
  { intros Hnil. rewrite initFromData_eq. unfold loadFilenames, fnt_of. fold d. fold fnt.
    rewrite Hnil. cbn. eauto. }
  split; [|split; [done|]].
  - intros e He. rewrite initFromData_eq in He. unfold loadFilenames, fnt_of in He.
    fold d in He. fold fnt in He.
    destruct (Z.eqb_spec (len fnt) 0) as [Hz|Hnz]; cbn [negb] in He; [done|].
    destruct (Fnt.load limit fnt) as [fn|e'|] eqn:Hload; cbn [bind] in He; [done| |done].
    injection He as ->. split; [|split; [|done]].
    + by apply (LoadProps.loadFolder_raises limit fnt 0xF000).
    + intros Hnil. by rewrite Hnil in Hnz.
  - pose proof (field_nonneg d 0x40 4). pose proof (field_nonneg d 0x44 4).
    pose proof (len_nonneg d).
    intros Hor. apply length_zero_iff_nil.
    assert (len fnt = 0); [|unfold len in *; lia].
    unfold fnt. rewrite len_slice by lia. lia.
Qed.

Lemma decode_raises_witness :
  _initFromData 1000 buffer_short_fnt = Raise StructError /\
  exists rom, _initFromData 1000 buffer_zero = Ok rom.
Proof.
  destruct (decode_raises 1000 buffer_short_fnt) as (_ & Hraise & _).
  destruct (decode_raises 1000 buffer_zero) as (_ & _ & Hok & Hnil).
  split.
  - destruct (_initFromData 1000 buffer_short_fnt) as [rom|e|] eqn:He;
      [vm_compute in He; discriminate| |vm_compute in He; discriminate].
    destruct (Hraise e eq_refl) as ([->| ->] & _ & Hload); [done|].
    vm_compute in Hload. discriminate.
  - apply Hok, Hnil. left. reflexivity.
Defined.

(** X16.  The header of a decoded ROM is whole and in range, however short
    the buffer was: the cursor ends at 0x200, the raw fields have their full
    widths (the name at most 12 bytes), and every integer attribute fits
    the width of its field, 8, 16 or 32 bits. *)
Theorem header_in_range (limit : nat) (data : list byte) (rom : NintendoDSRom) :
  _initFromData limit data = Ok rom ->
  headerOffset rom = 0x200 /\
  len (name rom) <= 12 /\
  len (idCode rom) = 4 /\
  len (developerCode rom) = 2 /\
  len (secureAreaDisable rom) = 8 /\
  len (pad088 rom) = 0x38 /\
  len (nintendoLogo rom) = 0x9C /\
  len (pad16C rom) = 0x94 /\
  Forall (fun v => 0 <= v < 2 ^ 8)
    [unitCode rom; encryptionSeedSelect rom; deviceCapacity rom; pad015 rom;
     pad016 rom; pad017 rom; pad018 rom; pad019 rom; pad01A rom; pad01B rom;
     pad01C rom; region rom; version rom; autostart rom] /\
  Forall (fun v => 0 <= v < 2 ^ 16) [secureAreaChecksum rom; secureTransferDelay rom] /\
  Forall (fun v => 0 <= v < 2 ^ 32)
    [arm9Offset rom; arm9EntryAddress rom; arm9RamAddress rom; arm9Len rom;
     arm7Offset rom; arm7EntryAddress rom; arm7RamAddress rom; arm7Len rom;
     normalCardControlRegisterSettings rom; secureCardControlRegisterSettings rom;
     arm9CodeSettingsPointerAddress rom; arm7CodeSettingsPointerAddress rom;
     romSizeOrRsaSigOffset rom; debugRomAddress rom].
Proof.
  intros Hrom. apply initFromData_ok_inv in Hrom as (fn & _ & ->).
  set (d := pad data).
  assert (Hlen : 0x200 <= len d) by (unfold d; rewrite len_pad; lia).
  assert (H8 : forall off, 0 <= off -> 0 <= field d off 1 < 2 ^ 8)
    by (intros; change (2 ^ 8) with (256 ^ 1); apply LoadProps.field_bound; lia).
  assert (H16 : forall off, 0 <= off -> 0 <= field d off 2 < 2 ^ 16)
    by (intros; change (2 ^ 16) with (256 ^ 2); apply LoadProps.field_bound; lia).
  assert (H32 : forall off, 0 <= off -> 0 <= field d off 4 < 2 ^ 32)
    by (intros; change (2 ^ 32) with (256 ^ 4); apply LoadProps.field_bound; lia).
  cbn. split; [done|]. split.
  { etrans; [apply len_rstrip0|]. rewrite len_raw by lia. lia. }
  do 6 (split; [by rewrite len_raw by lia|]).
  split; [|split].
  - repeat (apply Forall_cons_2; [apply H8; lia|]). apply Forall_nil_2.
  - repeat (apply Forall_cons_2; [apply H16; lia|]). apply Forall_nil_2.
  - repeat (apply Forall_cons_2; [apply H32; lia|]). apply Forall_nil_2.
Qed.

Lemma header_in_range_witness :
  exists rom,
    _initFromData 1000 (zeros 0x10) = Ok rom /\
    headerOffset rom = 0x200 /\ len (nintendoLogo rom) = 0x9C.
Proof.
  destruct (_initFromData 1000 (zeros 0x10)) as [rom|e|] eqn:Hrom;
    [|vm_compute in Hrom; discriminate..].
  exists rom. split; [reflexivity|].
  destruct (header_in_range 1000 (zeros 0x10) rom Hrom) as (H1 & _ & _ & _ & _ & _ & H2 & _).
  by split.
Defined.

Lemma decoded_name (limit : nat) (data : list byte) (rom : NintendoDSRom) :
  _initFromData limit data = Ok rom -> name rom = rstrip0 (slice (pad data) 0 12).
Proof. intros Hrom. by apply initFromData_ok_inv in Hrom as (fn & _ & ->). Qed.

(** X17.  The name of a decoded ROM is the first 12 bytes of the padded
    buffer without the zero bytes at their end: the 12 bytes are the name
    followed by zero bytes only, the name does not end with a zero byte
    (zero bytes before its last byte stay), and the name is empty exactly
    when the 12 bytes are all zero. *)
Theorem name_field (limit : nat) (data : list byte) (rom : NintendoDSRom) :
  _initFromData limit data = Ok rom ->
  let raw := slice (pad data) 0 12 in
  len raw = 12 /\
  (exists k, raw = name rom ++ replicate k x00) /\
  last (name rom) <> Some x00 /\
  (name rom = [] <-> all_zero raw).
Proof.
  intros Hrom raw. rewrite (decoded_name limit data rom Hrom). fold raw.
  split; [|split; [|split]].
  - unfold raw. rewrite len_raw; [done|rewrite len_pad; lia|lia..].
  - apply rstrip0_spec.
  - apply rstrip0_spec.
  - apply rstrip0_nil.
Qed.

Lemma name_field_witness :
  exists rom,
    _initFromData 1000 buffer_named = Ok rom /\
    len (slice (pad buffer_named) 0 12) = 12 /\
    exists k, slice (pad buffer_named) 0 12 = name rom ++ replicate k x00.
Proof.
  destruct (_initFromData 1000 buffer_named) as [rom|e|] eqn:Hrom;
    [|vm_compute in Hrom; discriminate..].
  exists rom. split; [reflexivity|].
  destruct (name_field 1000 buffer_named rom Hrom) as (Hlen & Hk & _).
  by split.
Defined.

Lemma pad_zero_extension data (n : nat) :
  len data + Z.of_nat n <= 0x200 -> pad (data ++ replicate n x00) = pad data.
Proof.
  intros Hn. unfold pad. rewrite len_app, <- app_assoc. f_equal.
  unfold len at 2. rewrite length_replicate, <- replicate_add. f_equal.
  pose proof (len_nonneg data). lia.
Qed.

(** X18.  Zero bytes written after a short buffer, up to 0x200 bytes in
    all, change nothing: the decode gives the same ROM, or the same
    exception, as for the buffer itself. *)
Theorem decode_zero_extension (limit : nat) (data : list byte) (n : nat) :
  len data + Z.of_nat n <= 0x200 ->
  _initFromData limit (data ++ replicate n x00) = _initFromData limit data.
Proof. intros Hn. by rewrite !initFromData_eq, pad_zero_extension. Qed.

Lemma decode_zero_extension_witness :
  _initFromData 1000 (zeros 0x10 ++ replicate 0x1F0 x00) = _initFromData 1000 (zeros 0x10).
Proof.
  apply (decode_zero_extension 1000 (zeros 0x10) 0x1F0). vm_compute. discriminate.
Defined.

Lemma subscript_lt {A} (l : list A) i k :
  subscript (len l) i = Some k -> (k < length l)%nat.
Proof.
  unfold subscript. destruct (_ && _) eqn:Hb; [|done]. intros [= <-].
  apply andb_prop in Hb as [H1 H2]. apply Z.leb_le in H1. apply Z.ltb_lt in H2.
  unfold len in *. destruct (i <? 0); lia.
Qed.

Lemma getitem_subscript {A} (l : list A) i k x :
  subscript (len l) i = Some k -> l !! k = Some x -> getitem l i = Ok x.
Proof. intros Hk Hx. unfold getitem. by rewrite Hk, Hx. Qed.

(** X19.  After [setFileByName] has stored [data] under a name,
    [getFileByName] returns [data] for that name, at the same recursion
    limit.  A name that leads to
    another position of [files], or to no file, gives what it gave before.
    Storing a second time under the name is as storing once. *)
Theorem set_then_get (limit : nat) (self self' : NintendoDSRom) (filename : string)
    (data : list byte) :
  setFileByName limit self filename data = Ok self' ->
  getFileByName limit self' filename = Ok data /\
  (exists fid k,
     Fnt.idOf limit (filenames self) filename = Ok (Some fid) /\
     subscript (len (files self)) fid = Some k /\
     forall other,
       (forall fid', Fnt.idOf limit (filenames self) other = Ok (Some fid') ->
          subscript (len (files self)) fid' <> Some k) ->
       getFileByName limit self' other = getFileByName limit self other) /\
  (forall data2,
     setFileByName limit self' filename data2 = setFileByName limit self filename data2).
Proof.
  unfold setFileByName, getFileByName.
  destruct (Fnt.idOf limit (filenames self) filename) as [[fid|]|e|] eqn:Hid; cbn [bind];
    [|done..].
  unfold setitem. destruct (subscript (len (files self)) fid) as [k|] eqn:Hk; cbn [bind];
    [|done].
  intros [= <-]. cbn [filenames files with_files]. rewrite Hid. cbn [bind].
  pose proof (subscript_lt _ _ _ Hk) as Hlt.
  assert (Hlen : len (<[k:=data]> (files self)) = len (files self))
    by (unfold len; by rewrite length_insert).
  split; [|split].
  - apply (getitem_subscript _ _ k); [by rewrite Hlen|]. by apply list_lookup_insert_eq.
  - exists fid, k. split; [done|]. split; [done|]. intros other Hother.
    destruct (Fnt.idOf limit (filenames self) other) as [[fid'|]|e|]; cbn [bind]; [|done..].
    unfold getitem. rewrite Hlen.
    destruct (subscript (len (files self)) fid') as [k'|] eqn:Hk'; [|done].
    rewrite list_lookup_insert_ne; [done|]. intros ->. by apply (Hother fid').
  - intros data2. unfold setitem. rewrite Hlen, Hk. cbn [bind].
    unfold with_files. cbn. by rewrite list_insert_insert_eq.
Qed.

Lemma set_then_get_witness :
  exists self',
    setFileByName 3 rom_abc "a/b/c.txt" [xff] = Ok self' /\
    getFileByName 3 self' "a/b/c.txt" = Ok [xff] /\
    getFileByName 3 self' "r" = Ok [x0a].
Proof.
  destruct (setFileByName 3 rom_abc "a/b/c.txt" [xff]) as [self'|e|] eqn:Hset;
    [|vm_compute in Hset; discriminate..].
  exists self'. split; [reflexivity|].
  destruct (set_then_get 3 rom_abc self' "a/b/c.txt" [xff] Hset)
    as (Hget & (fid & k & Hid & Hk & Hother) & _).
  split; [exact Hget|].
  rewrite Hother; [reflexivity|].
  intros fid' Hid'. vm_compute in Hid, Hid'. injection Hid as <-. injection Hid' as <-.
  vm_compute in Hk. injection Hk as <-. vm_compute. discriminate.
Defined.

(** X20.  [accept_file] raises what the decode of the file raises.  When
    the decode succeeds, the file is turned down, with the result 0, exactly
    when the first 12 bytes of the padded contents are all zero; every other
    file is taken as a Nintendo DS ROM, under the name that these bytes
    give.  Nothing else of the file is looked at: an empty file is turned
    down, and a file whose first byte is not zero and whose header declares
    no filename table is taken. *)
Theorem accept_file_outcome (str : list byte -> string) (limit : nat)
    (li : loader_input) (n : Z) :
  let contents := li_read li (li_size li) in
  let raw := slice (pad contents) 0 12 in
  (forall e, accept_file str limit li n = Raise e <-> _initFromData limit contents = Raise e) /\
  (accept_file str limit li n = Ok (inl 0) <->
   (exists rom, _initFromData limit contents = Ok rom) /\ all_zero raw) /\
  (forall rom, _initFromData limit contents = Ok rom -> ~ all_zero raw ->
     accept_file str limit li n = Ok (inr ("Nintendo DS (" +:+ str (name rom) +:+ ")"))) /\
  (contents = [] -> accept_file str limit li n = Ok (inl 0)).
Proof.
  intros contents raw. unfold accept_file. fold contents.
  assert (Hempty : contents = [] -> _initFromData limit contents = Ok (decoded (pad []) Fnt.empty)).
  { intros ->. rewrite initFromData_eq. reflexivity. }
  destruct (_initFromData limit contents) as [rom|e|] eqn:Hrom; cbn [bind].
  - pose proof (rstrip0_nil raw) as Hnil. unfold raw in Hnil at 1.
    rewrite <- (decoded_name limit contents rom Hrom) in Hnil.
    case_bool_decide as Hname; cbn [negb].
    + split; [done|]. split; [|split].
      * split; [|done]. intros _. split; [eauto|]. by apply Hnil.
      * intros rom' [= <-] Hnz. exfalso. by apply Hnz, Hnil.
      * done.
    + split; [done|]. split; [|split].
      * split; [done|]. intros [_ Hz]. exfalso. by apply Hname, Hnil.
      * by intros rom' [= <-] _.
      * intros Hc. specialize (Hempty Hc). injection Hempty as ->.
        exfalso. apply Hname. reflexivity.
  - split; [intros e0; split; congruence|]. split; [|split]; [|done|].
    + split; [done|]. by intros [[rom ?] _].
    + intros Hc. by specialize (Hempty Hc).
  - split; [intros e0; split; congruence|]. split; [|split]; [|done|].
    + split; [done|]. by intros [[rom ?] _].
    + intros Hc. by specialize (Hempty Hc).
Qed.

Lemma accept_file_outcome_witness :
  accept_file decode_latin1 1000 (input_of []) 0 = Ok (inl 0) /\
  accept_file decode_latin1 1000 (input_of buffer_named) 0
  = Ok (inr "Nintendo DS (AB)"%string).
Proof.
  destruct (accept_file_outcome decode_latin1 1000 (input_of []) 0) as (_ & _ & _ & Hempty).
  destruct (accept_file_outcome decode_latin1 1000 (input_of buffer_named) 0)
    as (_ & _ & Htaken & _).
  split; [apply Hempty; reflexivity|].
  destruct (_initFromData 1000 buffer_named) as [rom|e|] eqn:Hrom;
    [|vm_compute in Hrom; discriminate..].
  rewrite (Htaken rom).
  - vm_compute in Hrom. injection Hrom as <-. reflexivity.
  - exact Hrom.
  - intros Hz. vm_compute in Hz. inversion Hz as [|? ? H0 _]. discriminate H0.
Defined.

End RomProps.

Module ReprProps.
Import PyExc Common MoreSamples.

Section repr.
Variable repr_byte : Z -> outcome string.

Lemma getitem_middle {A} (pre : list A) x l : getitem (pre ++ x :: l) (len pre) = Ok x.
Proof.
  unfold getitem, subscript. rewrite len_app, len_cons.
  pose proof (len_nonneg pre). pose proof (len_nonneg l).
  destruct (len pre <? 0) eqn:H1; [apply Z.ltb_lt in H1; lia|].
  destruct (0 <=? len pre) eqn:H2; [|apply Z.leb_gt in H2; lia].
  destruct (len pre <? len pre + (1 + len l)) eqn:H3; [|apply Z.ltb_ge in H3; lia].
  cbn [andb]. unfold len. rewrite Nat2Z.id.
  by rewrite list_lookup_middle.
Qed.

Lemma loop_render data pre rest r :
  data = pre ++ rest ->
  each (zip (seqZ (len pre) (len rest)) rest)
    (fun '(i, b) r =>
       let b := byte_val b in
       shorten <-- (if b <? 8
                    then if i =? len data - 1 then Return true
                         else next <-- lift (getitem data (i + 1)) ;;
                              Return (negb (in_digits (byte_val next)))
                    else Return false) ;;
       if shorten : bool
       then Throw TypeError
       else s <-- repr_byte b ;; Return (r ++ [s])) r
  = render repr_byte rest r.
Proof.
  revert pre r. induction rest as [|b rest IH]; intros pre r ->; [done|].
  rewrite len_cons. pose proof (len_nonneg rest) as Hr. pose proof (len_nonneg pre) as Hp.
  rewrite seqZ_cons by lia.
  replace (Z.pred (1 + len rest)) with (len rest) by lia.
  replace (Z.succ (len pre)) with (len (pre ++ [b])) by (rewrite len_app, len_cons; done).
  cbn [zip zip_with each render].
  specialize (IH (pre ++ [b])).
  rewrite <- (assoc_L (++)) in IH. cbn [app] in IH.
  assert (Hsh : (if byte_val b <? 8
                 then if len pre =? len (pre ++ b :: rest) - 1 then Return true
                      else next <-- lift (getitem (pre ++ b :: rest) (len pre + 1)) ;;
                           Return (negb (in_digits (byte_val next)))
                 else Return false) = Return (shortens b rest)).
  { unfold shortens. destruct (byte_val b <? 8); [|done]. cbn [andb].
    rewrite len_app, len_cons.
    destruct rest as [|c rest'].
    - change (len (@nil byte)) with 0. by rewrite (proj2 (Z.eqb_eq _ _)) by lia.
    - rewrite len_cons in *. pose proof (len_nonneg rest').
      rewrite (proj2 (Z.eqb_neq _ _)) by lia.
      replace (len pre + 1) with (len (pre ++ [b])) by (rewrite len_app, len_cons; done).
      replace (pre ++ b :: c :: rest') with ((pre ++ [b]) ++ c :: rest')
        by (by rewrite <- (assoc_L (++))).
      by rewrite getitem_middle. }
  cbv zeta. rewrite Hsh. cbn [andThen].
  destruct (shortens b rest); [done|].
  destruct (repr_byte (byte_val b)) as [s| |]; cbn [andThen]; [|done..].
  by apply IH.
Qed.

Lemma render_returns rest r r' :
  render repr_byte rest r = Return r' <->
  (forall pre b rest', rest = pre ++ b :: rest' -> shortens b rest' = false) /\
  exists parts, Forall2 (fun b s => repr_byte (byte_val b) = Return s) rest parts /\
                r' = r ++ parts.
Proof.
  revert r. induction rest as [|b rest IH]; intros r; cbn [render].
  - split.
    + intros [= <-]. split; [by intros [|??] ???|].
      exists []. split; [constructor|by rewrite app_nil_r].
    + intros (_ & parts & Hall & ->). apply Forall2_nil_inv_l in Hall as ->.
      by rewrite app_nil_r.
  - split.
    + destruct (shortens b rest) eqn:Hsh; [done|].
      destruct (repr_byte (byte_val b)) as [s| |] eqn:Hs; cbn [andThen]; [|done..].
      intros (Hno & parts & Hall & ->)%IH. split.
      * intros [|x pre] b' rest' [= -> ->]; [done|]. by eapply Hno.
      * exists (s :: parts). split; [by constructor|by rewrite <- (assoc_L (++))].
    + intros (Hno & parts & Hall & ->).
      rewrite (Hno [] b rest eq_refl).
      apply Forall2_cons_inv_l in Hall as (s & parts' & Hs & Hall & ->).
      rewrite Hs. cbn [andThen]. apply IH. split.
      * intros pre b' rest' ->. by apply (Hno (b :: pre)).
      * exists parts'. split; [done|by rewrite <- (assoc_L (++))].
Qed.

Lemma render_throws rest r :
  (forall b, b ∈ rest -> exists s, repr_byte (byte_val b) = Return s) ->
  (exists pre b rest', rest = pre ++ b :: rest' /\ shortens b rest' = true) ->
  render repr_byte rest r = Throw TypeError.
Proof.
  revert r. induction rest as [|b rest IH]; intros r Hrepr (pre & b' & rest' & Heq & Hsh).
  - by destruct pre.
  - cbn [render]. destruct (shortens b rest) eqn:Hb; [done|].
    destruct (Hrepr b) as [s ->]; [left|]. cbn [andThen].
    apply IH; [intros; apply Hrepr; by right|].
    destruct pre as [|x pre]; injection Heq as -> ->; [congruence|].
    by exists pre, b', rest'.
Qed.

Lemma shortens_candidate data :
  octal_candidate data <->
  exists pre b rest, data = pre ++ b :: rest /\ shortens b rest = true.
Proof.
  unfold octal_candidate, shortens. split; intros (pre & b & rest & -> & H).
  - exists pre, b, rest. split; [done|]. destruct H as [H1 H2].
    rewrite (proj2 (Z.ltb_lt _ _) H1). cbn [andb]. destruct rest; [done|by rewrite H2].
  - exists pre, b, rest. split; [done|]. apply andb_prop in H as [H1 H2].
    split; [by apply Z.ltb_lt|]. destruct rest; [done|by apply negb_true_iff].
Qed.

(** X21.  [shortBytesRepr(data, maxLen)] returns exactly when no byte of
    [data] below 8 ends it or stands before something else than an ASCII
    digit, and every byte has a [repr]; the text is then [b'], the [repr] of
    every byte of [data], the closing quote, and three dots when [data] is
    longer than [maxLen] (0x20 by default): the data is never cut at
    [maxLen].  When every byte has a [repr] and there is such a byte below
    8, the call raises TypeError: no octal escape is ever produced. *)
Theorem shortBytesRepr_outcome (data : list byte) (maxLen : option Z) :
  (forall text,
     shortBytesRepr repr_byte data maxLen = Return text <->
     ~ octal_candidate data /\
     exists parts,
       Forall2 (fun b s => repr_byte (byte_val b) = Return s) data parts /\
       text = join EmptyString (["b'"] ++ parts ++ ["'"]) +:+
              (if len data >? default 0x20 maxLen then "..." else EmptyString)) /\
  ((forall b, b ∈ data -> exists s, repr_byte (byte_val b) = Return s) ->
   octal_candidate data ->
   shortBytesRepr repr_byte data maxLen = Throw TypeError).
Proof.
  unfold shortBytesRepr, enumerate. cbv zeta.
  change (seqZ 0 (len data)) with (seqZ (len (@nil byte)) (len data)).
  pose proof (loop_render data [] data ["b'"] eq_refl) as Hloop.
  cbv zeta in Hloop. rewrite Hloop. clear Hloop.
  replace (match maxLen with Some m => m | None => 32 end) with (default 0x20 maxLen)
    by (by destruct maxLen).
  split.
  - intros text. rewrite shortens_candidate. split.
    + destruct (render repr_byte data ["b'"]) as [r| |] eqn:Hr; cbn [andThen]; [|done..].
      apply render_returns in Hr as (Hno & parts & Hall & ->). intros Htext. split.
      * intros (pre & b & rest & -> & Hsh). by rewrite (Hno pre b rest eq_refl) in Hsh.
      * exists parts. split; [done|]. rewrite <- (assoc_L (++)) in Htext.
        destruct (len data >? _); injection Htext as <-; [done|].
        by rewrite FntFacts.append_empty_r.
    + intros (Hno & parts & Hall & ->).
      assert (Hr : render repr_byte data ["b'"] = Return (["b'"] ++ parts)).
      { apply render_returns. split; [|by exists parts].
        intros pre b rest -> . destruct (shortens b rest) eqn:Hsh; [|done].
        destruct Hno. by exists pre, b, rest. }
      rewrite Hr. cbn [andThen]. rewrite <- (assoc_L (++)).
      destruct (len data >? _); [done|]. by rewrite FntFacts.append_empty_r.
  - intros Hrepr Hc%shortens_candidate.
    by rewrite (render_throws data ["b'"] Hrepr Hc).
Qed.

End repr.

Lemma shortBytesRepr_outcome_witness :
  (forall b, b ∈ [x41; x00; x42] -> exists s, repr_alnum (byte_val b) = Return s) /\
  octal_candidate [x41; x00; x42] /\
  shortBytesRepr repr_alnum [x41; x00; x42] None = Throw TypeError /\
  shortBytesRepr repr_alnum [x41; x42] (Some 1) = Return "b'AB'...".
Proof.
  assert (H1 : forall b, b ∈ [x41; x00; x42] -> exists s, repr_alnum (byte_val b) = Return s)
    by (intros b _; by eexists).
  assert (H2 : octal_candidate [x41; x00; x42])
    by (exists [x41], x00, [x42]; repeat split; vm_compute; congruence).
  split; [exact H1|]. split; [exact H2|]. split.
  - exact (proj2 (shortBytesRepr_outcome repr_alnum [x41; x00; x42] None) H1 H2).
  - apply (proj1 (shortBytesRepr_outcome repr_alnum [x41; x42] (Some 1))). split.
    + intros (pre & b & rest & Heq & Hb & _).
      assert (Hin : b ∈ [x41; x42]) by (rewrite Heq; set_solver).
      apply list_elem_of_In in Hin. cbn in Hin.
      destruct Hin as [<-|[<-|[]]]; vm_compute in Hb; discriminate Hb.
    + exists ["A"; "B"]. split; [repeat constructor|reflexivity].
Defined.

End ReprProps.
